(** * verschemes: version schemes, their grammar, validation, rendering
      and comparison

    A shallow embedding of [verschemes/__init__.py] and
    [verschemes/python.py].

    Python values are one dynamically typed universe [pyval]; a raised
    exception is the [Raise] branch of [result]; the [re] engine is a
    backtracking matcher over the syntax tree of the pattern.  Python 3
    semantics are followed throughout (the [_PY2] branches of the
    source are the compatibility shims and are left out). *)

From Stdlib Require Import String Ascii ZArith List Bool Lia Arith.
Import ListNotations.

Set Implicit Arguments.
Set Warnings "-register-all".

Local Open Scope Z_scope.

(* ================================================================= *)
(** ** Exceptions and results *)

(** Text is a list of characters; [lit] turns a literal into text. *)
Definition pystr := list ascii.

Definition lit (s : string) : pystr := list_ascii_of_string s.

(** The message of an exception names the [raise] statement it comes
    from (the formatted arguments of the message are left out).  The
    last group are the messages of the interpreter itself. *)
Inductive message : Type :=
| FieldNamesNotUnique       (* "Field names must be unique within a segment definition." *)
| NameStartsWithUnderscore  (* "Segment names must not begin with an underscore." *)
| NameNotIdentifier         (* "Segment names must be valid identifiers." *)
| MoreValuesThanFields      (* "More values ({}) were given than fields ({}) ..." *)
| SegmentDoesNotMatch       (* "Version segment {!r} does not match {!r}." *)
| ValueRequired             (* "A value is required because the version segment is not optional and has no default." *)
| VersionStringDoesNotMatch (* "Version string {!r} does not match {!r}." *)
| TooManySegmentValues      (* "There are too many segment values ({}) for the number of segment definitions ({})." *)
| ValuesRequired            (* "One or more values are required when using implicit segment definitions." *)
| SegmentNamesNotUnique     (* "Segment names must be unique." *)
| NoSegmentWithName (k : pystr) (* "There is no segment with name {!r}." *)
| InvalidLiteralForInt      (* int('x') *)
| IntArgumentType           (* int(None), int(()) *)
| NotSubscriptable          (* 3[0], None[0] *)
| IndexOutOfRange           (* ()[0] *)
| ItemAssignment            (* 'tuple' object does not support item assignment *)
| NotOrderable.             (* '<' not supported between instances of ... *)

Inductive exn : Type :=
| ValueError (m : message)
| TypeError (m : message)
| KeyError (m : message)
| IndexError (m : message)
| OtherException (name : pystr).

Inductive result (A : Type) : Type :=
| Ok (a : A)
| Raise (e : exn).

Arguments Ok {A} a.
Arguments Raise {A} e.

Definition bind {A B : Type} (r : result A) (f : A -> result B) : result B :=
  match r with
  | Ok a => f a
  | Raise e => Raise e
  end.

Declare Scope py_scope.
Delimit Scope py_scope with py.
Notation "x <- e ;; k" := (bind e (fun x => k))
  (at level 61, e at next level, right associativity) : py_scope.
Notation "e ;;; k" := (bind e (fun _ => k))
  (at level 61, right associativity) : py_scope.
Local Open Scope py_scope.

(** [[f(x) for x in l]]: the first exception ends the comprehension. *)
Fixpoint mapM {A B : Type} (f : A -> result B) (l : list A) : result (list B) :=
  match l with
  | [] => Ok []
  | x :: t => y <- f x ;; ys <- mapM f t ;; Ok (y :: ys)
  end.

(** [except (TypeError, ValueError)] *)
Definition is_type_or_value_error (e : exn) : bool :=
  match e with
  | TypeError _ | ValueError _ => true
  | _ => false
  end.

(* ================================================================= *)
(** ** Python values *)

(** [None], [int], [str] and tuples (lists are not told apart from
    tuples except where the source assigns to an item). *)
Inductive pyval : Type :=
| PNone
| PInt (z : Z)
| PStr (s : pystr)
| PTuple (l : list pyval).

Definition is_none (v : pyval) : bool :=
  match v with PNone => true | _ => false end.

(** *** Text *)

Definition ascii_ltb (a b : ascii) : bool := (N_of_ascii a <? N_of_ascii b)%N.

Fixpoint str_eqb (s t : pystr) : bool :=
  match s, t with
  | [], [] => true
  | a :: s', b :: t' => Ascii.eqb a b && str_eqb s' t'
  | _, _ => false
  end.

(** [s < t] on text: by code point, a proper prefix first. *)
Fixpoint str_ltb (s t : pystr) : bool :=
  match s, t with
  | _, [] => false
  | [], _ :: _ => true
  | a :: s', b :: t' =>
      if Ascii.eqb a b then str_ltb s' t' else ascii_ltb a b
  end.

(** *** Decimal text of an integer: [str(n)] and [int(s)] *)

Definition digit_char (d : Z) : ascii := ascii_of_nat (48 + Z.to_nat d).

Definition is_digit (c : ascii) : bool :=
  ((48 <=? N_of_ascii c) && (N_of_ascii c <=? 57))%N.

Definition digit_value (c : ascii) : Z := Z.of_N (N_of_ascii c) - 48.

(** Most significant digit first; [fuel] bounds the number of digits. *)
Fixpoint dec_digits (fuel : nat) (n : Z) (acc : pystr) : pystr :=
  match fuel with
  | O => acc
  | S f =>
      let acc' := digit_char (n mod 10) :: acc in
      if n / 10 =? 0 then acc' else dec_digits f (n / 10) acc'
  end.

Definition dec_of_nonneg (n : Z) : pystr :=
  dec_digits (S (Z.to_nat (Z.log2 n))) n [].

Definition str_of_int (n : Z) : pystr :=
  if n <? 0 then "-"%char :: dec_of_nonneg (- n) else dec_of_nonneg n.

Fixpoint digits_value (acc : Z) (s : pystr) : option Z :=
  match s with
  | [] => Some acc
  | c :: t => if is_digit c then digits_value (acc * 10 + digit_value c) t
              else None
  end.

(** [int(s)] for text: an optional sign and decimal digits.  The other
    spellings Python accepts (surrounding white space, digit-group
    underscores, digits outside ASCII) are taken as invalid; no pattern
    of the repository lets them through. *)
Definition int_of_str (s : pystr) : result Z :=
  let unsigned (t : pystr) : result Z :=
    match t with
    | [] => Raise (ValueError InvalidLiteralForInt)
    | _ => match digits_value 0 t with
           | Some n => Ok n
           | None => Raise (ValueError InvalidLiteralForInt)
           end
    end in
  match s with
  | "-"%char :: t => n <- unsigned t ;; Ok (- n)
  | "+"%char :: t => unsigned t
  | _ => unsigned s
  end.

(** [repr(s)] of text, for ASCII text: the quote is the double one only
    when the text holds a single quote and no double one. *)
Definition hex_digit (n : N) : ascii :=
  if (n <? 10)%N then ascii_of_N (48 + n) else ascii_of_N (87 + n).

Definition repr_char (q : ascii) (c : ascii) : pystr :=
  if Ascii.eqb c "\"%char then ["\"; "\"]%char
  else if Ascii.eqb c q then ["\"%char; q]
  else if Ascii.eqb c "010"%char then ["\"; "n"]%char
  else if Ascii.eqb c "013"%char then ["\"; "r"]%char
  else if Ascii.eqb c "009"%char then ["\"; "t"]%char
  else if ((N_of_ascii c <? 32) || (126 <? N_of_ascii c))%N
       then ["\"%char; "x"%char; hex_digit (N_of_ascii c / 16);
             hex_digit (N_of_ascii c mod 16)]
  else [c].

Definition repr_str (s : pystr) : pystr :=
  let dq := "034"%char in
  let q := if existsb (Ascii.eqb "'"%char) s && negb (existsb (Ascii.eqb dq) s)
           then dq else "'"%char in
  q :: flat_map (repr_char q) s ++ [q].

Fixpoint join (sep : pystr) (l : list pystr) : pystr :=
  match l with
  | [] => []
  | [x] => x
  | x :: t => x ++ sep ++ join sep t
  end.

(** [repr(v)] and [str(v)]. *)
Fixpoint py_repr (v : pyval) : pystr :=
  match v with
  | PNone => lit "None"
  | PInt z => str_of_int z
  | PStr s => repr_str s
  | PTuple l =>
      match l with
      | [x] => lit "(" ++ py_repr x ++ lit ",)"
      | _ => lit "(" ++ join (lit ", ") (map py_repr l) ++ lit ")"
      end
  end.

Definition py_str (v : pyval) : pystr :=
  match v with
  | PStr s => s
  | _ => py_repr v
  end.

(** [int(v)] *)
Definition py_int (v : pyval) : result Z :=
  match v with
  | PInt z => Ok z
  | PStr s => int_of_str s
  | PNone | PTuple _ => Raise (TypeError IntArgumentType)
  end.

(** *** Equality and order *)

(** [a == b] *)
Fixpoint py_eq (a b : pyval) : bool :=
  match a, b with
  | PNone, PNone => true
  | PInt x, PInt y => x =? y
  | PStr s, PStr t => str_eqb s t
  | PTuple l, PTuple m =>
      (fix all_eq (l m : list pyval) : bool :=
         match l, m with
         | [], [] => true
         | x :: l', y :: m' => py_eq x y && all_eq l' m'
         | _, _ => false
         end) l m
  | _, _ => false
  end.

(** [a < b].  Tuples are ordered by their first pair of items that are
    not equal, or by length when one is a prefix of the other; only two
    integers, two texts or two tuples are ordered at all. *)
Fixpoint py_lt (a b : pyval) : result bool :=
  match a, b with
  | PInt x, PInt y => Ok (x <? y)
  | PStr s, PStr t => Ok (str_ltb s t)
  | PTuple l, PTuple m =>
      (fix tuple_lt (l m : list pyval) : result bool :=
         match l, m with
         | _, [] => Ok false
         | [], _ :: _ => Ok true
         | x :: l', y :: m' =>
             if py_eq x y then tuple_lt l' m' else py_lt x y
         end) l m
  | _, _ => Raise (TypeError NotOrderable)
  end.

(* ================================================================= *)
(** ** Regular expressions

    A pattern is kept as its syntax tree.  The source only ever puts a
    pattern inside a group of its own ([(?P<name>...)], [(?:...)]), so
    joining the pattern texts is joining the trees.  The tree covers the
    syntax the repository's patterns use. *)

(** A character class: the listed ranges, or their complement. *)
Record charclass : Type := {
  cc_negated : bool;
  cc_ranges : list (ascii * ascii)
}.

Inductive regex : Type :=
| Eps                                   (* the empty pattern *)
| Text (s : pystr)                      (* literal text, as [re.escape] gives *)
| Cls (c : charclass)                   (* [...] *)
| Cat (r1 r2 : regex)                   (* r1r2 *)
| Alt (r1 r2 : regex)                   (* r1|r2 *)
| Star (r : regex)                      (* (?:r)*, greedy *)
| Opt (r : regex)                       (* (?:r)?, greedy *)
| Group (name : pystr) (r : regex)      (* (?P<name>r) *)
| Behind (positive : bool) (c : charclass) (* (?<=[...]) and (?<![...]) *)
| Bol                                   (* ^ *)
| Eol.                                  (* $ *)

Definition in_range (c : ascii) (r : ascii * ascii) : bool :=
  ((N_of_ascii (fst r) <=? N_of_ascii c) && (N_of_ascii c <=? N_of_ascii (snd r)))%N.

Definition in_class (cc : charclass) (c : ascii) : bool :=
  xorb (cc_negated cc) (existsb (in_range c) (cc_ranges cc)).

Definition chars (s : string) : charclass :=
  {| cc_negated := false; cc_ranges := map (fun c => (c, c)) (lit s) |}.

Definition range (a b : ascii) : charclass :=
  {| cc_negated := false; cc_ranges := [(a, b)] |}.

Fixpoint cat_all (l : list regex) : regex :=
  match l with
  | [] => Eps
  | r :: t => Cat r (cat_all t)
  end.

(** The state of a match: the text already consumed (last character
    first), the text ahead, and the groups captured so far. *)
Record mstate : Type := {
  consumed : pystr;
  ahead : pystr;
  captured : list (pystr * pystr)
}.

Definition advance (st : mstate) : mstate :=
  match ahead st with
  | [] => st
  | c :: t => {| consumed := c :: consumed st; ahead := t;
                 captured := captured st |}
  end.

Fixpoint match_literal (s : pystr) (st : mstate) : option mstate :=
  match s with
  | [] => Some st
  | c :: s' =>
      match ahead st with
      | c' :: _ => if Ascii.eqb c c' then match_literal s' (advance st) else None
      | [] => None
      end
  end.

Definition capture (name : pystr) (start : mstate) (st : mstate) : mstate :=
  {| consumed := consumed st; ahead := ahead st;
     captured :=
       (name, firstn (length (ahead start) - length (ahead st)) (ahead start))
       :: captured st |}.

Definition or_else {A : Type} (a b : option A) : option A :=
  match a with Some x => Some x | None => b end.

(** At most [n] more rounds of the body of a repetition, then the rest
    of the pattern [k]: one more round is tried first, and it counts
    only when it consumed text. *)
Definition star_rounds (body : mstate -> (mstate -> option mstate) -> option mstate)
  (k : mstate -> option mstate) : nat -> mstate -> option mstate :=
  fix rounds (n : nat) (st : mstate) {struct n} : option mstate :=
    match n with
    | O => k st
    | S n' =>
        or_else
          (body st
             (fun st' =>
                if (length (ahead st') <? length (ahead st))%nat
                then rounds n' st' else None))
          (k st)
    end.

(** Backtracking match of [r] at [st], then of the rest of the pattern
    [k]: alternatives are tried left to right and repetition is greedy,
    as in [re].  The rounds of a repetition are bounded by the text
    ahead, each of them consuming some. *)
Fixpoint rmatch (r : regex) (st : mstate) (k : mstate -> option mstate)
  {struct r} : option mstate :=
  match r with
  | Eps => k st
  | Text s =>
      match match_literal s st with
      | Some st' => k st'
      | None => None
      end
  | Cls cc =>
      match ahead st with
      | c :: _ => if in_class cc c then k (advance st) else None
      | [] => None
      end
  | Cat r1 r2 => rmatch r1 st (fun st' => rmatch r2 st' k)
  | Alt r1 r2 => or_else (rmatch r1 st k) (rmatch r2 st k)
  | Star r1 => star_rounds (rmatch r1) k (length (ahead st)) st
  | Opt r1 => or_else (rmatch r1 st k) (k st)
  | Group name r1 => rmatch r1 st (fun st' => k (capture name st st'))
  | Behind positive cc =>
      let seen := match consumed st with
                  | c :: _ => in_class cc c
                  | [] => false
                  end in
      if Bool.eqb seen positive then k st else None
  | Bol => match consumed st with [] => k st | _ :: _ => None end
  | Eol =>
      match ahead st with
      | [] => k st
      | [c] => if Ascii.eqb c "010"%char then k st else None
      | _ => None
      end
  end.

(** The names of the groups, in the order they open. *)
Fixpoint group_names (r : regex) : list pystr :=
  match r with
  | Cat r1 r2 | Alt r1 r2 => group_names r1 ++ group_names r2
  | Star r1 | Opt r1 => group_names r1
  | Group name r1 => name :: group_names r1
  | _ => []
  end.

Fixpoint lookup {A : Type} (k : pystr) (l : list (pystr * A)) : option A :=
  match l with
  | [] => None
  | (k', v) :: t => if str_eqb k k' then Some v else lookup k t
  end.

(** A match object: what the groups captured. *)
Definition match_object := list (pystr * pystr).

(** [re.match(r, s)] *)
Definition re_match (r : regex) (s : pystr) : option match_object :=
  match rmatch r {| consumed := []; ahead := s; captured := [] |}
               (fun st => Some st) with
  | Some st => Some (captured st)
  | None => None
  end.

(** [match.group(name)]: [None] for a group that took no part. *)
Definition group (m : match_object) (name : pystr) : pyval :=
  match lookup name m with
  | Some s => PStr s
  | None => PNone
  end.

(** [match.groups()] for a match of [r]. *)
Definition groups (r : regex) (m : match_object) : list pyval :=
  map (group m) (group_names r).

(* ================================================================= *)
(** ** More of the interpreter: items, identifiers, text splitting *)

(** [v[i]] for a position [i] counted from the start. *)
Definition py_getitem (v : pyval) (i : nat) : result pyval :=
  match v with
  | PTuple l =>
      match nth_error l i with
      | Some x => Ok x
      | None => Raise (IndexError IndexOutOfRange)
      end
  | PStr s =>
      match nth_error s i with
      | Some c => Ok (PStr [c])
      | None => Raise (IndexError IndexOutOfRange)
      end
  | PNone | PInt _ => Raise (TypeError NotSubscriptable)
  end.

Definition is_alpha_or_underscore (c : ascii) : bool :=
  let n := N_of_ascii c in
  (((65 <=? n) && (n <=? 90)) || ((97 <=? n) && (n <=? 122)) || (n =? 95))%N.

(** [s.isidentifier()], for ASCII text. *)
Definition isidentifier (s : pystr) : bool :=
  match s with
  | [] => false
  | c :: t =>
      is_alpha_or_underscore c
      && forallb (fun x => is_alpha_or_underscore x || is_digit x) t
  end.

(** [s.startswith('_')] *)
Definition startswith_underscore (s : pystr) : bool :=
  match s with
  | c :: _ => Ascii.eqb c "_"%char
  | [] => false
  end.

(** [len(set(l)) < len(l)] *)
Fixpoint has_duplicates (l : list pystr) : bool :=
  match l with
  | [] => false
  | x :: t => existsb (str_eqb x) t || has_duplicates t
  end.

(** [s.split(c)] for a separator of one character. *)
Fixpoint split_on (c : ascii) (s : pystr) : list pystr :=
  match s with
  | [] => [[]]
  | a :: s' =>
      if Ascii.eqb a c then [] :: split_on c s'
      else match split_on c s' with
           | w :: ws => (a :: w) :: ws
           | [] => [[a]]
           end
  end.

(* ================================================================= *)
(** ** SegmentField *)

(** The [type] of a field: [int] or [str], the two the source names. *)
Inductive field_type : Type := type_int | type_str.

Definition is_str_type (t : field_type) : bool :=
  match t with type_str => true | type_int => false end.

(** [t(v)] *)
Definition call_type (t : field_type) (v : pyval) : result pyval :=
  match t with
  | type_int => z <- py_int v ;; Ok (PInt z)
  | type_str => Ok (PStr (py_str v))
  end.

Module SegmentField.

Record t : Type := {
  type : field_type;
  name : pystr;
  re_pattern : regex;
  render : pyval -> pystr
}.

End SegmentField.

Definition DEFAULT_FIELD_TYPE : field_type := type_int.

Definition DEFAULT_SEGMENT_SEPARATOR : pystr := lit ".".

(** The default pattern: a zero, or a digit from 1 to 9 and then any
    digits. *)
Definition DEFAULT_RE_PATTERN : regex :=
  Alt (Text (lit "0")) (Cat (Cls (range "1" "9")) (Star (Cls (range "0" "9")))).

Definition DEFAULT_SEGMENT_FIELD : SegmentField.t :=
  {| SegmentField.type := DEFAULT_FIELD_TYPE;
     SegmentField.name := lit "value";
     SegmentField.re_pattern := DEFAULT_RE_PATTERN;
     SegmentField.render := py_str |}.

(* ================================================================= *)
(** ** SegmentDefinition *)

Module SegmentDefinition.

Record t : Type := {
  optional : bool;
  default : pyval;
  separator : pystr;
  fields : list SegmentField.t;
  name : option pystr
}.

(** [_validate_value(value, fields)] *)
Definition _validate_value (value : pyval) (fields : list SegmentField.t)
  : result pyval :=
  value_string <-
    match value with
    | PStr s => Ok s
    | _ =>
        let values := match value with PTuple l => l | _ => [value] end in
        if (length fields <? length values)%nat
        then Raise (ValueError MoreValuesThanFields)
        else
          let values := values ++ repeat PNone (length fields - length values) in
          parts <- mapM (fun xy : SegmentField.t * pyval =>
                           let (x, y) := xy in
                           if is_none y then Ok (SegmentField.render x PNone)
                           else z <- call_type (SegmentField.type x) y ;;
                                Ok (SegmentField.render x z))
                        (combine fields values) ;;
          Ok (concat parts)
    end ;;
  let re_pattern :=
    Cat Bol
      (Cat (cat_all (map (fun x => Group (SegmentField.name x)
                                         (SegmentField.re_pattern x)) fields))
           Eol) in
  match re_match re_pattern value_string with
  | None => Raise (ValueError SegmentDoesNotMatch)
  | Some m =>
      result <- mapM (fun x =>
                        let g := group m (SegmentField.name x) in
                        if py_eq g (PStr [])
                           && negb (is_str_type (SegmentField.type x))
                        then Ok PNone
                        else call_type (SegmentField.type x) g)
                     fields ;;
      match fields with
      | [_] => py_getitem (PTuple result) 0
      | _ => Ok (PTuple result)
      end
  end.

(** [SegmentDefinition(optional, default, separator, fields, name)].
    [fields] is typed as a sequence of fields, so the two tests on its
    type cannot fail and are left out. *)
Definition new (optional : bool) (default : pyval) (separator : pystr)
  (fields : list SegmentField.t) (name : option pystr) : result t :=
  (if has_duplicates (map SegmentField.name fields)
   then Raise (ValueError FieldNamesNotUnique) else Ok tt) ;;;
  default <- (if is_none default then Ok default
              else _validate_value default fields) ;;
  name <- match name with
          | None | Some [] => Ok None
          | Some n =>
              if startswith_underscore n
              then Raise (ValueError NameStartsWithUnderscore)
              else if negb (isidentifier n)
                   then Raise (ValueError NameNotIdentifier)
                   else Ok (Some n)
          end ;;
  Ok {| optional := optional; default := default; separator := separator;
        fields := fields; name := name |}.

(** The pattern of the segment: its fields' patterns, one after the
    other. *)
Definition re_pattern (self : t) : regex :=
  cat_all (map SegmentField.re_pattern (fields self)).

Definition required (self : t) : bool :=
  negb (optional self) && is_none (default self).

Definition validate_value (self : t) (value : pyval) : result pyval :=
  if is_none value then
    if negb (optional self) && is_none (default self)
    then Raise (ValueError ValueRequired)
    else Ok value
  else _validate_value value (fields self).

Definition render (self : t) (value : pyval) : result pystr :=
  match fields self with
  | [f] => Ok (SegmentField.render f value)
  | fs =>
      parts <- mapM (fun fi : SegmentField.t * nat =>
                       x <- py_getitem value (snd fi) ;;
                       Ok (SegmentField.render (fst fi) x))
                    (combine fs (seq 0 (length fs))) ;;
      Ok (concat parts)
  end.

End SegmentDefinition.

(** [SegmentDefinition()] *)
Definition DEFAULT_SEGMENT_DEFINITION : SegmentDefinition.t :=
  {| SegmentDefinition.optional := false;
     SegmentDefinition.default := PNone;
     SegmentDefinition.separator := DEFAULT_SEGMENT_SEPARATOR;
     SegmentDefinition.fields := [DEFAULT_SEGMENT_FIELD];
     SegmentDefinition.name := None |}.

(* ================================================================= *)
(** ** Version *)

(** A version scheme: a subclass of [Version].  What a subclass sets is
    its table of segments and, when it needs one, its [validate]
    method, here a test of the segment values of the new instance. *)
Record VersionClass : Type := {
  class_name : pystr;
  SEGMENT_DEFINITIONS : list SegmentDefinition.t;
  validate : list pyval -> result unit
}.

(** The argument of [__getitem__], [get_raw_item] and
    [_get_segment_definition]: a position counted from the start, the
    slice [lo:hi], or a segment name. *)
Inductive item : Type :=
| Index (i : nat)
| Slice (lo hi : nat)
| Name (s : pystr).

(** [args]: the tuple of the call or of [match.groups()], or the list
    made from it. *)
Inductive arguments : Type :=
| ArgTuple (l : list pyval)
| ArgList (l : list pyval).

Definition arg_values (a : arguments) : list pyval :=
  match a with ArgTuple l | ArgList l => l end.

Fixpoint list_set {A : Type} (l : list A) (i : nat) (v : A) : list A :=
  match l, i with
  | [], _ => []
  | _ :: t, O => v :: t
  | x :: t, S i' => x :: list_set t i' v
  end.

(** [args[i] = v] *)
Definition setitem (a : arguments) (i : nat) (v : pyval) : result arguments :=
  match a with
  | ArgTuple _ => Raise (TypeError ItemAssignment)
  | ArgList l =>
      if (i <? length l)%nat then Ok (ArgList (list_set l i v))
      else Raise (IndexError IndexOutOfRange)
  end.

Module Version.

(** An instance: its class and the tuple of its raw segment values. *)
Record t : Type := {
  cls : VersionClass;
  items : list pyval
}.

(** The names of the named segments, each with its position. *)
Fixpoint named_segments (defs : list SegmentDefinition.t) (i : nat)
  : list (pystr * nat) :=
  match defs with
  | [] => []
  | d :: ds =>
      match SegmentDefinition.name d with
      | Some n => (n, i) :: named_segments ds (S i)
      | None => named_segments ds (S i)
      end
  end.

(** [_get_definitions]: the table, once its names are known to be
    unique.  (The cache holds what this computes, and the table is
    typed, so its type test is left out.  The properties added to the
    class for the segment names are [named_property] below.) *)
Definition _get_definitions (c : VersionClass)
  : result (list SegmentDefinition.t) :=
  let names := map fst (named_segments (SEGMENT_DEFINITIONS c) 0) in
  if has_duplicates names then Raise (ValueError SegmentNamesNotUnique)
  else Ok (SEGMENT_DEFINITIONS c).

(** The pattern text of segment [i], given the segments before it. *)
Definition re_segment (before : list SegmentDefinition.t) (i : nat)
  (d : SegmentDefinition.t) : regex :=
  let group :=
    Group (lit "segment" ++ str_of_int (Z.of_nat i))
          (SegmentDefinition.re_pattern d) in
  let re_segment :=
    match i with
    | O => group
    | S _ =>
        let sep := Text (SegmentDefinition.separator d) in
        Cat (if forallb (fun x => negb (SegmentDefinition.required x)) before
             then Opt sep else sep)
            group
    end in
  if negb (SegmentDefinition.required d) then Opt re_segment else re_segment.

Fixpoint re_segments (before rest : list SegmentDefinition.t) (i : nat)
  : list regex :=
  match rest with
  | [] => []
  | d :: ds => re_segment before i d :: re_segments (before ++ [d]) ds (S i)
  end.

(** [_get_re]: the grammar of the whole version text. *)
Definition _get_re (c : VersionClass) : result regex :=
  definitions <- _get_definitions c ;;
  Ok (Cat Bol (Cat (cat_all (re_segments [] definitions 0)) Eol)).

(** [for k, v in kwargs.items(): ...] *)
Fixpoint process_kwargs (segment_indices : list (pystr * nat))
  (kwargs : list (pystr * pyval)) (args : arguments) : result arguments :=
  match kwargs with
  | [] => Ok args
  | (k, v) :: rest =>
      match lookup k segment_indices with
      | None => Raise (KeyError (NoSegmentWithName k))
      | Some i =>
          args <- setitem args i v ;;
          process_kwargs segment_indices rest args
      end
  end.

(** [segment_definitions[i] if segment_definitions else
    DEFAULT_SEGMENT_DEFINITION] *)
Definition definition_at (segment_definitions : list SegmentDefinition.t)
  (i : nat) : result SegmentDefinition.t :=
  match segment_definitions with
  | [] => Ok DEFAULT_SEGMENT_DEFINITION
  | _ =>
      match nth_error segment_definitions i with
      | Some d => Ok d
      | None => Raise (IndexError IndexOutOfRange)
      end
  end.

(** [__new__]: the call of the class on [args] and [kwargs]; [kwargs]
    is kept in the order of the call. *)
Definition new (c : VersionClass) (args : list pyval)
  (kwargs : list (pystr * pyval)) : result t :=
  segment_definitions <- _get_definitions c ;;
  args <-
    match args with
    | [PStr string] =>
        match segment_definitions with
        | _ :: _ =>
            re <- _get_re c ;;
            match re_match re string with
            | None => Raise (ValueError VersionStringDoesNotMatch)
            | Some m => Ok (ArgTuple (groups re m))
            end
        | [] =>
            Ok (ArgList (map PStr (split_on "."%char string)))
        end
    | _ =>
        match segment_definitions with
        | _ :: _ =>
            if (length segment_definitions <? length args)%nat
            then Raise (ValueError TooManySegmentValues)
            else Ok (ArgList
                       (args ++ repeat PNone (length segment_definitions
                                              - length args)))
        | [] =>
            match args with
            | [] => Raise (ValueError ValuesRequired)
            | _ => Ok (ArgList args)
            end
        end
    end ;;
  let segment_indices := rev (named_segments segment_definitions 0) in
  args <- process_kwargs segment_indices kwargs args ;;
  let args := arg_values args in
  args <- mapM (fun i =>
                  d <- definition_at segment_definitions i ;;
                  x <- py_getitem (PTuple args) i ;;
                  SegmentDefinition.validate_value d x)
               (seq 0 (length args)) ;;
  validate c args ;;;
  Ok {| cls := c; items := args |}.

(** [get_raw_item(item)]; [None] stands for the whole tuple. *)
Definition get_raw_item (self : t) (item : option item) : result pyval :=
  let item := match item with
              | None => Slice 0 (length (items self))
              | Some i => i
              end in
  item <-
    match item with
    | Name s =>
        definitions <- _get_definitions (cls self) ;;
        match lookup s (named_segments definitions 0) with
        | Some index => Ok (Index index)
        | None => Raise (KeyError (NoSegmentWithName s))
        end
    | _ => Ok item
    end ;;
  match item with
  | Slice lo hi => Ok (PTuple (firstn (hi - lo) (skipn lo (items self))))
  | Index i => py_getitem (PTuple (items self)) i
  | Name s => Raise (KeyError (NoSegmentWithName s))
  end.

(** What [_get_segment_definition] returns: one definition, or the
    tuple of them. *)
Inductive definitions : Type :=
| One (d : SegmentDefinition.t)
| Many (ds : list SegmentDefinition.t).

Definition _get_segment_definition (self : t) (item : option item)
  : result definitions :=
  definitions <- _get_definitions (cls self) ;;
  match definitions with
  | _ :: _ =>
      match item with
      | None => Ok (Many definitions)
      | Some (Name s) =>
          (* the dict keeps the last of two segments of one name *)
          match lookup s (rev (named_segments definitions 0)) with
          | Some i =>
              match nth_error definitions i with
              | Some d => Ok (One d)
              | None => Raise (KeyError (NoSegmentWithName s))
              end
          | None => Raise (KeyError (NoSegmentWithName s))
          end
      | Some (Index i) =>
          match nth_error definitions i with
          | Some d => Ok (One d)
          | None => Raise (IndexError IndexOutOfRange)
          end
      | Some (Slice lo hi) =>
          Ok (Many (firstn (hi - lo) (skipn lo definitions)))
      end
  | [] =>
      match item with
      | None | Some (Slice _ _) =>
          raw <- get_raw_item self item ;;
          match raw with
          | PTuple l => Ok (Many (repeat DEFAULT_SEGMENT_DEFINITION (length l)))
          | _ => Raise (TypeError NotSubscriptable)
          end
      | _ => Ok (One DEFAULT_SEGMENT_DEFINITION)
      end
  end.

(** [get(v, d)] of [__getitem__] *)
Definition get (v : pyval) (d : SegmentDefinition.t) : pyval :=
  if is_none v then SegmentDefinition.default d else v.

(** [self[item]]: the cooked value or values. *)
Definition __getitem__ (self : t) (item : item) : result pyval :=
  definition <- _get_segment_definition self (Some item) ;;
  value <- get_raw_item self (Some item) ;;
  match item, definition, value with
  | Slice _ _, Many ds, PTuple vs =>
      Ok (PTuple (map (fun vd => get (fst vd) (snd vd)) (combine vs ds)))
  | _, One d, _ => Ok (get value d)
  | _, _, _ => Raise (TypeError NotSubscriptable)
  end.

(** [self[:]] *)
Definition cooked (self : t) : result pyval :=
  __getitem__ self (Slice 0 (length (items self))).

(** The property the class gets for a segment name: [lambda o: o[i]]. *)
Definition named_property (i : nat) (self : t) : result pyval :=
  __getitem__ self (Index i).

(** [any(self.get_raw_item(i) is not None for i in l)] *)
Fixpoint any_raw_item (self : t) (l : list nat) : result bool :=
  match l with
  | [] => Ok false
  | i :: l' =>
      x <- get_raw_item self (Some (Index i)) ;;
      if negb (is_none x) then Ok true else any_raw_item self l'
  end.

(** [_render_exclude_defaults_callback(self, index, scope)]; the scope
    is a list of positions. *)
Definition _render_exclude_defaults_callback (self : t) (index : nat)
  (scope : option (list nat)) : result bool :=
  let scope := match scope with
               | None => seq 0 (length (items self))
               | Some l => l
               end in
  set <- (if existsb (Nat.eqb index) scope
          then any_raw_item self
                 (seq index (S (fold_right Nat.max 0%nat scope) - index))
          else Ok false) ;;
  if set then Ok false
  else
    definition <- _get_segment_definition self (Some (Index index)) ;;
    match definition with
    | One d =>
        if SegmentDefinition.optional d
        then x <- get_raw_item self (Some (Index index)) ;; Ok (is_none x)
        else Ok false
    | Many _ => Raise (TypeError NotSubscriptable)
    end.

(** A callback of [render]: a function of the version and the index
    (its additional arguments, when it has some, are already given). *)
Definition callback := t -> nat -> result bool.

(** A loop over callbacks that stops at none of them:
    [for callback in callbacks: if callback(self, i): flag = True] *)
Fixpoint some_affirmative (callbacks : list callback) (self : t) (i : nat)
  : result bool :=
  match callbacks with
  | [] => Ok false
  | cb :: rest =>
      b <- cb self i ;;
      r <- some_affirmative rest self i ;;
      Ok (b || r)
  end.

(** The body of the loop of [render] for segment [i]; [rendered] is the
    text so far ([result] in the source). *)
Definition render_segment (self : t) (definitions : list SegmentDefinition.t)
  (include_callbacks exclude_callbacks : list callback)
  (rendered : pystr) (i : nat) : result pystr :=
  definition <- match nth_error definitions i with
                | Some d => Ok d
                | None => Raise (IndexError IndexOutOfRange)
                end ;;
  value <- __getitem__ self (Index i) ;;
  if SegmentDefinition.optional definition && is_none value then Ok rendered
  else
    include <- some_affirmative include_callbacks self i ;;
    include <- (if negb include
                then excluded <- some_affirmative exclude_callbacks self i ;;
                     Ok (negb excluded)
                else Ok include) ;;
    if negb include then Ok rendered
    else
      let rendered := if (0 <? length rendered)%nat
                      then rendered ++ SegmentDefinition.separator definition
                      else rendered in
      text <- SegmentDefinition.render definition value ;;
      Ok (rendered ++ text).

(** [for i in indices: ...] *)
Fixpoint render_loop (self : t) (definitions : list SegmentDefinition.t)
  (include_callbacks exclude_callbacks : list callback)
  (indices : list nat) (rendered : pystr) : result pystr :=
  match indices with
  | [] => Ok rendered
  | i :: rest =>
      rendered <- render_segment self definitions include_callbacks
                    exclude_callbacks rendered i ;;
      render_loop self definitions include_callbacks exclude_callbacks
        rest rendered
  end.

(** [render(exclude_defaults, include_callbacks, exclude_callbacks)] *)
Definition render (self : t) (exclude_defaults : bool)
  (include_callbacks exclude_callbacks : list callback) : result pystr :=
  let exclude_callbacks :=
    if exclude_defaults
    then exclude_callbacks
         ++ [fun v i => _render_exclude_defaults_callback v i None]
    else exclude_callbacks in
  definitions <- _get_segment_definition self None ;;
  match definitions with
  | Many definitions =>
      render_loop self definitions include_callbacks exclude_callbacks
        (seq 0 (length (items self))) []
  | One _ => Raise (TypeError NotSubscriptable)
  end.

(** [str(self)] *)
Definition __str__ (self : t) : result pystr :=
  render self true [] [].

End Version.

(* ================================================================= *)
(** ** Comparison *)

(** What a type is called with in [_coerce_to_type]: the version
    itself, or its text. *)
Inductive ctor_arg : Type :=
| OfVersion (v : Version.t)
| OfStr (s : pystr).

(** A type that is not a version scheme, as far as [__eq__] and
    [__lt__] use it: its instances, its constructor, and [==] and [<]
    between two of its instances. *)
Record pytype : Type := {
  instance : Type;
  call : ctor_arg -> result instance;
  eq_op : instance -> instance -> result bool;
  lt_op : instance -> instance -> result bool
}.

(** The right operand of a comparison. *)
Inductive operand : Type :=
| AVersion (w : Version.t)
| Foreign (T : pytype) (o : instance T).

(** What [__lt__] returns. *)
Inductive comparison : Type :=
| Truth (b : bool)
| NotImplemented.

(** [try: ... except (TypeError, ValueError): pass]: [None] when one of
    the two was raised; any other exception goes on. *)
Definition try_ {A : Type} (r : result A) : result (option A) :=
  match r with
  | Ok a => Ok (Some a)
  | Raise e => if is_type_or_value_error e then Ok None else Raise e
  end.

Definition _coerce_to_type (self : Version.t) (type_ : pytype)
  : result (option (instance type_)) :=
  first <- try_ (call type_ (OfVersion self)) ;;
  match first with
  | Some x => Ok (Some x)
  | None => try_ (s <- Version.__str__ self ;; call type_ (OfStr s))
  end.

(** The methods [__eq__] and [__lt__].  Between two versions the
    operators [==] and [<] call them on the left operand, unless the
    class of the right operand is a proper subclass of the class of the
    left one: the interpreter then asks the right operand first, which
    is [__eq__] with the operands exchanged for [==] and, for [<], the
    [__gt__] that [Version] inherits from [tuple], on the raw items. *)
Definition __eq__ (self : Version.t) (other : operand) : result bool :=
  match other with
  | Foreign T o =>
      as_other <- _coerce_to_type self T ;;
      match as_other with
      | None => Ok false
      | Some x => eq_op T x o
      end
  | AVersion w =>
      a <- Version.cooked self ;;
      b <- Version.cooked w ;;
      Ok (py_eq a b)
  end.

Definition __lt__ (self : Version.t) (other : operand) : result comparison :=
  match other with
  | Foreign T o =>
      as_other <- _coerce_to_type self T ;;
      match as_other with
      | None => Ok NotImplemented
      | Some x => b <- lt_op T x o ;; Ok (Truth b)
      end
  | AVersion w =>
      a <- Version.cooked self ;;
      b <- Version.cooked w ;;
      r <- py_lt a b ;;
      Ok (Truth r)
  end.

(* ================================================================= *)
(** ** The schemes *)

Definition no_validation (_ : list pyval) : result unit := Ok tt.

(** [Version] itself: any number of integers separated by dots. *)
Definition VersionBase : VersionClass :=
  {| class_name := lit "Version";
     SEGMENT_DEFINITIONS := [];
     validate := no_validation |}.

(** *** verschemes.python *)

Definition MAJOR : nat := 0.
Definition MINOR : nat := 1.
Definition MICRO : nat := 2.
Definition SUFFIX : nat := 3.

Definition PythonMajorVersion : VersionClass :=
  {| class_name := lit "PythonMajorVersion";
     SEGMENT_DEFINITIONS := [DEFAULT_SEGMENT_DEFINITION];
     validate := no_validation |}.

Definition PythonMinorVersion : VersionClass :=
  {| class_name := lit "PythonMinorVersion";
     SEGMENT_DEFINITIONS :=
       SEGMENT_DEFINITIONS PythonMajorVersion ++ [DEFAULT_SEGMENT_DEFINITION];
     validate := no_validation |}.

(** [SegmentDefinition(optional=True)] *)
Definition MICRO_DEFINITION : SegmentDefinition.t :=
  {| SegmentDefinition.optional := true;
     SegmentDefinition.default := PNone;
     SegmentDefinition.separator := DEFAULT_SEGMENT_SEPARATOR;
     SegmentDefinition.fields := [DEFAULT_SEGMENT_FIELD];
     SegmentDefinition.name := None |}.

Definition PythonMicroVersion : VersionClass :=
  {| class_name := lit "PythonMicroVersion";
     SEGMENT_DEFINITIONS :=
       SEGMENT_DEFINITIONS PythonMinorVersion ++ [MICRO_DEFINITION];
     validate := no_validation |}.

Definition releaselevel : SegmentField.t :=
  {| SegmentField.type := type_str;
     SegmentField.name := lit "releaselevel";
     SegmentField.re_pattern := Cls (chars "+abc");
     SegmentField.render := py_str |}.

(** The serial: nothing when it comes after a plus sign, else a whole
    number that does not; it renders as no text when it is [None]. *)
Definition serial : SegmentField.t :=
  {| SegmentField.type := DEFAULT_FIELD_TYPE;
     SegmentField.name := lit "serial";
     SegmentField.re_pattern :=
       Alt (Behind true (chars "+"))
           (Cat (Behind false (chars "+")) DEFAULT_RE_PATTERN);
     SegmentField.render := fun x => if is_none x then [] else py_str x |}.

Definition SUFFIX_DEFINITION : SegmentDefinition.t :=
  {| SegmentDefinition.optional := true;
     SegmentDefinition.default := PNone;
     SegmentDefinition.separator := [];
     SegmentDefinition.fields := [releaselevel; serial];
     SegmentDefinition.name := None |}.

Definition PythonVersion : VersionClass :=
  {| class_name := lit "PythonVersion";
     SEGMENT_DEFINITIONS :=
       SEGMENT_DEFINITIONS PythonMicroVersion ++ [SUFFIX_DEFINITION];
     validate := no_validation |}.

(** [is_nondevelopment] and [is_release] *)
Definition is_nondevelopment (self : Version.t) : result bool :=
  x <- Version.__getitem__ self (Index SUFFIX) ;; Ok (is_none x).

Definition is_release (self : Version.t) : result bool :=
  x <- Version.__getitem__ self (Index SUFFIX) ;;
  Ok (negb (py_eq x (PTuple [PStr (lit "+"); PNone]))).

(** [major_version], [minor_version] and [micro_version]: a new version
    of the shorter scheme with the object's values. *)
Definition major_version (self : Version.t) : result Version.t :=
  major <- Version.__getitem__ self (Index MAJOR) ;;
  Version.new PythonMajorVersion [major] [].

Definition minor_version (self : Version.t) : result Version.t :=
  major <- Version.__getitem__ self (Index MAJOR) ;;
  minor <- Version.__getitem__ self (Index MINOR) ;;
  Version.new PythonMinorVersion [major; minor] [].

Definition micro_version (self : Version.t) : result Version.t :=
  major <- Version.__getitem__ self (Index MAJOR) ;;
  minor <- Version.__getitem__ self (Index MINOR) ;;
  micro <- Version.__getitem__ self (Index MICRO) ;;
  Version.new PythonMicroVersion [major; minor; micro] [].

(* ================================================================= *)
(** ** Version.replace *)

(** The index of a keyword of [replace] that is an underscore and then
    digits: [k.startswith('_') and k[1:].isdigit()], [int(k[1:])], for
    ASCII text. *)
Definition index_keyword (k : pystr) : option nat :=
  match k with
  | c :: (_ :: _) as digits =>
      if Ascii.eqb c "_"%char && forallb is_digit digits
      then option_map Z.to_nat (digits_value 0 digits)
      else None
  | _ => None
  end.

(** The loop of [replace] over the keywords: an index keyword is taken
    out of the keywords and its value put at the index; the others stay
    for the constructor, in their order. *)
Fixpoint replace_values (kwargs : list (pystr * pyval)) (values : list pyval)
  : result (list pyval * list (pystr * pyval)) :=
  match kwargs with
  | [] => Ok (values, [])
  | (k, x) :: rest =>
      match index_keyword k with
      | Some i =>
          if (i <? length values)%nat
          then replace_values rest (list_set values i x)
          else Raise (IndexError IndexOutOfRange)
      | None =>
          r <- replace_values rest values ;;
          Ok (fst r, (k, x) :: snd r)
      end
  end.

(** [replace(kwargs)] *)
Definition replace (self : Version.t) (kwargs : list (pystr * pyval))
  : result Version.t :=
  raw <- Version.get_raw_item self None ;;
  match raw with
  | PTuple values =>
      r <- replace_values kwargs values ;;
      Version.new (Version.cls self) (fst r) (snd r)
  | _ => Raise (TypeError NotSubscriptable)
  end.

(* ================================================================= *)
(** ** Types and schemes used in the statements *)

(** A version scheme as the type of an operand: its constructor is
    [Version.new] (a version given as the one argument is read as the
    tuple of its raw values). *)
Definition scheme_type (c : VersionClass) : pytype :=
  {| instance := Version.t;
     call := fun a =>
       Version.new c [match a with
                      | OfVersion v => PTuple (Version.items v)
                      | OfStr s => PStr s
                      end] [];
     eq_op := fun x y => __eq__ x (AVersion y);
     lt_op := fun x y =>
       r <- __lt__ x (AVersion y) ;;
       match r with
       | Truth b => Ok b
       | NotImplemented => Raise (TypeError NotOrderable)
       end |}.

(** [tuple]: made of the items of any sequence. *)
Definition tuple_type : pytype :=
  {| instance := list pyval;
     call := fun a =>
       match a with
       | OfVersion v => Ok (Version.items v)
       | OfStr s => Ok (map (fun c => PStr [c]) s)
       end;
     eq_op := fun x y => Ok (py_eq (PTuple x) (PTuple y));
     lt_op := fun x y => py_lt (PTuple x) (PTuple y) |}.

(** [int]: not made from a tuple, made from the text of a number. *)
Definition int_type : pytype :=
  {| instance := Z;
     call := fun a =>
       match a with
       | OfVersion _ => Raise (TypeError IntArgumentType)
       | OfStr s => int_of_str s
       end;
     eq_op := fun x y => Ok (x =? y);
     lt_op := fun x y => Ok (x <? y) |}.


(** Comparison as the specification words it, for an operand of any
    type [T]: coerce [self] to [T], directly and then through its text,
    and compare what comes out with the operand. *)
Definition eq_by_coercion (self : Version.t) (T : pytype) (o : instance T)
  : result bool :=
  as_other <- _coerce_to_type self T ;;
  match as_other with
  | None => Ok false
  | Some x => eq_op T x o
  end.

Definition lt_by_coercion (self : Version.t) (T : pytype) (o : instance T)
  : result comparison :=
  as_other <- _coerce_to_type self T ;;
  match as_other with
  | None => Ok NotImplemented
  | Some x => b <- lt_op T x o ;; Ok (Truth b)
  end.

(** Two whole numbers with nothing between them:
    [(SegmentDefinition(), SegmentDefinition(separator=''))]. *)
Definition JuxtaposedVersion : VersionClass :=
  {| class_name := lit "JuxtaposedVersion";
     SEGMENT_DEFINITIONS :=
       [DEFAULT_SEGMENT_DEFINITION;
        {| SegmentDefinition.optional := false;
           SegmentDefinition.default := PNone;
           SegmentDefinition.separator := [];
           SegmentDefinition.fields := [DEFAULT_SEGMENT_FIELD];
           SegmentDefinition.name := None |}];
     validate := no_validation |}.

(** A scheme with a named segment:
    [(SegmentDefinition(name='major'), SegmentDefinition(optional=True,
    default=0, name='minor'))]. *)
Definition NamedVersion : VersionClass :=
  {| class_name := lit "NamedVersion";
     SEGMENT_DEFINITIONS :=
       [{| SegmentDefinition.optional := false;
           SegmentDefinition.default := PNone;
           SegmentDefinition.separator := DEFAULT_SEGMENT_SEPARATOR;
           SegmentDefinition.fields := [DEFAULT_SEGMENT_FIELD];
           SegmentDefinition.name := Some (lit "major") |};
        {| SegmentDefinition.optional := true;
           SegmentDefinition.default := PInt 0;
           SegmentDefinition.separator := DEFAULT_SEGMENT_SEPARATOR;
           SegmentDefinition.fields := [DEFAULT_SEGMENT_FIELD];
           SegmentDefinition.name := Some (lit "minor") |}];
     validate := no_validation |}.

(** The cooked values of a version, given the table of its scheme:
    what [self[:]] holds. *)
Definition cooked_values (v : Version.t) (defs : list SegmentDefinition.t)
  : list pyval :=
  map (fun vd => Version.get (fst vd) (snd vd))
      (combine (Version.items v)
               (match defs with
                | [] => repeat DEFAULT_SEGMENT_DEFINITION
                          (length (Version.items v))
                | _ => defs
                end)).

Definition is_int (v : pyval) : bool :=
  match v with PInt _ => true | _ => false end.

(** Two values that are not equal are ordered one way, or the other,
    or not at all, and then in neither direction. *)
Definition one_way_or_none (a b : pyval) : Prop :=
  (py_lt a b = Ok true /\ py_lt b a = Ok false)
  \/ (py_lt a b = Ok false /\ py_lt b a = Ok true)
  \/ (py_lt a b = Raise (TypeError NotOrderable)
      /\ py_lt b a = Raise (TypeError NotOrderable)).

(** Some versions: [PythonMicroVersion(3, 4)],
    [PythonMicroVersion(3, 4, 1)], [PythonMicroVersion(3, 4, 2)],
    [Version(3, 4)] and [Version(3, 4, 1)]. *)
Definition python_3_4 : Version.t :=
  {| Version.cls := PythonMicroVersion;
     Version.items := [PInt 3; PInt 4; PNone] |}.

Definition python_3_4_1 : Version.t :=
  {| Version.cls := PythonMicroVersion;
     Version.items := [PInt 3; PInt 4; PInt 1] |}.

Definition python_3_4_2 : Version.t :=
  {| Version.cls := PythonMicroVersion;
     Version.items := [PInt 3; PInt 4; PInt 2] |}.

Definition version_3_4 : Version.t :=
  {| Version.cls := VersionBase; Version.items := [PInt 3; PInt 4] |}.

Definition version_3_4_1 : Version.t :=
  {| Version.cls := VersionBase; Version.items := [PInt 3; PInt 4; PInt 1] |}.

(** The exclusion callbacks of [render] under its default policy: the
    one callback that [exclude_defaults] adds. *)
Definition default_exclude_callbacks : list Version.callback :=
  [fun v i => Version._render_exclude_defaults_callback v i None].

(** A scheme with a default in the middle:
    [(SegmentDefinition(), SegmentDefinition(optional=True, default=0),
    SegmentDefinition(optional=True))], and two of its versions,
    [PaddedVersion(3)] and [PaddedVersion(3, None, 1)]. *)
Definition PaddedVersion : VersionClass :=
  {| class_name := lit "PaddedVersion";
     SEGMENT_DEFINITIONS :=
       [DEFAULT_SEGMENT_DEFINITION;
        {| SegmentDefinition.optional := true;
           SegmentDefinition.default := PInt 0;
           SegmentDefinition.separator := DEFAULT_SEGMENT_SEPARATOR;
           SegmentDefinition.fields := [DEFAULT_SEGMENT_FIELD];
           SegmentDefinition.name := None |};
        MICRO_DEFINITION];
     validate := no_validation |}.

Definition padded_3 : Version.t :=
  {| Version.cls := PaddedVersion;
     Version.items := [PInt 3; PNone; PNone] |}.

Definition padded_3_x_1 : Version.t :=
  {| Version.cls := PaddedVersion;
     Version.items := [PInt 3; PNone; PInt 1] |}.

(** [ds] is the decimal text of [n]: digits, the value of which after
    any digits of value [a] is [a] shifted and [n] added, with no
    leading zero but for zero itself. *)
Definition is_decimal (n : Z) (ds : pystr) : Prop :=
  Forall (fun c => is_digit c = true) ds
  /\ (forall a rest,
        digits_value a (ds ++ rest)
        = digits_value (a * 10 ^ Z.of_nat (length ds) + n) rest)
  /\ (exists c t, ds = c :: t
                  /\ (0 < n -> in_class (range "1" "9") c = true)
                  /\ (n = 0 -> c = "0"%char /\ t = [])).

(** The state after the text [ds] has been consumed, with [rest]
    ahead. *)
Definition consume (ds rest : pystr) (st : mstate) : mstate :=
  {| consumed := rev ds ++ consumed st; ahead := rest;
     captured := captured st |}.

(** The pattern [_validate_value] builds for the default field. *)
Definition DEFAULT_VALUE_PATTERN : regex :=
  Cat Bol (Cat (cat_all [Group (lit "value") DEFAULT_RE_PATTERN]) Eol).

(** The state at the start of [re.match]. *)
Definition initial (s : pystr) : mstate :=
  {| consumed := []; ahead := s; captured := [] |}.

(** One round of the loop of [render] for a segment that is rendered:
    the separator when there is text already, then the text of the
    segment. *)
Definition append_segment (sep acc text : pystr) : pystr :=
  (if (0 <? length acc)%nat then acc ++ sep else acc) ++ text.

(** The version of the scheme without a table that holds the whole
    numbers [ns]. *)
Definition base_version (ns : list Z) : Version.t :=
  {| Version.cls := VersionBase; Version.items := map PInt ns |}.

(** A segment of whole numbers after a dot: what [SegmentDefinition]
    returns for the default fields and separator, whatever [optional],
    [default] and [name] are. *)
Definition dotted (d : SegmentDefinition.t) : Prop :=
  exists optional default name,
    SegmentDefinition.new optional default DEFAULT_SEGMENT_SEPARATOR
      [DEFAULT_SEGMENT_FIELD] name = Ok d.

(** Whether [render], under its default policy, leaves segment [i]
    out: the segment is optional and its cooked value is [None], or the
    default-exclusion callback excludes it. *)
Definition omitted (v : Version.t) (defs : list SegmentDefinition.t) (i : nat)
  : bool :=
  match nth_error defs i, nth_error (Version.items v) i with
  | Some d, Some x =>
      SegmentDefinition.optional d
      && (is_none (Version.get x d)
          || (is_none x && forallb is_none (skipn (S i) (Version.items v))))
  | _, _ => false
  end.

(** The name of the group of segment [i] in the grammar. *)
Definition segment_group_name (i : nat) : pystr :=
  lit "segment" ++ str_of_int (Z.of_nat i).

(** The text of the whole numbers [ns] as segments [i], [i + 1], ...:
    each but segment 0 after a dot. *)
Fixpoint segments_text (i : nat) (ns : list Z) : pystr :=
  match ns with
  | [] => []
  | n :: ns' =>
      match i with O => [] | S _ => DEFAULT_SEGMENT_SEPARATOR end
      ++ str_of_int n ++ segments_text (S i) ns'
  end.

(** The groups captured when the texts are matched as segments [i],
    [i + 1], ..., after the groups [c]. *)
Fixpoint captures (i : nat) (texts : list pystr) (c : list (pystr * pystr))
  : list (pystr * pystr) :=
  match texts with
  | [] => c
  | t :: ts => captures (S i) ts ((segment_group_name i, t) :: c)
  end.

(** The whole number a cooked value holds. *)
Definition int_of (x : pyval) : Z :=
  match x with PInt n => n | _ => 0 end.

(** The values the suffix of a Python version can hold: none, the plus
    sign without a serial, or one of the letters a, b and c with a
    serial that is a whole number. *)
Definition is_suffix (s : pyval) : Prop :=
  s = PNone
  \/ s = PTuple [PStr (lit "+"); PNone]
  \/ exists l n, In l (lit "abc") /\ 0 <= n /\ s = PTuple [PStr [l]; PInt n].

(** The pattern [_validate_value] matches a suffix against. *)
Definition SUFFIX_VALUE_PATTERN : regex :=
  Cat Bol
    (Cat (cat_all (map (fun x => Group (SegmentField.name x)
                                       (SegmentField.re_pattern x))
                       [releaselevel; serial]))
         Eol).

(** [PythonVersion('3.4.1c1')] *)
Definition python_3_4_1_c1 : Version.t :=
  {| Version.cls := PythonVersion;
     Version.items := [PInt 3; PInt 4; PInt 1;
                       PTuple [PStr (lit "c"); PInt 1]] |}.

(** A call that is not the call on one text. *)
Definition positional (args : list pyval) : Prop :=
  forall s, args <> [PStr s].

(** A version is well formed for its scheme when the scheme's names are
    unique and, for a scheme with a table, there is one value for each
    segment; [Version.new] makes no other. *)
Definition well_formed (v : Version.t) (defs : list SegmentDefinition.t) : Prop :=
  Version._get_definitions (Version.cls v) = Ok defs /\
  (defs = [] \/ length defs = length (Version.items v)).

(* ================================================================= *)
(** * Properties *)

(** ** The constructors of the schemes give the tables above *)

Lemma default_segment_definition_new :
  SegmentDefinition.new false PNone DEFAULT_SEGMENT_SEPARATOR
    [DEFAULT_SEGMENT_FIELD] None = Ok DEFAULT_SEGMENT_DEFINITION.
Proof. reflexivity. Qed.

Lemma micro_definition_new :
  SegmentDefinition.new true PNone DEFAULT_SEGMENT_SEPARATOR
    [DEFAULT_SEGMENT_FIELD] None = Ok MICRO_DEFINITION.
Proof. reflexivity. Qed.

Lemma suffix_definition_new :
  SegmentDefinition.new true PNone [] [releaselevel; serial] None
  = Ok SUFFIX_DEFINITION.
Proof. reflexivity. Qed.

(** ** Results *)

Lemma bind_ok {A B : Type} (r : result A) (f : A -> result B) (b : B) :
  bind r f = Ok b -> exists a, r = Ok a /\ f a = Ok b.
Proof.
  destruct r as [a | e]; simpl; intros H.
  - exists a. split; [reflexivity | exact H].
  - discriminate H.
Qed.

Lemma mapM_length {A B : Type} (f : A -> result B) (l : list A) (ys : list B) :
  mapM f l = Ok ys -> length ys = length l.
Proof.
  revert ys. induction l as [| x l IH]; simpl; intros ys H.
  - injection H as <-. reflexivity.
  - apply bind_ok in H. destruct H as [y [_ H]].
    apply bind_ok in H. destruct H as [ys' [Hys H]].
    injection H as <-. simpl. f_equal. apply IH. exact Hys.
Qed.

Lemma mapM_nth {A B : Type} (f : A -> result B) (l : list A) (ys : list B)
  (i : nat) (x : A) :
  mapM f l = Ok ys -> nth_error l i = Some x ->
  exists y, nth_error ys i = Some y /\ f x = Ok y.
Proof.
  revert ys i. induction l as [| a l IH]; simpl; intros ys i H Hi.
  - destruct i; discriminate Hi.
  - apply bind_ok in H. destruct H as [y [Hy H]].
    apply bind_ok in H. destruct H as [ys' [Hys H]].
    injection H as <-. destruct i as [| i]; simpl in *.
    + injection Hi as ->. exists y. split; [reflexivity | exact Hy].
    + apply IH; assumption.
Qed.

(** ** C6: the three texts of the Python scheme *)

(** C6.  For the four-segment Python scheme, the text "3.4.1c1" gives
    the cooked tuple (3, 4, 1, ('c', 1)), "3.4.1+" gives
    (3, 4, 1, ('+', None)), the empty serial being read as absent, and
    "3.4.1" gives (3, 4, 1, None). *)
Theorem python_version_scenarios :
  (v <- Version.new PythonVersion [PStr (lit "3.4.1c1")] [] ;; Version.cooked v)
  = Ok (PTuple [PInt 3; PInt 4; PInt 1; PTuple [PStr (lit "c"); PInt 1]])
  /\
  (v <- Version.new PythonVersion [PStr (lit "3.4.1+")] [] ;; Version.cooked v)
  = Ok (PTuple [PInt 3; PInt 4; PInt 1; PTuple [PStr (lit "+"); PNone]])
  /\
  (v <- Version.new PythonVersion [PStr (lit "3.4.1")] [] ;; Version.cooked v)
  = Ok (PTuple [PInt 3; PInt 4; PInt 1; PNone]).
Proof. repeat split; vm_compute; reflexivity. Qed.

(** ** C7: validation of an absent value *)

(** C7.  Validating [None] fails, with the error that a value is
    required, exactly when the segment is not optional and has no
    default; otherwise [None] comes back as it is, no default put in
    its place. *)
Theorem validate_value_absent (d : SegmentDefinition.t) :
  SegmentDefinition.validate_value d PNone
  = (if SegmentDefinition.required d
     then Raise (ValueError ValueRequired) else Ok PNone)
  /\ ((exists e, SegmentDefinition.validate_value d PNone = Raise e)
      <-> (SegmentDefinition.optional d = false
           /\ SegmentDefinition.default d = PNone)).
Proof.
  unfold SegmentDefinition.validate_value, SegmentDefinition.required.
  simpl. destruct d as [o df sp fs nm]; simpl.
  destruct o; simpl.
  - split; [reflexivity |]. split.
    + intros [e H]. discriminate H.
    + intros [H _]. discriminate H.
  - destruct df; simpl; (split; [reflexivity |]); split;
      try (intros [e H]; discriminate H);
      try (intros [_ H]; discriminate H).
    + intros _. split; reflexivity.
    + intros _. eexists. reflexivity.
Qed.

(** ** C9: the default of a segment definition is validated *)

(** C9.  When the default given to [SegmentDefinition] is not [None]
    and fails validation against the fields, the constructor raises
    that error (after the error for duplicate field names, when there
    are some); a definition that is returned holds the validated
    default. *)
Theorem invalid_default_rejected (optional : bool) (default : pyval)
  (separator : pystr) (fields : list SegmentField.t) (name : option pystr) :
  default <> PNone ->
  (forall e,
     SegmentDefinition._validate_value default fields = Raise e ->
     SegmentDefinition.new optional default separator fields name
     = Raise (if has_duplicates (map SegmentField.name fields)
              then ValueError FieldNamesNotUnique else e))
  /\ (forall d,
        SegmentDefinition.new optional default separator fields name = Ok d ->
        SegmentDefinition._validate_value default fields
        = Ok (SegmentDefinition.default d)).
Proof.
  intros Hd.
  assert (Hn : is_none default = false).
  { destruct default; try reflexivity. contradiction Hd. reflexivity. }
  unfold SegmentDefinition.new. rewrite Hn. split.
  - intros e He. rewrite He.
    destruct (has_duplicates (map SegmentField.name fields)); reflexivity.
  - intros d H.
    destruct (has_duplicates (map SegmentField.name fields));
      [discriminate H |].
    simpl in H. apply bind_ok in H. destruct H as [df [Hdf H]].
    apply bind_ok in H. destruct H as [nm [_ H]].
    injection H as <-. exact Hdf.
Qed.

Lemma invalid_default_rejected_witness :
  SegmentDefinition.new false (PStr (lit "x")) DEFAULT_SEGMENT_SEPARATOR
    [DEFAULT_SEGMENT_FIELD] None
  = Raise (ValueError SegmentDoesNotMatch).
Proof.
  assert (H : PStr (lit "x") <> PNone) by discriminate.
  exact (proj1 (@invalid_default_rejected false (PStr (lit "x"))
                  DEFAULT_SEGMENT_SEPARATOR [DEFAULT_SEGMENT_FIELD] None H)
               (ValueError SegmentDoesNotMatch) eq_refl).
Defined.

(** ** Names and lookup *)

Lemma ascii_eqb_refl (a : ascii) : Ascii.eqb a a = true.
Proof. apply Ascii.eqb_eq. reflexivity. Qed.

Lemma str_eqb_eq (s t : pystr) : str_eqb s t = true <-> s = t.
Proof.
  revert t. induction s as [| a s IH]; intros [| b t]; simpl;
    split; intros H; try reflexivity; try discriminate H.
  - apply andb_true_iff in H. destruct H as [Hab Hst].
    apply Ascii.eqb_eq in Hab. apply IH in Hst. subst. reflexivity.
  - injection H as -> ->. rewrite ascii_eqb_refl. simpl.
    apply IH. reflexivity.
Qed.

Lemma str_eqb_refl (s : pystr) : str_eqb s s = true.
Proof. apply str_eqb_eq. reflexivity. Qed.


Lemma named_segments_in (defs : list SegmentDefinition.t) (n : nat) (k : pystr) :
  In (Some k) (map SegmentDefinition.name defs) ->
  In k (map fst (Version.named_segments defs n)).
Proof.
  revert n. induction defs as [| d ds IH]; simpl; intros n H.
  - contradiction.
  - destruct H as [H | H].
    + rewrite H. simpl. left. reflexivity.
    + destruct (SegmentDefinition.name d); simpl; [right |]; apply IH; exact H.
Qed.

Lemma get_re_ok (c : VersionClass) (defs : list SegmentDefinition.t) :
  Version._get_definitions c = Ok defs ->
  Version._get_re c
  = Ok (Cat Bol (Cat (cat_all (Version.re_segments [] defs 0)) Eol)).
Proof. intros H. unfold Version._get_re. rewrite H. reflexivity. Qed.

(** ** C10: a keyword argument next to a version text *)




(** ** C8: the number of positional values *)

Lemma nth_error_seq (start len i : nat) :
  (i < len)%nat -> nth_error (seq start len) i = Some (start + i)%nat.
Proof.
  revert start i. induction len as [| len IH]; intros start i H.
  - lia.
  - destruct i as [| i]; simpl.
    + f_equal. lia.
    + rewrite IH by lia. f_equal. lia.
Qed.

Lemma nth_error_padding (l : list pyval) (n i : nat) :
  (length l <= i)%nat -> (i < length l + n)%nat ->
  nth_error (l ++ repeat PNone n) i = Some PNone.
Proof.
  intros H1 H2. rewrite nth_error_app2 by exact H1.
  apply nth_error_repeat. lia.
Qed.

Lemma new_positional (c : VersionClass) (d : SegmentDefinition.t)
  (ds : list SegmentDefinition.t) (args : list pyval)
  (kwargs : list (pystr * pyval)) :
  Version._get_definitions c = Ok (d :: ds) ->
  positional args ->
  Version.new c args kwargs =
  (args <- (if (length (d :: ds) <? length args)%nat
            then Raise (ValueError TooManySegmentValues)
            else Ok (ArgList (args ++ repeat PNone (length (d :: ds)
                                                    - length args)))) ;;
   args <- Version.process_kwargs (rev (Version.named_segments (d :: ds) 0))
             kwargs args ;;
   let args := arg_values args in
   args <- mapM (fun i =>
                   d <- Version.definition_at (d :: ds) i ;;
                   x <- py_getitem (PTuple args) i ;;
                   SegmentDefinition.validate_value d x)
                (seq 0 (length args)) ;;
   validate c args ;;;
   Ok {| Version.cls := c; Version.items := args |}).
Proof.
  intros Hdefs Hpos. unfold Version.new. rewrite Hdefs. cbn [bind].
  destruct args as [| x [| y l]]; try reflexivity;
    destruct x; try reflexivity.
  contradiction (Hpos s). reflexivity.
Qed.

(** C8.  For a scheme with a table of segments, more positional values
    than segments raise the error of too many values; for the scheme
    without a table, no value at all raises the error that values are
    required; within the bound, the call is the call with [None] put in
    the missing trailing positions, and the version it returns has
    [None] there. *)
Theorem new_bounds (c : VersionClass) (defs : list SegmentDefinition.t)
  (args : list pyval) (kwargs : list (pystr * pyval)) :
  Version._get_definitions c = Ok defs ->
  (defs <> [] -> (length defs < length args)%nat ->
   Version.new c args kwargs = Raise (ValueError TooManySegmentValues))
  /\ (defs = [] -> args = [] ->
      Version.new c args kwargs = Raise (ValueError ValuesRequired))
  /\ (defs <> [] -> (length args <= length defs)%nat -> positional args ->
      Version.new c args kwargs
      = Version.new c (args ++ repeat PNone (length defs - length args)) kwargs
      /\ forall v,
           Version.new c args [] = Ok v ->
           length (Version.items v) = length defs
           /\ forall i, (length args <= i)%nat -> (i < length defs)%nat ->
                        nth_error (Version.items v) i = Some PNone).
Proof.
  intros Hdefs. split; [| split].
  - intros Hne Hlen. destruct defs as [| d ds]; [contradiction Hne; reflexivity |].
    rewrite (@new_positional c d ds args kwargs Hdefs).
    + apply Nat.ltb_lt in Hlen. rewrite Hlen. reflexivity.
    + intros s ->. simpl in Hlen. lia.
  - intros -> ->. unfold Version.new. rewrite Hdefs. reflexivity.
  - intros Hne Hlen Hpos.
    destruct defs as [| d ds]; [contradiction Hne; reflexivity |].
    set (n := length (d :: ds)) in *.
    assert (Hle : (n <? length args)%nat = false) by (apply Nat.ltb_ge; lia).
    split.
    + rewrite (@new_positional c d ds args kwargs Hdefs Hpos).
      rewrite (@new_positional c d ds (args ++ repeat PNone (n - length args))
                 kwargs Hdefs).
      * fold n. rewrite Hle.
        assert (Hlp : length (args ++ repeat PNone (n - length args)) = n)
          by (rewrite length_app, repeat_length; lia).
        rewrite Hlp, Nat.ltb_irrefl, Nat.sub_diag. simpl repeat.
        rewrite app_nil_r. reflexivity.
      * intros s Hs. destruct args as [| x [| y l]].
        -- simpl in Hs. subst n. simpl in Hs. discriminate Hs.
        -- simpl in Hs. injection Hs as Hx _. apply (Hpos s). rewrite Hx.
           reflexivity.
        -- simpl in Hs. discriminate Hs.
    + intros v Hv. rewrite (@new_positional c d ds args [] Hdefs Hpos) in Hv.
      fold n in Hv. rewrite Hle in Hv. cbn [bind Version.process_kwargs] in Hv.
      cbv zeta in Hv. cbn [arg_values] in Hv.
      apply bind_ok in Hv. destruct Hv as [ys [Hys Hv]].
      apply bind_ok in Hv. destruct Hv as [_ [_ Hv]].
      injection Hv as <-. cbn [Version.items].
      assert (Hlp : length (args ++ repeat PNone (n - length args)) = n)
        by (rewrite length_app, repeat_length; lia).
      pose proof (mapM_length _ _ Hys) as Hl.
      rewrite length_seq, Hlp in Hl. split; [exact Hl |].
      intros i Hi1 Hi2.
      destruct (mapM_nth _ _ i Hys (x := i)) as [y [Hy Hf]].
      { rewrite Hlp. rewrite nth_error_seq by exact Hi2. reflexivity. }
      rewrite Hy. f_equal.
      apply bind_ok in Hf. destruct Hf as [di [_ Hf]].
      unfold py_getitem in Hf.
      rewrite nth_error_padding in Hf by lia.
      cbn [bind] in Hf.
      unfold SegmentDefinition.validate_value in Hf. cbn [is_none] in Hf.
      destruct (negb (SegmentDefinition.optional di)
                && is_none (SegmentDefinition.default di));
        [discriminate Hf | injection Hf as <-; reflexivity].
Qed.

Lemma new_bounds_witness :
  Version.new PythonMinorVersion [PInt 3; PInt 4; PInt 1] []
  = Raise (ValueError TooManySegmentValues)
  /\ Version.new VersionBase [] [] = Raise (ValueError ValuesRequired)
  /\ Version.new PythonMicroVersion [PInt 3; PInt 4] []
     = Version.new PythonMicroVersion [PInt 3; PInt 4; PNone] [].
Proof.
  split; [| split].
  - apply (proj1 (@new_bounds PythonMinorVersion _ [PInt 3; PInt 4; PInt 1] []
                    eq_refl)).
    + discriminate.
    + simpl. lia.
  - apply (proj1 (proj2 (@new_bounds VersionBase _ [] [] eq_refl)));
      reflexivity.
  - apply (proj2 (proj2 (@new_bounds PythonMicroVersion _ [PInt 3; PInt 4] []
                           eq_refl))).
    + discriminate.
    + simpl. lia.
    + intros s. discriminate.
Defined.

(** ** Equality and order of values *)

Lemma pyval_induction (P : pyval -> Prop) :
  P PNone -> (forall z, P (PInt z)) -> (forall s, P (PStr s)) ->
  (forall l, Forall P l -> P (PTuple l)) ->
  forall v, P v.
Proof.
  intros Hn Hi Hs Ht.
  refine (fix IH (v : pyval) : P v :=
            match v with
            | PNone => Hn
            | PInt z => Hi z
            | PStr s => Hs s
            | PTuple l =>
                Ht l ((fix go (l : list pyval) : Forall P l :=
                         match l with
                         | [] => Forall_nil P
                         | x :: t => Forall_cons x (IH x) (go t)
                         end) l)
            end).
Qed.

Lemma py_eq_tuple_cons (x y : pyval) (l m : list pyval) :
  py_eq (PTuple (x :: l)) (PTuple (y :: m))
  = py_eq x y && py_eq (PTuple l) (PTuple m).
Proof. reflexivity. Qed.

Lemma py_lt_tuple_cons (x y : pyval) (l m : list pyval) :
  py_lt (PTuple (x :: l)) (PTuple (y :: m))
  = if py_eq x y then py_lt (PTuple l) (PTuple m) else py_lt x y.
Proof. reflexivity. Qed.

Lemma str_eqb_sym (s t : pystr) : str_eqb s t = str_eqb t s.
Proof.
  revert t. induction s as [| a s IH]; intros [| b t]; simpl; try reflexivity.
  rewrite Ascii.eqb_sym, IH. reflexivity.
Qed.

Lemma py_eq_sym (a b : pyval) : py_eq a b = py_eq b a.
Proof.
  revert b. induction a as [| z | s | l IH] using pyval_induction;
    intros [| z' | s' | m]; try reflexivity.
  - simpl. apply Z.eqb_sym.
  - simpl. apply str_eqb_sym.
  - revert m. induction IH as [| x l Hx _ IHl]; intros [| y m];
      try reflexivity.
    rewrite !py_eq_tuple_cons, Hx, IHl. reflexivity.
Qed.

Lemma py_eq_eq (a b : pyval) : py_eq a b = true <-> a = b.
Proof.
  revert b. induction a as [| z | s | l IH] using pyval_induction;
    intros [| z' | s' | m]; simpl; split; intros H;
    try reflexivity; try discriminate H.
  - apply Z.eqb_eq in H. subst. reflexivity.
  - injection H as ->. apply Z.eqb_refl.
  - apply str_eqb_eq in H. subst. reflexivity.
  - injection H as ->. apply str_eqb_refl.
  - f_equal. revert m H. induction IH as [| x l Hx _ IHl]; intros [| y m] H;
      try reflexivity; try discriminate H.
    apply andb_true_iff in H. destruct H as [H1 H2].
    apply Hx in H1. apply IHl in H2. subst. reflexivity.
  - injection H as <-. induction IH as [| x l Hx _ IHl]; [reflexivity |].
    apply andb_true_iff. split; [apply Hx; reflexivity | exact IHl].
Qed.

Lemma py_eq_refl (a : pyval) : py_eq a a = true.
Proof. apply py_eq_eq. reflexivity. Qed.

Lemma ascii_ltb_total (a b : ascii) :
  Ascii.eqb a b = false -> ascii_ltb a b = negb (ascii_ltb b a).
Proof.
  intros H. apply Ascii.eqb_neq in H. unfold ascii_ltb.
  assert (Hne : N_of_ascii a <> N_of_ascii b).
  { intros E. apply H. rewrite <- (ascii_N_embedding a), <- (ascii_N_embedding b).
    rewrite E. reflexivity. }
  destruct (N.ltb_spec (N_of_ascii a) (N_of_ascii b)) as [H1 | H1];
    destruct (N.ltb_spec (N_of_ascii b) (N_of_ascii a)) as [H2 | H2];
    simpl; try reflexivity; lia.
Qed.

Lemma str_ltb_total (s t : pystr) :
  str_eqb s t = false -> str_ltb s t = negb (str_ltb t s).
Proof.
  revert t. induction s as [| a s IH]; intros [| b t]; simpl; intros H;
    try reflexivity; try discriminate H.
  rewrite (Ascii.eqb_sym b a). destruct (Ascii.eqb a b) eqn:E.
  - apply IH. exact H.
  - apply ascii_ltb_total. exact E.
Qed.

Lemma py_lt_tuples (l : list pyval) :
  Forall (fun a => forall b, py_eq a b = false -> one_way_or_none a b) l ->
  forall m,
    (py_eq (PTuple l) (PTuple m) = true ->
     py_lt (PTuple l) (PTuple m) = Ok false
     /\ py_lt (PTuple m) (PTuple l) = Ok false)
    /\ (py_eq (PTuple l) (PTuple m) = false ->
        one_way_or_none (PTuple l) (PTuple m)).
Proof.
  induction 1 as [| x l Hx _ IHl]; intros [| y m].
  - split; [intros _; split; reflexivity | intros H; discriminate H].
  - split; [intros H; discriminate H |].
    intros _. left. split; reflexivity.
  - split; [intros H; discriminate H |].
    intros _. right. left. split; reflexivity.
  - rewrite py_eq_tuple_cons. unfold one_way_or_none.
    rewrite !py_lt_tuple_cons, (py_eq_sym y x).
    destruct (py_eq x y) eqn:E; simpl.
    + apply IHl.
    + split; [intros H; discriminate H |].
      intros _. apply Hx. exact E.
Qed.

Lemma py_lt_total (a b : pyval) : py_eq a b = false -> one_way_or_none a b.
Proof.
  revert b. induction a as [| z | s | l IH] using pyval_induction;
    intros [| z' | s' | m] H; try discriminate H;
    try (right; right; split; reflexivity).
  - simpl in H. apply Z.eqb_neq in H. unfold one_way_or_none. simpl.
    destruct (Z.ltb_spec z z') as [H1 | H1];
      destruct (Z.ltb_spec z' z) as [H2 | H2]; try lia.
    + left. split; reflexivity.
    + right. left. split; reflexivity.
  - simpl in H. unfold one_way_or_none. simpl.
    rewrite (str_ltb_total _ _ H).
    destruct (str_ltb s' s).
    + right. left. split; reflexivity.
    + left. split; reflexivity.
  - apply (py_lt_tuples IH). exact H.
Qed.

Lemma py_lt_all_int (l m : list pyval) :
  forallb is_int l = true -> forallb is_int m = true ->
  exists r, py_lt (PTuple l) (PTuple m) = Ok r.
Proof.
  revert m. induction l as [| x l IH]; intros [| y m] Hl Hm;
    try (eexists; reflexivity).
  simpl in Hl, Hm. apply andb_true_iff in Hl, Hm.
  destruct Hl as [Hx Hl], Hm as [Hy Hm].
  rewrite py_lt_tuple_cons. destruct (py_eq x y).
  - apply IH; assumption.
  - destruct x; try discriminate Hx. destruct y; try discriminate Hy.
    eexists. reflexivity.
Qed.

(** The first pair of items that differ decides. *)
Lemma py_lt_lexicographic (p l m : list pyval) (x y : pyval) :
  py_eq x y = false ->
  py_lt (PTuple (p ++ x :: l)) (PTuple (p ++ y :: m)) = py_lt x y.
Proof.
  intros H. induction p as [| z p IH]; simpl app.
  - rewrite py_lt_tuple_cons, H. reflexivity.
  - rewrite py_lt_tuple_cons, py_eq_refl. exact IH.
Qed.

Lemma py_lt_prefix (p m : list pyval) (y : pyval) :
  py_lt (PTuple p) (PTuple (p ++ y :: m)) = Ok true.
Proof.
  induction p as [| z p IH]; simpl app.
  - reflexivity.
  - rewrite py_lt_tuple_cons, py_eq_refl. exact IH.
Qed.

(** ** Cooked values *)

Lemma combine_firstn_length {A B : Type} (l : list A) (m : list B) :
  combine l (firstn (length l) m) = combine l m.
Proof.
  revert m. induction l as [| x l IH]; intros [| y m]; simpl;
    try reflexivity.
  rewrite IH. reflexivity.
Qed.

Lemma cooked_ok (v : Version.t) (defs : list SegmentDefinition.t) :
  Version._get_definitions (Version.cls v) = Ok defs ->
  Version.cooked v = Ok (PTuple (cooked_values v defs)).
Proof.
  intros H. unfold Version.cooked, Version.__getitem__,
    Version._get_segment_definition, Version.get_raw_item, cooked_values.
  rewrite H. cbn [bind]. rewrite Nat.sub_0_r. cbn [skipn].
  rewrite firstn_all. destruct defs as [| d ds]; cbn [bind].
  - reflexivity.
  - rewrite combine_firstn_length. reflexivity.
Qed.

(** ** C1: equality and order of two versions *)

(** C1 (amended).  Two versions of one scheme are compared by their
    full cooked tuples, the first segment first: the first pair of
    cooked values that differ decides [<], and a proper prefix is less.
    Exactly one of four cases holds: the two are equal; the first is
    less; the second is less; or they are not equal and [<] raises a
    type error in both directions.  When the cooked values of both are
    all integers the fourth case does not occur. *)
Theorem version_order (a b : Version.t) (defs : list SegmentDefinition.t) :
  Version._get_definitions (Version.cls a) = Ok defs ->
  Version.cls b = Version.cls a ->
  let ca := cooked_values a defs in
  let cb := cooked_values b defs in
  (__eq__ a (AVersion b) = Ok true <-> ca = cb)
  /\ (forall p l m x y,
        ca = p ++ x :: l -> cb = p ++ y :: m -> py_eq x y = false ->
        __lt__ a (AVersion b) = (r <- py_lt x y ;; Ok (Truth r)))
  /\ (forall y m, cb = ca ++ y :: m -> __lt__ a (AVersion b) = Ok (Truth true))
  /\ ((__eq__ a (AVersion b) = Ok true
       /\ __lt__ a (AVersion b) = Ok (Truth false)
       /\ __lt__ b (AVersion a) = Ok (Truth false))
      \/ (__eq__ a (AVersion b) = Ok false
          /\ __lt__ a (AVersion b) = Ok (Truth true)
          /\ __lt__ b (AVersion a) = Ok (Truth false))
      \/ (__eq__ a (AVersion b) = Ok false
          /\ __lt__ a (AVersion b) = Ok (Truth false)
          /\ __lt__ b (AVersion a) = Ok (Truth true))
      \/ (__eq__ a (AVersion b) = Ok false
          /\ __lt__ a (AVersion b) = Raise (TypeError NotOrderable)
          /\ __lt__ b (AVersion a) = Raise (TypeError NotOrderable)
          /\ (forallb is_int ca && forallb is_int cb = false))).
Proof.
  intros Ha Hcls ca cb.
  assert (Hb : Version._get_definitions (Version.cls b) = Ok defs)
    by (rewrite Hcls; exact Ha).
  assert (Heq : __eq__ a (AVersion b) = Ok (py_eq (PTuple ca) (PTuple cb))).
  { unfold __eq__. rewrite (cooked_ok a Ha), (cooked_ok b Hb). reflexivity. }
  assert (Hlt : __lt__ a (AVersion b)
                = (r <- py_lt (PTuple ca) (PTuple cb) ;; Ok (Truth r))).
  { unfold __lt__. rewrite (cooked_ok a Ha), (cooked_ok b Hb). reflexivity. }
  assert (Hgt : __lt__ b (AVersion a)
                = (r <- py_lt (PTuple cb) (PTuple ca) ;; Ok (Truth r))).
  { unfold __lt__. rewrite (cooked_ok a Ha), (cooked_ok b Hb). reflexivity. }
  rewrite Heq, Hlt, Hgt. split; [| split; [| split]].
  - split; intros H.
    + assert (E : py_eq (PTuple ca) (PTuple cb) = true)
        by (injection H; intros E; exact E).
      apply py_eq_eq in E. injection E as E. exact E.
    + rewrite H, py_eq_refl. reflexivity.
  - intros p l m x y -> -> Hxy. rewrite py_lt_lexicographic by exact Hxy.
    reflexivity.
  - intros y m ->. rewrite py_lt_prefix. reflexivity.
  - assert (Hall : Forall (fun u => forall w, py_eq u w = false ->
                                             one_way_or_none u w) ca).
    { apply Forall_forall. intros u _ w. apply py_lt_total. }
    destruct (py_lt_tuples Hall cb) as [He Hn].
    destruct (py_eq (PTuple ca) (PTuple cb)) eqn:E.
    + left. destruct (He eq_refl) as [H1 H2]. rewrite H1, H2.
      repeat split; reflexivity.
    + right. destruct (Hn eq_refl) as [[H1 H2] | [[H1 H2] | [H1 H2]]];
        rewrite H1, H2.
      * left. repeat split; reflexivity.
      * right. left. repeat split; reflexivity.
      * right. right. repeat split; try reflexivity.
        destruct (forallb is_int ca) eqn:Ia; [| reflexivity].
        destruct (forallb is_int cb) eqn:Ib; [| reflexivity].
        destruct (py_lt_all_int ca cb Ia Ib) as [r Hr].
        rewrite Hr in H1. discriminate H1.
Qed.

Lemma some_versions :
  Version.new PythonMicroVersion [PInt 3; PInt 4] [] = Ok python_3_4
  /\ Version.new PythonMicroVersion [PInt 3; PInt 4; PInt 1] [] = Ok python_3_4_1
  /\ Version.new PythonMicroVersion [PInt 3; PInt 4; PInt 2] [] = Ok python_3_4_2
  /\ Version.new VersionBase [PInt 3; PInt 4] [] = Ok version_3_4
  /\ Version.new VersionBase [PInt 3; PInt 4; PInt 1] [] = Ok version_3_4_1.
Proof. repeat split; vm_compute; reflexivity. Qed.

Lemma version_order_witness :
  __lt__ python_3_4_1 (AVersion python_3_4_2) = Ok (Truth true).
Proof.
  exact (proj1 (proj2 (@version_order python_3_4_1 python_3_4_2 _
                         eq_refl eq_refl))
               [PInt 3; PInt 4] [] [] (PInt 1) (PInt 2)
               eq_refl eq_refl eq_refl).
Defined.

(** C1 as stated fails: of [PythonMicroVersion(3, 4)] and
    [PythonMicroVersion(3, 4, 1)] neither is less than the other, and
    they are not equal; [<] raises a type error, the absent micro
    version being compared with 1. *)
Lemma version_order_counterexample :
  ~ (__lt__ python_3_4 (AVersion python_3_4_1) = Ok (Truth true)
     \/ __eq__ python_3_4 (AVersion python_3_4_1) = Ok true
     \/ __lt__ python_3_4_1 (AVersion python_3_4) = Ok (Truth true)).
Proof.
  intros [H | [H | H]]; vm_compute in H; discriminate H.
Qed.

(** ** C4 and C5: comparison with an operand of another type *)

(** C4 (amended).  For an operand that is not a version of any scheme,
    [==] and [<] first construct the operand's type from the version
    itself; only when that raises a type error or a value error do they
    construct it from the text of the version; what is constructed is
    then compared with the operand.  An operand that is a version, of
    whatever scheme, is not coerced by [==]: the two cooked tuples are
    compared. *)
Theorem foreign_comparison (v : Version.t) (T : pytype) (o : instance T) :
  (forall x,
     call T (OfVersion v) = Ok x ->
     __eq__ v (Foreign T o) = eq_op T x o
     /\ __lt__ v (Foreign T o) = (b <- lt_op T x o ;; Ok (Truth b)))
  /\ (forall e s x,
        call T (OfVersion v) = Raise e -> is_type_or_value_error e = true ->
        Version.__str__ v = Ok s -> call T (OfStr s) = Ok x ->
        __eq__ v (Foreign T o) = eq_op T x o
        /\ __lt__ v (Foreign T o) = (b <- lt_op T x o ;; Ok (Truth b)))
  /\ (forall e,
        call T (OfVersion v) = Raise e -> is_type_or_value_error e = false ->
        __eq__ v (Foreign T o) = Raise e /\ __lt__ v (Foreign T o) = Raise e)
  /\ __eq__ v (Foreign T o) = eq_by_coercion v T o
  /\ __lt__ v (Foreign T o) = lt_by_coercion v T o
  /\ (forall w,
        __eq__ v (AVersion w)
        = (a <- Version.cooked v ;; b <- Version.cooked w ;; Ok (py_eq a b))).
Proof.
  split; [| split; [| split; [| split; [| split]; reflexivity]]].
  - intros x Hx. unfold __eq__, __lt__, _coerce_to_type. rewrite Hx.
    split; reflexivity.
  - intros e s x He Hc Hs Hx. unfold __eq__, __lt__, _coerce_to_type.
    rewrite He. cbn [try_]. rewrite Hc. cbn [bind]. rewrite Hs. cbn [bind].
    rewrite Hx. split; reflexivity.
  - intros e He Hc. unfold __eq__, __lt__, _coerce_to_type.
    rewrite He. cbn [try_]. rewrite Hc. split; reflexivity.
Qed.

Lemma foreign_comparison_witness :
  __eq__ version_3_4 (Foreign tuple_type [PInt 3; PInt 4]) = Ok true
  /\ __lt__ version_3_4 (Foreign int_type 5) = Ok NotImplemented.
Proof.
  split.
  - exact (proj1 (proj1 (@foreign_comparison version_3_4 tuple_type
                           [PInt 3; PInt 4])
                        [PInt 3; PInt 4] eq_refl)).
  - rewrite (proj1 (proj2 (proj2 (proj2 (proj2
               (@foreign_comparison version_3_4 int_type 5)))))).
    vm_compute. reflexivity.
Defined.

(** C4 as stated fails for an operand that is a version of another
    scheme: [PythonMicroVersion(3, 4)] is not equal to [Version(3, 4)],
    their cooked tuples being (3, 4, None) and (3, 4), while [Version]
    constructed from the text "3.4" of the first is equal to the
    second. *)
Lemma foreign_comparison_counterexample :
  class_name (Version.cls version_3_4) <> class_name (Version.cls python_3_4)
  /\ __eq__ python_3_4 (AVersion version_3_4) = Ok false
  /\ eq_by_coercion python_3_4 (scheme_type (Version.cls version_3_4))
       version_3_4 = Ok true.
Proof.
  split; [discriminate |]. split; vm_compute; reflexivity.
Qed.




(** ** Raw items and the definitions of a version *)

Lemma get_raw_item_index (v : Version.t) (i : nat) :
  Version.get_raw_item v (Some (Index i))
  = py_getitem (PTuple (Version.items v)) i.
Proof. reflexivity. Qed.

Lemma get_segment_definition_index (v : Version.t)
  (defs : list SegmentDefinition.t) (i : nat) :
  Version._get_definitions (Version.cls v) = Ok defs ->
  Version._get_segment_definition v (Some (Index i))
  = (d <- Version.definition_at defs i ;; Ok (Version.One d)).
Proof.
  intros H. unfold Version._get_segment_definition, Version.definition_at.
  rewrite H. cbn [bind]. destruct defs as [| d ds]; [reflexivity |].
  destruct (nth_error (d :: ds) i); reflexivity.
Qed.

Lemma getitem_index (v : Version.t) (defs : list SegmentDefinition.t)
  (i : nat) (d : SegmentDefinition.t) (x : pyval) :
  Version._get_definitions (Version.cls v) = Ok defs ->
  Version.definition_at defs i = Ok d ->
  nth_error (Version.items v) i = Some x ->
  Version.__getitem__ v (Index i) = Ok (Version.get x d).
Proof.
  intros H Hd Hx. unfold Version.__getitem__.
  rewrite (get_segment_definition_index v i H), Hd. cbn [bind].
  rewrite get_raw_item_index. unfold py_getitem. rewrite Hx. reflexivity.
Qed.

Lemma any_raw_item_seq (v : Version.t) (n i : nat) :
  (i + n <= length (Version.items v))%nat ->
  Version.any_raw_item v (seq i n)
  = Ok (existsb (fun x => negb (is_none x))
                (firstn n (skipn i (Version.items v)))).
Proof.
  revert i. induction n as [| n IH]; intros i H; simpl.
  - reflexivity.
  - rewrite get_raw_item_index. unfold py_getitem.
    destruct (nth_error (Version.items v) i) as [x |] eqn:E.
    + apply nth_error_split in E. destruct E as [l1 [l2 [E1 E2]]].
      cbn [bind].
      assert (Hs : skipn i (Version.items v) = x :: l2).
      { rewrite E1. rewrite <- E2. rewrite skipn_app, skipn_all, Nat.sub_diag.
        reflexivity. }
      assert (Hs' : skipn (S i) (Version.items v) = l2).
      { rewrite E1. rewrite <- E2.
        replace (S (length l1)) with (length (l1 ++ [x]))
          by (rewrite length_app; simpl; lia).
        rewrite (app_assoc l1 [x] l2 : l1 ++ x :: l2 = (l1 ++ [x]) ++ l2).
        rewrite skipn_app, skipn_all, Nat.sub_diag. reflexivity. }
      rewrite Hs. cbn [firstn existsb].
      destruct (negb (is_none x)); [reflexivity |].
      cbn [orb]. rewrite IH by lia. rewrite Hs'. reflexivity.
    + apply nth_error_None in E. lia.
Qed.

Lemma max_seq (n : nat) : fold_right Nat.max 0%nat (seq 0 (S n)) = n.
Proof.
  assert (H : forall k s, fold_right Nat.max 0%nat (seq s (S k)) = (s + k)%nat).
  { induction k as [| k IH]; intros s.
    - simpl. lia.
    - change (seq s (S (S k))) with (s :: seq (S s) (S k)).
      cbn [fold_right]. rewrite IH. lia. }
  apply (H n 0%nat).
Qed.

Lemma index_in_seq (i n : nat) :
  (i < n)%nat -> existsb (Nat.eqb i) (seq 0 n) = true.
Proof.
  intros H. apply existsb_exists. exists i. split.
  - apply in_seq. lia.
  - apply Nat.eqb_refl.
Qed.

Lemma skipn_nth_error {A : Type} (l : list A) (i : nat) (x : A) :
  nth_error l i = Some x -> skipn i l = x :: skipn (S i) l.
Proof.
  revert i. induction l as [| a l IH]; intros [| i] H; try discriminate H.
  - injection H as ->. reflexivity.
  - simpl in H. apply IH in H. exact H.
Qed.

Lemma existsb_some_forallb_none (l : list pyval) :
  existsb (fun x => negb (is_none x)) l = negb (forallb is_none l).
Proof.
  induction l as [| x l IH]; simpl; [reflexivity |].
  rewrite IH. destruct (is_none x); reflexivity.
Qed.

(** The default-exclusion callback, in closed form. *)
Lemma exclude_defaults_callback_value (v : Version.t)
  (defs : list SegmentDefinition.t) (i : nat) (d : SegmentDefinition.t)
  (x : pyval) :
  Version._get_definitions (Version.cls v) = Ok defs ->
  Version.definition_at defs i = Ok d ->
  nth_error (Version.items v) i = Some x ->
  Version._render_exclude_defaults_callback v i None
  = Ok (SegmentDefinition.optional d && is_none x
        && forallb is_none (skipn (S i) (Version.items v))).
Proof.
  intros H Hd Hx. unfold Version._render_exclude_defaults_callback.
  assert (Hi : (i < length (Version.items v))%nat)
    by (apply nth_error_Some; rewrite Hx; discriminate).
  rewrite (index_in_seq Hi).
  destruct (length (Version.items v)) as [| n] eqn:Hn; [lia |].
  rewrite max_seq, <- Hn.
  rewrite any_raw_item_seq by lia.
  rewrite firstn_all2 by (rewrite length_skipn; lia).
  rewrite (skipn_nth_error _ _ Hx), existsb_some_forallb_none.
  cbn [forallb bind].
  rewrite (get_segment_definition_index v i H), Hd. cbn [bind].
  rewrite get_raw_item_index. unfold py_getitem. rewrite Hx. cbn [bind].
  destruct (is_none x); destruct (forallb is_none _);
    destruct (SegmentDefinition.optional d); reflexivity.
Qed.

(** ** The loop of [render] *)

Lemma render_loop_app (v : Version.t) (defs : list SegmentDefinition.t)
  (inc exc : list Version.callback) (l1 l2 : list nat) (acc : pystr) :
  Version.render_loop v defs inc exc (l1 ++ l2) acc
  = (acc' <- Version.render_loop v defs inc exc l1 acc ;;
     Version.render_loop v defs inc exc l2 acc').
Proof.
  revert acc. induction l1 as [| i l1 IH]; intros acc; simpl.
  - reflexivity.
  - destruct (Version.render_segment v defs inc exc acc i); simpl.
    + apply IH.
    + reflexivity.
Qed.

Lemma render_loop_skips (v : Version.t) (defs : list SegmentDefinition.t)
  (inc exc : list Version.callback) (l : list nat) (acc : pystr) :
  (forall i, In i l -> Version.render_segment v defs inc exc acc i = Ok acc) ->
  Version.render_loop v defs inc exc l acc = Ok acc.
Proof.
  induction l as [| i l IH]; intros H; simpl.
  - reflexivity.
  - rewrite (H i) by (left; reflexivity). cbn [bind].
    apply IH. intros j Hj. apply H. right. exact Hj.
Qed.

Lemma render_default (v : Version.t) (defs : list SegmentDefinition.t) :
  Version._get_definitions (Version.cls v) = Ok defs ->
  defs <> [] ->
  Version.render v true [] []
  = Version.render_loop v defs [] default_exclude_callbacks
      (seq 0 (length (Version.items v))) [].
Proof.
  intros H Hne. unfold Version.render, Version._get_segment_definition.
  rewrite H. cbn [bind]. destruct defs as [| d ds]; [contradiction Hne; reflexivity |].
  reflexivity.
Qed.

Lemma definition_at_nth (defs : list SegmentDefinition.t) (i : nat)
  (d : SegmentDefinition.t) :
  nth_error defs i = Some d -> Version.definition_at defs i = Ok d.
Proof.
  intros H. unfold Version.definition_at. rewrite H.
  destruct defs; [destruct i; discriminate H | reflexivity].
Qed.

(** A segment that is optional and unset, with nothing set after it,
    adds nothing to the text. *)
Lemma render_segment_trailing (v : Version.t) (defs : list SegmentDefinition.t)
  (i : nat) (d : SegmentDefinition.t) (acc : pystr) :
  Version._get_definitions (Version.cls v) = Ok defs ->
  nth_error defs i = Some d ->
  nth_error (Version.items v) i = Some PNone ->
  SegmentDefinition.optional d = true ->
  forallb is_none (skipn (S i) (Version.items v)) = true ->
  Version.render_segment v defs [] default_exclude_callbacks acc i = Ok acc.
Proof.
  intros H Hd Hx Ho Hrest. unfold Version.render_segment.
  rewrite Hd. cbn [bind].
  rewrite (getitem_index v i H (definition_at_nth _ _ Hd) Hx). cbn [bind].
  rewrite Ho. cbn [andb].
  destruct (is_none (Version.get PNone d)); [reflexivity |].
  unfold default_exclude_callbacks. cbn [Version.some_affirmative bind negb].
  rewrite (exclude_defaults_callback_value v i H (definition_at_nth _ _ Hd) Hx).
  rewrite Ho, Hrest. reflexivity.
Qed.

(** ** C3: the default-exclusion callback *)

(** C3, X1.  Under the default policy the built-in callback excludes
    segment [i] exactly when the segment is optional, its raw value is
    unset and no later segment has a raw value.  So, for a scheme with
    a table: when every segment from position [n] on is optional and
    unset, the text is that of the segments before [n] alone; and an
    optional segment that is unset and has a default, with a later
    segment set, is rendered with its default, after its separator
    when the text so far is not empty. *)
Theorem exclude_defaults (v : Version.t) (defs : list SegmentDefinition.t) :
  Version._get_definitions (Version.cls v) = Ok defs ->
  (forall i d x,
     Version.definition_at defs i = Ok d ->
     nth_error (Version.items v) i = Some x ->
     Version._render_exclude_defaults_callback v i None
     = Ok (SegmentDefinition.optional d && is_none x
           && forallb is_none (skipn (S i) (Version.items v))))
  /\ (forall n,
        defs <> [] ->
        length defs = length (Version.items v) ->
        (n <= length (Version.items v))%nat ->
        (forall j d, (n <= j)%nat -> nth_error defs j = Some d ->
                     SegmentDefinition.optional d = true
                     /\ nth_error (Version.items v) j = Some PNone) ->
        Version.render v true [] []
        = Version.render_loop v defs [] default_exclude_callbacks (seq 0 n) [])
  /\ (forall i j d y acc,
        nth_error defs i = Some d ->
        nth_error (Version.items v) i = Some PNone ->
        SegmentDefinition.optional d = true ->
        SegmentDefinition.default d <> PNone ->
        (i < j)%nat -> nth_error (Version.items v) j = Some y -> y <> PNone ->
        Version.render_segment v defs [] default_exclude_callbacks acc i
        = (text <- SegmentDefinition.render d (SegmentDefinition.default d) ;;
           Ok ((if (0 <? length acc)%nat
                then acc ++ SegmentDefinition.separator d else acc) ++ text))).
Proof.
  intros H. split; [| split].
  - intros i d x Hd Hx. apply (exclude_defaults_callback_value v i H Hd Hx).
  - intros n Hne Hlen Hn Htrail.
    rewrite (render_default v H Hne).
    { replace (length (Version.items v))
        with (n + (length (Version.items v) - n))%nat at 1 by lia.
      rewrite seq_app, render_loop_app.
      destruct (Version.render_loop v defs [] default_exclude_callbacks
                  (seq 0 n) []) as [acc | e]; cbn [bind]; [| reflexivity].
      apply render_loop_skips. intros i Hi. apply in_seq in Hi.
      destruct (nth_error defs i) as [d |] eqn:Hd;
        [| apply nth_error_None in Hd; lia].
      destruct (Htrail i d (proj1 Hi) Hd) as [Ho Hx].
      apply (render_segment_trailing v i acc H Hd Hx Ho).
      apply forallb_forall. intros y Hy.
      apply In_nth_error in Hy. destruct Hy as [k Hk].
      rewrite nth_error_skipn in Hk.
      destruct (nth_error defs (S i + k)) as [d' |] eqn:Hd'.
      * destruct (Htrail (S i + k)%nat d' ltac:(lia) Hd') as [_ Hx'].
        rewrite Hx' in Hk. injection Hk as <-. reflexivity.
      * apply nth_error_None in Hd'.
        assert (Hlt : (S i + k < length (Version.items v))%nat)
          by (apply nth_error_Some; rewrite Hk; discriminate).
        lia. }
  - intros i j d y acc Hd Hx Ho Hdf Hij Hy Hyn.
    unfold Version.render_segment. rewrite Hd. cbn [bind].
    rewrite (getitem_index v i H (definition_at_nth _ _ Hd) Hx). cbn [bind].
    unfold Version.get at 1. cbn [is_none].
    assert (Hdn : is_none (SegmentDefinition.default d) = false).
    { destruct (SegmentDefinition.default d); try reflexivity.
      contradiction Hdf. reflexivity. }
    rewrite Hdn, andb_false_r.
    unfold default_exclude_callbacks. cbn [Version.some_affirmative bind negb].
    rewrite (exclude_defaults_callback_value v i H (definition_at_nth _ _ Hd) Hx).
    assert (Hrest : forallb is_none (skipn (S i) (Version.items v)) = false).
    { destruct (forallb is_none (skipn (S i) (Version.items v))) eqn:E;
        [| reflexivity].
      rewrite forallb_forall in E.
      assert (Hin : In y (skipn (S i) (Version.items v))).
      { apply (nth_error_In _ (j - S i)). rewrite nth_error_skipn.
        replace (S i + (j - S i))%nat with j by lia. exact Hy. }
      apply E in Hin. destruct y; try discriminate Hin.
      contradiction Hyn. reflexivity. }
    rewrite Hrest, andb_false_r. cbn [bind orb negb].
    unfold Version.get. cbn [is_none]. reflexivity.
Qed.

Lemma exclude_defaults_witness :
  Version.new PaddedVersion [PInt 3] [] = Ok padded_3
  /\ Version.new PaddedVersion [PInt 3; PNone; PInt 1] [] = Ok padded_3_x_1
  /\ Version._render_exclude_defaults_callback padded_3 1 None = Ok true
  /\ Version.render padded_3 true [] [] = Ok (lit "3")
  /\ Version.render_segment padded_3_x_1 (SEGMENT_DEFINITIONS PaddedVersion)
       [] default_exclude_callbacks (lit "3") 1 = Ok (lit "3.0").
Proof.
  split; [reflexivity |].
  split; [reflexivity |].
  pose proof (@exclude_defaults padded_3 (SEGMENT_DEFINITIONS PaddedVersion)
                eq_refl) as [Ha [Hb _]].
  pose proof (@exclude_defaults padded_3_x_1 (SEGMENT_DEFINITIONS PaddedVersion)
                eq_refl) as [_ [_ Hc]].
  split; [| split].
  - exact (Ha 1%nat _ PNone eq_refl eq_refl).
  - rewrite (Hb 1%nat).
    + vm_compute. reflexivity.
    + discriminate.
    + reflexivity.
    + simpl. lia.
    + intros j d Hj Hd.
      destruct j as [| [| [| j]]]; [lia | | |]; simpl in Hd.
      * injection Hd as <-. split; reflexivity.
      * injection Hd as <-. split; reflexivity.
      * destruct j; discriminate Hd.
  - rewrite (Hc 1%nat 2%nat _ (PInt 1) (lit "3") eq_refl eq_refl eq_refl).
    + vm_compute. reflexivity.
    + discriminate.
    + lia.
    + reflexivity.
    + discriminate.
Defined.

(** ** Decimal text *)

Lemma digit_char_facts (d : Z) :
  0 <= d < 10 ->
  is_digit (digit_char d) = true
  /\ digit_value (digit_char d) = d
  /\ (0 < d -> in_class (range "1" "9") (digit_char d) = true)
  /\ (d = 0 -> digit_char d = "0"%char).
Proof.
  intros H.
  assert (E : d = 0 \/ d = 1 \/ d = 2 \/ d = 3 \/ d = 4 \/ d = 5 \/ d = 6
              \/ d = 7 \/ d = 8 \/ d = 9) by lia.
  repeat (destruct E as [E | E]; [subst d; repeat split; intros; try reflexivity; lia |]).
  subst d. repeat split; intros; try reflexivity; lia.
Qed.

Lemma dec_digits_step (f : nat) (n : Z) (acc : pystr) :
  dec_digits (S f) n acc
  = if n / 10 =? 0 then digit_char (n mod 10) :: acc
    else dec_digits f (n / 10) (digit_char (n mod 10) :: acc).
Proof. reflexivity. Qed.

Lemma dec_digits_spec (f : nat) (n : Z) (acc : pystr) :
  0 <= n < 2 ^ Z.of_nat (S f) ->
  exists ds, dec_digits (S f) n acc = ds ++ acc /\ is_decimal n ds.
Proof.
  revert n acc. induction f as [| f IH]; intros n acc Hn.
  - (* one digit *)
    change (2 ^ Z.of_nat 1) with 2 in Hn.
    assert (Hq : n / 10 = 0) by (apply Z.div_small; lia).
    assert (Hm : n mod 10 = n) by (apply Z.mod_small; lia).
    cbn [dec_digits]. rewrite Hq, Hm. cbn [Z.eqb].
    destruct (@digit_char_facts n ltac:(lia)) as [D1 [D2 [D3 D4]]].
    exists [digit_char n]. split; [reflexivity |]. split; [| split].
    + constructor; [exact D1 | constructor].
    + intros a rest. cbn [app digits_value length]. rewrite D1, D2.
      f_equal; try (change (Z.of_nat 1) with 1; lia).
    + exists (digit_char n), []. split; [reflexivity |]. split.
      * exact D3.
      * intros E. split; [apply D4; exact E | reflexivity].
  - rewrite dec_digits_step.
    assert (Hp : 0 < 2 ^ Z.of_nat (S f)) by (apply Z.pow_pos_nonneg; lia).
    assert (Hs : 2 ^ Z.of_nat (S (S f)) = 2 * 2 ^ Z.of_nat (S f)).
    { rewrite (Nat2Z.inj_succ (S f)). apply Z.pow_succ_r. lia. }
    destruct (Z.eqb_spec (n / 10) 0) as [Hq | Hq].
    + assert (Hlt : n < 10).
      { destruct (Z.lt_ge_cases n 10) as [L | L]; [exact L |].
        assert (1 <= n / 10) by (apply Z.div_le_lower_bound; lia). lia. }
      assert (Hm : n mod 10 = n) by (apply Z.mod_small; lia).
      rewrite Hm.
      destruct (@digit_char_facts n ltac:(lia)) as [D1 [D2 [D3 D4]]].
      exists [digit_char n]. split; [reflexivity |]. split; [| split].
      * constructor; [exact D1 | constructor].
      * intros a rest. cbn [app digits_value length]. rewrite D1, D2.
        f_equal; try (change (Z.of_nat 1) with 1; lia).
      * exists (digit_char n), []. split; [reflexivity |]. split.
        -- exact D3.
        -- intros E. split; [apply D4; exact E | reflexivity].
    + assert (Hq0 : 0 <= n / 10) by (apply Z.div_pos; lia).
      assert (Hqlt : n / 10 < 2 ^ Z.of_nat (S f))
        by (apply Z.div_lt_upper_bound; lia).
      destruct (IH (n / 10) (digit_char (n mod 10) :: acc) (conj Hq0 Hqlt))
        as [ds [Hds [F [V [c [t [Hc [Hnz Hz]]]]]]]].
      assert (Hmod : 0 <= n mod 10 < 10) by (apply Z.mod_pos_bound; lia).
      destruct (digit_char_facts Hmod) as [D1 [D2 _]].
      exists (ds ++ [digit_char (n mod 10)]). split; [| split; [| split]].
      * rewrite Hds, <- app_assoc. reflexivity.
      * apply Forall_app. split; [exact F |].
        constructor; [exact D1 | constructor].
      * intros a rest. rewrite <- app_assoc. cbn [app].
        rewrite V. cbn [digits_value]. rewrite D1, D2. f_equal.
        rewrite length_app. cbn [length].
        rewrite Nat2Z.inj_add. change (Z.of_nat 1) with 1.
        rewrite Z.pow_add_r by lia. rewrite Z.pow_1_r.
        pose proof (Z.div_mod n 10 ltac:(lia)) as Hdm. lia.
      * exists c, (t ++ [digit_char (n mod 10)]). split.
        -- rewrite Hc. reflexivity.
        -- split.
           ++ intros _. apply Hnz. lia.
           ++ intros E. subst n. exfalso. apply Hq. reflexivity.
Qed.

Lemma dec_of_nonneg_spec (n : Z) : 0 <= n -> is_decimal n (dec_of_nonneg n).
Proof.
  intros Hn. unfold dec_of_nonneg.
  destruct (@dec_digits_spec (Z.to_nat (Z.log2 n)) n []) as [ds [Hds Hdec]].
  - split; [exact Hn |].
    rewrite Nat2Z.inj_succ, Z2Nat.id by apply Z.log2_nonneg.
    destruct (Z.eq_dec n 0) as [-> | Hnz]; [reflexivity |].
    apply Z.log2_spec. lia.
  - rewrite Hds, app_nil_r. exact Hdec.
Qed.

Lemma str_of_int_nonneg (n : Z) : 0 <= n -> str_of_int n = dec_of_nonneg n.
Proof.
  intros H. unfold str_of_int.
  destruct (Z.ltb_spec n 0); [lia | reflexivity].
Qed.

(** [int] of text that starts with a digit takes no sign. *)
Lemma int_of_str_digits (c : ascii) (t : pystr) :
  is_digit c = true ->
  int_of_str (c :: t)
  = match digits_value 0 (c :: t) with
    | Some n => Ok n
    | None => Raise (ValueError InvalidLiteralForInt)
    end.
Proof.
  intros H.
  destruct c as [[] [] [] [] [] [] [] []]; try discriminate H; reflexivity.
Qed.

Lemma int_of_str_decimal (n : Z) :
  0 <= n -> int_of_str (str_of_int n) = Ok n.
Proof.
  intros Hn. rewrite (str_of_int_nonneg Hn).
  destruct (dec_of_nonneg_spec Hn) as [F [V [c [t [Hc _]]]]].
  rewrite Hc in *. rewrite int_of_str_digits by (inversion F; assumption).
  specialize (V 0 []). rewrite app_nil_r in V. rewrite V. reflexivity.
Qed.

Lemma digits_value_digits (s : pystr) (a : Z) :
  Forall (fun c => is_digit c = true) s -> 0 <= a ->
  exists n, digits_value a s = Some n /\ 0 <= n.
Proof.
  intros F. revert a. induction F as [| c s Hc _ IH]; intros a Ha.
  - exists a. split; [reflexivity | exact Ha].
  - cbn [digits_value]. rewrite Hc. apply IH.
    unfold is_digit in Hc. apply andb_true_iff in Hc. destruct Hc as [H1 _].
    apply N.leb_le in H1. unfold digit_value. lia.
Qed.

(** ** Matching digits *)

Lemma in_class_digit (c : ascii) : in_class (range "0" "9") c = is_digit c.
Proof.
  unfold in_class, range, in_range, is_digit. cbn. rewrite orb_false_r.
  reflexivity.
Qed.

Lemma nonzero_digit (c : ascii) :
  in_class (range "1" "9") c = true ->
  is_digit c = true /\ Ascii.eqb "0" c = false.
Proof.
  intros H.
  destruct c as [[] [] [] [] [] [] [] []]; try discriminate H;
    split; reflexivity.
Qed.

Lemma rmatch_cls (cc : charclass) (st : mstate) (k : mstate -> option mstate) :
  rmatch (Cls cc) st k
  = match ahead st with
    | c :: _ => if in_class cc c then k (advance st) else None
    | [] => None
    end.
Proof. reflexivity. Qed.

Lemma star_rounds_step (body : mstate -> (mstate -> option mstate) -> option mstate)
  (k : mstate -> option mstate) (n : nat) (st : mstate) :
  star_rounds body k (S n) st
  = or_else
      (body st (fun st' =>
                  if (length (ahead st') <? length (ahead st))%nat
                  then star_rounds body k n st' else None))
      (k st).
Proof. reflexivity. Qed.

Lemma consume_nil (st : mstate) : consume [] (ahead st) st = st.
Proof. destruct st; reflexivity. Qed.

Lemma consume_cons (c : ascii) (ds rest : pystr) (st : mstate) :
  ahead st = c :: ds ++ rest ->
  consume ds rest (advance st) = consume (c :: ds) rest st.
Proof.
  intros H. unfold consume, advance. rewrite H. cbn.
  rewrite <- app_assoc. reflexivity.
Qed.

(** A repetition of one class takes all the characters of the class
    ahead, when the rest of the pattern matches after them. *)
Lemma star_class_greedy (cc : charclass) (k : mstate -> option mstate)
  (r : mstate) (ds rest : pystr) :
  forall (n : nat) (st : mstate),
    ahead st = ds ++ rest ->
    forallb (in_class cc) ds = true ->
    (length ds <= n)%nat ->
    k (consume ds rest st) = Some r ->
    (forall c t, rest = c :: t -> in_class cc c = false) ->
    star_rounds (rmatch (Cls cc)) k n st = Some r.
Proof.
  induction ds as [| c ds IH]; intros n st Ha Hds Hn Hk Hrest.
  - cbn [app] in Ha. rewrite <- Ha, consume_nil in Hk.
    destruct n as [| n]; [exact Hk |].
    rewrite star_rounds_step, rmatch_cls.
    destruct (ahead st) as [| c t] eqn:E.
    + exact Hk.
    + rewrite (Hrest c t (eq_sym Ha)). exact Hk.
  - destruct n as [| n]; [simpl in Hn; lia |].
    cbn [forallb] in Hds. apply andb_true_iff in Hds. destruct Hds as [Hc Hds].
    rewrite star_rounds_step, rmatch_cls. cbn [app] in Ha. rewrite Ha, Hc.
    assert (Hadv : ahead (advance st) = ds ++ rest)
      by (unfold advance; rewrite Ha; reflexivity).
    rewrite Hadv.
    assert (Hlt : (length (ds ++ rest) <? length (c :: ds ++ rest))%nat = true)
      by (apply Nat.ltb_lt; simpl; lia).
    rewrite Hlt.
    rewrite (IH n (advance st) Hadv Hds); [reflexivity | simpl in Hn; lia | | exact Hrest].
    rewrite (@consume_cons c ds rest st Ha). exact Hk.
Qed.

(** What a repetition of one class took, when the match succeeded. *)
Lemma star_class_sound (cc : charclass) (k : mstate -> option mstate)
  (r : mstate) :
  forall (n : nat) (st : mstate),
    star_rounds (rmatch (Cls cc)) k n st = Some r ->
    exists ds rest,
      ahead st = ds ++ rest
      /\ forallb (in_class cc) ds = true
      /\ k (consume ds rest st) = Some r.
Proof.
  induction n as [| n IH]; intros st H.
  - exists [], (ahead st). rewrite consume_nil.
    repeat split; try reflexivity. exact H.
  - rewrite star_rounds_step, rmatch_cls in H.
    assert (Hstop : k st = Some r ->
                    exists ds rest,
                      ahead st = ds ++ rest
                      /\ forallb (in_class cc) ds = true
                      /\ k (consume ds rest st) = Some r).
    { intros Hk. exists [], (ahead st). rewrite consume_nil.
      repeat split; try reflexivity. exact Hk. }
    destruct (ahead st) as [| c t] eqn:Ha; [apply Hstop; exact H |].
    destruct (in_class cc c) eqn:Hc; [| apply Hstop; exact H].
    assert (Hadv : ahead (advance st) = t)
      by (unfold advance; rewrite Ha; reflexivity).
    rewrite Hadv in H.
    destruct ((length t <? length (c :: t))%nat);
      [| apply Hstop; exact H].
    destruct (star_rounds (rmatch (Cls cc)) k n (advance st)) as [r' |] eqn:E;
      [| apply Hstop; exact H].
    cbn [or_else] in H. injection H as ->.
    destruct (IH (advance st) E) as [ds [rest [H1 [H2 H3]]]].
    rewrite Hadv in H1.
    exists (c :: ds), rest. split; [rewrite H1; reflexivity |].
    split; [cbn [forallb]; rewrite Hc, H2; reflexivity |].
    rewrite <- (@consume_cons c ds rest st); [exact H3 |].
    rewrite Ha, H1. reflexivity.
Qed.

(** ** The default pattern *)

Lemma or_else_some {A : Type} (a b : option A) (r : A) :
  or_else a b = Some r -> a = Some r \/ b = Some r.
Proof. destruct a; simpl; intros H; [left | right]; exact H. Qed.

Lemma rmatch_default_pattern (st : mstate) (k : mstate -> option mstate) :
  rmatch DEFAULT_RE_PATTERN st k
  = or_else
      (match match_literal (lit "0") st with
       | Some st' => k st'
       | None => None
       end)
      (match ahead st with
       | c :: _ =>
           if in_class (range "1" "9") c
           then star_rounds (rmatch (Cls (range "0" "9"))) k
                  (length (ahead (advance st))) (advance st)
           else None
       | [] => None
       end).
Proof. reflexivity. Qed.

Lemma re_match_default (s : pystr) :
  re_match DEFAULT_VALUE_PATTERN s
  = match rmatch DEFAULT_RE_PATTERN (initial s)
            (fun st' => rmatch Eol (capture (lit "value") (initial s) st')
                          (fun st => Some st)) with
    | Some st => Some (captured st)
    | None => None
    end.
Proof. reflexivity. Qed.

Lemma rmatch_eol_some (st r : mstate) :
  rmatch Eol st (fun st => Some st) = Some r -> r = st.
Proof.
  cbn [rmatch]. destruct (ahead st) as [| c [| c' t]]; intros H.
  - injection H as <-. reflexivity.
  - destruct (Ascii.eqb c "010"%char); [| discriminate H].
    injection H as <-. reflexivity.
  - discriminate H.
Qed.

Lemma firstn_consumed (ds rest : pystr) :
  firstn (length (ds ++ rest) - length rest) (ds ++ rest) = ds.
Proof.
  rewrite length_app.
  replace (length ds + length rest - length rest)%nat with (length ds) by lia.
  rewrite firstn_app, Nat.sub_diag, firstn_all. cbn [firstn].
  apply app_nil_r.
Qed.

(** The default pattern matches the decimal text of a number, which is
    then the value of the group. *)
Lemma default_pattern_decimal (n : Z) (s : pystr) :
  is_decimal n s ->
  0 <= n ->
  re_match DEFAULT_VALUE_PATTERN s = Some [(lit "value", s)].
Proof.
  intros [F [_ [c [t [Hs [Hnz Hz]]]]]] Hn.
  destruct (Z.eq_dec n 0) as [E | E].
  - destruct (Hz E) as [-> ->]. subst s. reflexivity.
  - subst s. destruct (nonzero_digit c (Hnz ltac:(lia))) as [_ Hc0].
    rewrite re_match_default, rmatch_default_pattern.
    cbn [match_literal lit list_ascii_of_string initial ahead].
    rewrite Hc0. cbn [or_else]. rewrite (Hnz ltac:(lia)).
    inversion F as [| c' t' _ Ft]; subst.
    rewrite (@star_class_greedy (range "0" "9") _
               (capture (lit "value") (initial (c :: t))
                  (consume t [] (advance (initial (c :: t))))) t []).
    + unfold capture. cbn [captured ahead initial consume length].
      rewrite Nat.sub_0_r.
      change (S (length t)) with (length (c :: t)). rewrite firstn_all.
      reflexivity.
    + cbn. rewrite app_nil_r. reflexivity.
    + apply forallb_forall. intros x Hx. rewrite in_class_digit.
      rewrite Forall_forall in Ft. apply Ft. exact Hx.
    + cbn. lia.
    + reflexivity.
    + intros c0 t0 H. discriminate H.
Qed.

(** What the default pattern matched is one group of digits, at least
    one. *)
Lemma default_pattern_sound (s : pystr) (m : match_object) :
  re_match DEFAULT_VALUE_PATTERN s = Some m ->
  exists c t,
    m = [(lit "value", c :: t)]
    /\ Forall (fun x => is_digit x = true) (c :: t).
Proof.
  rewrite re_match_default, rmatch_default_pattern. intros H.
  destruct (or_else _ _) as [st |] eqn:E; [| discriminate H].
  injection H as <-.
  apply or_else_some in E. destruct E as [E | E].
  - (* the zero *)
    cbn [match_literal lit list_ascii_of_string initial ahead] in E.
    destruct s as [| c t]; [discriminate E |].
    destruct (Ascii.eqb "0" c) eqn:Hc; [| discriminate E].
    apply Ascii.eqb_eq in Hc. subst c.
    apply rmatch_eol_some in E. subst st.
    exists "0"%char, []. split.
    + unfold capture, advance, initial. cbn [ahead captured length].
      replace (S (length t) - length t)%nat with 1%nat by lia.
      reflexivity.
    + constructor; [reflexivity | constructor].
  - cbn [initial ahead] in E.
    destruct s as [| c t]; [discriminate E |].
    destruct (in_class (range "1" "9") c) eqn:Hc; [| discriminate E].
    apply star_class_sound in E.
    destruct E as [ds [rest [H1 [H2 H3]]]].
    apply rmatch_eol_some in H3. subst st.
    cbn [advance initial ahead] in H1. subst t.
    exists c, ds. split.
    + unfold capture, consume. cbn [ahead captured initial].
      change (c :: ds ++ rest) with ((c :: ds) ++ rest).
      rewrite firstn_consumed. reflexivity.
    + constructor; [apply (nonzero_digit c Hc) |].
      apply Forall_forall. intros x Hx.
      rewrite forallb_forall in H2. rewrite <- in_class_digit.
      apply H2. exact Hx.
Qed.

(** ** Validation by the default segment definition *)

(** What [_validate_value] does with one default field once the text
    of the value is known. *)
Lemma validate_text_default (s : pystr) :
  SegmentDefinition._validate_value (PStr s) [DEFAULT_SEGMENT_FIELD]
  = match re_match DEFAULT_VALUE_PATTERN s with
    | None => Raise (ValueError SegmentDoesNotMatch)
    | Some m =>
        result <- mapM (fun x =>
                          let g := group m (SegmentField.name x) in
                          if py_eq g (PStr [])
                             && negb (is_str_type (SegmentField.type x))
                          then Ok PNone
                          else call_type (SegmentField.type x) g)
                       [DEFAULT_SEGMENT_FIELD] ;;
        py_getitem (PTuple result) 0
    end.
Proof. reflexivity. Qed.

Lemma validate_value_default (value : pyval) (r : pyval) :
  SegmentDefinition._validate_value value [DEFAULT_SEGMENT_FIELD] = Ok r ->
  exists s, SegmentDefinition._validate_value (PStr s) [DEFAULT_SEGMENT_FIELD]
            = Ok r.
Proof.
  intros H. destruct value as [| z | s | l].
  - unfold SegmentDefinition._validate_value in H.
    apply bind_ok in H. destruct H as [s [_ H]]. exists s. exact H.
  - unfold SegmentDefinition._validate_value in H.
    apply bind_ok in H. destruct H as [s [_ H]]. exists s. exact H.
  - exists s. exact H.
  - unfold SegmentDefinition._validate_value in H.
    apply bind_ok in H. destruct H as [s [_ H]]. exists s. exact H.
Qed.

Lemma validate_decimal (n : Z) :
  0 <= n ->
  SegmentDefinition.validate_value DEFAULT_SEGMENT_DEFINITION
    (PStr (str_of_int n)) = Ok (PInt n).
Proof.
  intros Hn. unfold SegmentDefinition.validate_value.
  cbn [is_none DEFAULT_SEGMENT_DEFINITION SegmentDefinition.fields].
  rewrite validate_text_default.
  rewrite (default_pattern_decimal
             (eq_rect_r (is_decimal n) (dec_of_nonneg_spec Hn)
                        (str_of_int_nonneg Hn)) Hn).
  cbn [mapM bind DEFAULT_SEGMENT_FIELD SegmentField.name SegmentField.type
       DEFAULT_FIELD_TYPE is_str_type negb group].
  assert (Hl : lookup (lit "value") [(lit "value", str_of_int n)]
               = Some (str_of_int n)) by reflexivity.
  unfold group, DEFAULT_FIELD_TYPE. rewrite Hl.
  assert (Hne : py_eq (PStr (str_of_int n)) (PStr []) = false).
  { rewrite (str_of_int_nonneg Hn).
    destruct (dec_of_nonneg_spec Hn) as [_ [_ [c [t [-> _]]]]]. reflexivity. }
  rewrite Hne. cbn [andb call_type py_int].
  rewrite (int_of_str_decimal Hn). reflexivity.
Qed.

Lemma validate_default_sound (x r : pyval) :
  SegmentDefinition.validate_value DEFAULT_SEGMENT_DEFINITION x = Ok r ->
  exists n, 0 <= n /\ r = PInt n.
Proof.
  unfold SegmentDefinition.validate_value.
  cbn [DEFAULT_SEGMENT_DEFINITION SegmentDefinition.fields
       SegmentDefinition.optional SegmentDefinition.default is_none negb andb].
  destruct (is_none x); [intros H; discriminate H |].
  intros H. apply validate_value_default in H. destruct H as [s H].
  rewrite validate_text_default in H.
  destruct (re_match DEFAULT_VALUE_PATTERN s) as [m |] eqn:Hm;
    [| discriminate H].
  apply default_pattern_sound in Hm. destruct Hm as [c [t [-> F]]].
  cbn [mapM bind DEFAULT_SEGMENT_FIELD SegmentField.name SegmentField.type
       DEFAULT_FIELD_TYPE is_str_type negb group] in H.
  unfold group, DEFAULT_FIELD_TYPE in H.
  set (L := lookup _ _) in H.
  assert (Hl : L = Some (c :: t)) by reflexivity.
  rewrite Hl in H. clear L Hl. cbn [py_eq str_eqb andb call_type py_int] in H.
  rewrite int_of_str_digits in H by (inversion F; assumption).
  destruct (@digits_value_digits (c :: t) 0 F ltac:(lia)) as [n [Hv Hn]].
  rewrite Hv in H. cbn in H. injection H as <-.
  exists n. split; [exact Hn | reflexivity].
Qed.

(** ** Versions of the scheme without a table *)

Lemma mapM_in {A B : Type} (f : A -> result B) (l : list A) (ys : list B) :
  mapM f l = Ok ys ->
  forall y, In y ys -> exists x, In x l /\ f x = Ok y.
Proof.
  revert ys. induction l as [| a l IH]; simpl; intros ys H y Hy.
  - injection H as <-. contradiction.
  - apply bind_ok in H. destruct H as [b [Hb H]].
    apply bind_ok in H. destruct H as [ys' [Hys H]].
    injection H as <-. destruct Hy as [<- | Hy].
    + exists a. split; [left; reflexivity | exact Hb].
    + destruct (IH ys' Hys y Hy) as [x [Hx Hf]].
      exists x. split; [right; exact Hx | exact Hf].
Qed.

Lemma mapM_seq {A B : Type} (f : nat -> result B) (g : A -> B) (l : list A) :
  forall k,
    (forall i x, nth_error l i = Some x -> f (k + i)%nat = Ok (g x)) ->
    mapM f (seq k (length l)) = Ok (map g l).
Proof.
  induction l as [| a l IH]; intros k H; simpl.
  - reflexivity.
  - rewrite <- (Nat.add_0_r k) at 1. rewrite (H 0%nat a eq_refl). cbn [bind].
    rewrite (IH (S k)).
    + reflexivity.
    + intros i x Hi. rewrite <- (H (S i) x Hi). f_equal. lia.
Qed.

Lemma whole_numbers (l : list pyval) :
  Forall (fun x => exists n, 0 <= n /\ x = PInt n) l ->
  exists ns, l = map PInt ns /\ Forall (fun n => 0 <= n) ns.
Proof.
  induction 1 as [| x l [n [Hn ->]] _ [ns [-> Hns]]].
  - exists []. split; [reflexivity | constructor].
  - exists (n :: ns). split; [reflexivity | constructor; assumption].
Qed.

(** How the scheme without a table validates a list of arguments. *)
Lemma validate_base_arguments (l ys : list pyval) :
  mapM (fun i =>
          d <- Version.definition_at [] i ;;
          x <- py_getitem (PTuple l) i ;;
          SegmentDefinition.validate_value d x)
       (seq 0 (length l)) = Ok ys ->
  exists ns, ys = map PInt ns /\ length ns = length l
             /\ Forall (fun n => 0 <= n) ns.
Proof.
  intros H.
  assert (F : Forall (fun x => exists n, 0 <= n /\ x = PInt n) ys).
  { apply Forall_forall. intros y Hy.
    destruct (mapM_in _ _ H y Hy) as [i [_ Hf]].
    cbn [Version.definition_at bind] in Hf.
    apply bind_ok in Hf. destruct Hf as [x [_ Hf]].
    apply (validate_default_sound _ Hf). }
  destruct (whole_numbers F) as [ns [-> Hns]].
  exists ns. split; [reflexivity |]. split; [| exact Hns].
  apply mapM_length in H. rewrite length_map, length_seq in H. exact H.
Qed.

Lemma split_on_nonempty (c : ascii) (s : pystr) : split_on c s <> [].
Proof.
  destruct s as [| a s]; simpl; [discriminate |].
  destruct (Ascii.eqb a c); [discriminate |].
  destruct (split_on c s); discriminate.
Qed.

(** A version of the scheme without a table holds whole numbers, at
    least one. *)
Lemma new_base_items (args : list pyval) (kwargs : list (pystr * pyval))
  (v : Version.t) :
  Version.new VersionBase args kwargs = Ok v ->
  exists ns, v = base_version ns /\ ns <> [] /\ Forall (fun n => 0 <= n) ns.
Proof.
  intros H.
  assert (Hshape : exists l,
             l <> []
             /\ (a <- Version.process_kwargs [] kwargs (ArgList l) ;;
                 let args := arg_values a in
                 args <- mapM (fun i =>
                                 d <- Version.definition_at [] i ;;
                                 x <- py_getitem (PTuple args) i ;;
                                 SegmentDefinition.validate_value d x)
                              (seq 0 (length args)) ;;
                 validate VersionBase args ;;;
                 Ok {| Version.cls := VersionBase; Version.items := args |})
                = Ok v).
  { unfold Version.new in H.
    change (Version._get_definitions VersionBase) with (Ok (@nil SegmentDefinition.t)) in H.
    cbn [bind rev Version.named_segments] in H.
    destruct args as [| x [| y l]].
    - discriminate H.
    - destruct x as [| z | s | t].
      + exists [PNone]. split; [discriminate | exact H].
      + exists [PInt z]. split; [discriminate | exact H].
      + exists (map PStr (split_on "."%char s)). split; [| exact H].
        intros E. apply map_eq_nil in E. apply (split_on_nonempty _ _ E).
      + exists [PTuple t]. split; [discriminate | exact H].
    - exists (x :: y :: l). split; [discriminate |].
      destruct x; exact H. }
  destruct Hshape as [l [Hl Hv]].
  destruct kwargs as [| [k x] kwargs]; [| discriminate Hv].
  cbn [Version.process_kwargs bind arg_values] in Hv. cbv zeta in Hv.
  apply bind_ok in Hv. destruct Hv as [ys [Hys Hv]].
  cbn in Hv. injection Hv as <-.
  destruct (validate_base_arguments _ Hys) as [ns [-> [Hlen Hns]]].
  exists ns. split; [reflexivity |]. split; [| exact Hns].
  intros ->. destruct l; [contradiction Hl; reflexivity | discriminate Hlen].
Qed.

(** ** Rendering a version of the scheme without a table *)

Lemma str_of_int_digits (n : Z) :
  0 <= n ->
  str_of_int n <> [] /\ Forall (fun c => is_digit c = true) (str_of_int n).
Proof.
  intros Hn. rewrite (str_of_int_nonneg Hn).
  destruct (dec_of_nonneg_spec Hn) as [F [_ [c [t [E _]]]]].
  split; [rewrite E; discriminate | exact F].
Qed.

Lemma render_segment_base (ns : list Z) (i : nat) (n : Z) (acc : pystr) :
  nth_error ns i = Some n ->
  Version.render_segment (base_version ns)
    (repeat DEFAULT_SEGMENT_DEFINITION (length ns)) []
    default_exclude_callbacks acc i
  = Ok (append_segment DEFAULT_SEGMENT_SEPARATOR acc (str_of_int n)).
Proof.
  intros Hn.
  assert (Hi : (i < length ns)%nat)
    by (apply nth_error_Some; rewrite Hn; discriminate).
  assert (Hx : nth_error (Version.items (base_version ns)) i = Some (PInt n))
    by (cbn [base_version Version.items]; rewrite nth_error_map, Hn; reflexivity).
  assert (Hd : Version._get_definitions (Version.cls (base_version ns)) = Ok [])
    by reflexivity.
  unfold Version.render_segment.
  rewrite (nth_error_repeat _ Hi). cbn [bind].
  rewrite (@getitem_index (base_version ns) [] i DEFAULT_SEGMENT_DEFINITION
             (PInt n) Hd eq_refl Hx).
  cbn [bind SegmentDefinition.optional DEFAULT_SEGMENT_DEFINITION andb].
  unfold default_exclude_callbacks. cbn [Version.some_affirmative bind negb].
  rewrite (@exclude_defaults_callback_value (base_version ns) [] i
             DEFAULT_SEGMENT_DEFINITION (PInt n) Hd eq_refl Hx).
  reflexivity.
Qed.

Lemma render_loop_base (ns : list Z) :
  forall (m k : nat) (acc : pystr),
    (k + m <= length ns)%nat ->
    Version.render_loop (base_version ns)
      (repeat DEFAULT_SEGMENT_DEFINITION (length ns)) []
      default_exclude_callbacks (seq k m) acc
    = Ok (fold_left (append_segment DEFAULT_SEGMENT_SEPARATOR)
            (map str_of_int (firstn m (skipn k ns))) acc).
Proof.
  induction m as [| m IH]; intros k acc H.
  - reflexivity.
  - destruct (nth_error ns k) as [n |] eqn:Hn;
      [| apply nth_error_None in Hn; lia].
    cbn [seq Version.render_loop].
    rewrite (@render_segment_base ns k n acc Hn). cbn [bind].
    rewrite IH by lia.
    rewrite (skipn_nth_error _ _ Hn). reflexivity.
Qed.

Lemma join_cons (sep x y : pystr) (l : list pystr) :
  join sep (x :: y :: l) = x ++ sep ++ join sep (y :: l).
Proof. reflexivity. Qed.

Lemma fold_append_segment (sep : pystr) (ts : list pystr) :
  forall acc,
    acc <> [] -> Forall (fun t => t <> []) ts ->
    fold_left (append_segment sep) ts acc = join sep (acc :: ts).
Proof.
  induction ts as [| t ts IH]; intros acc Hacc F.
  - reflexivity.
  - inversion F as [| t' ts' Ht Fts]; subst.
    cbn [fold_left]. unfold append_segment at 2.
    destruct acc as [| a acc]; [contradiction Hacc; reflexivity |].
    cbn [length Nat.ltb Nat.leb].
    rewrite IH; [| cbn [app]; discriminate | exact Fts].
    rewrite join_cons. destruct ts as [| u ts].
    + cbn [join]. rewrite <- app_assoc. reflexivity.
    + rewrite !join_cons. rewrite <- !app_assoc. reflexivity.
Qed.

Lemma str_base (ns : list Z) :
  ns <> [] -> Forall (fun n => 0 <= n) ns ->
  Version.__str__ (base_version ns)
  = Ok (join DEFAULT_SEGMENT_SEPARATOR (map str_of_int ns)).
Proof.
  intros Hne Hns.
  assert (Hr : Version.__str__ (base_version ns)
               = Version.render_loop (base_version ns)
                   (repeat DEFAULT_SEGMENT_DEFINITION (length ns)) []
                   default_exclude_callbacks (seq 0 (length ns)) []).
  { unfold Version.__str__, Version.render, Version._get_segment_definition,
      Version.get_raw_item.
    change (Version._get_definitions (Version.cls (base_version ns)))
      with (Ok (@nil SegmentDefinition.t)).
    cbn [bind base_version Version.items].
    rewrite Nat.sub_0_r. cbn [skipn]. rewrite firstn_all.
    rewrite !length_map. reflexivity. }
  rewrite Hr, render_loop_base by lia.
  cbn [skipn]. rewrite firstn_all.
  destruct ns as [| n ns]; [contradiction Hne; reflexivity |].
  inversion Hns as [| n' ns' Hn Hns']; subst.
  cbn [map fold_left]. unfold append_segment at 2. cbn [length Nat.ltb Nat.leb app].
  rewrite fold_append_segment.
  - reflexivity.
  - apply (str_of_int_digits Hn).
  - apply Forall_forall. intros t Ht. apply in_map_iff in Ht.
    destruct Ht as [x [<- Hx]]. rewrite Forall_forall in Hns'.
    apply (str_of_int_digits (Hns' x Hx)).
Qed.

(** ** Splitting the text again *)

Lemma split_on_free (c : ascii) (t : pystr) :
  Forall (fun a => Ascii.eqb a c = false) t -> split_on c t = [t].
Proof.
  induction 1 as [| a t Ha _ IH]; simpl.
  - reflexivity.
  - rewrite Ha, IH. reflexivity.
Qed.

Lemma split_on_app (c : ascii) (t rest : pystr) :
  Forall (fun a => Ascii.eqb a c = false) t ->
  split_on c (t ++ c :: rest) = t :: split_on c rest.
Proof.
  induction 1 as [| a t Ha _ IH]; simpl.
  - rewrite ascii_eqb_refl. reflexivity.
  - rewrite Ha, IH. reflexivity.
Qed.

Lemma split_on_join (c : ascii) (ts : list pystr) :
  ts <> [] ->
  Forall (Forall (fun a => Ascii.eqb a c = false)) ts ->
  split_on c (join [c] ts) = ts.
Proof.
  intros Hne F. induction F as [| t ts Ht Fts IH];
    [contradiction Hne; reflexivity |].
  destruct ts as [| u ts].
  - apply split_on_free. exact Ht.
  - rewrite join_cons. cbn [app]. rewrite (@split_on_app c t _ Ht).
    f_equal. apply IH. discriminate.
Qed.

Lemma digit_not_dot (a : ascii) :
  is_digit a = true -> Ascii.eqb a "."%char = false.
Proof.
  intros H.
  destruct a as [[] [] [] [] [] [] [] []]; try discriminate H; reflexivity.
Qed.

Lemma new_base_text (ns : list Z) :
  ns <> [] -> Forall (fun n => 0 <= n) ns ->
  Version.new VersionBase
    [PStr (join DEFAULT_SEGMENT_SEPARATOR (map str_of_int ns))] []
  = Ok (base_version ns).
Proof.
  intros Hne Hns. unfold Version.new.
  change (Version._get_definitions VersionBase)
    with (Ok (@nil SegmentDefinition.t)).
  cbn [bind rev Version.named_segments Version.process_kwargs arg_values].
  change DEFAULT_SEGMENT_SEPARATOR with ["."%char].
  rewrite split_on_join.
  - cbv zeta. rewrite !length_map.
    rewrite (@mapM_seq Z pyval _ PInt ns 0).
    + reflexivity.
    + intros i n Hi. cbn [Nat.add Version.definition_at bind py_getitem].
      rewrite !nth_error_map, Hi. cbn [option_map bind].
      apply validate_decimal. rewrite Forall_forall in Hns.
      apply Hns. apply (nth_error_In _ _ Hi).
  - intros E. apply map_eq_nil in E. contradiction.
  - apply Forall_forall. intros t Ht. apply in_map_iff in Ht.
    destruct Ht as [n [<- Hn]]. rewrite Forall_forall in Hns.
    destruct (str_of_int_digits (Hns n Hn)) as [_ F].
    apply Forall_forall. intros a Ha. apply digit_not_dot.
    rewrite Forall_forall in F. apply F. exact Ha.
Qed.

(** Every version of the scheme without a table is read back from its
    text. *)
Lemma round_trip_base (args : list pyval) (kwargs : list (pystr * pyval))
  (v : Version.t) :
  Version.new VersionBase args kwargs = Ok v ->
  exists s,
    Version.__str__ v = Ok s
    /\ Version.new VersionBase [PStr s] [] = Ok v
    /\ __eq__ v (AVersion v) = Ok true.
Proof.
  intros H. destruct (new_base_items _ _ H) as [ns [-> [Hne Hns]]].
  exists (join DEFAULT_SEGMENT_SEPARATOR (map str_of_int ns)).
  split; [apply (str_base Hne Hns) |].
  split; [apply (new_base_text Hne Hns) |].
  unfold __eq__.
  rewrite (@cooked_ok (base_version ns) [] eq_refl). cbn [bind].
  rewrite py_eq_refl. reflexivity.
Qed.

(** ** The grammar of a scheme of dotted whole numbers *)

Lemma match_literal_dot (st : mstate) (rest : pystr) :
  ahead st = "."%char :: rest ->
  match_literal DEFAULT_SEGMENT_SEPARATOR st = Some (advance st).
Proof.
  intros H. cbn [DEFAULT_SEGMENT_SEPARATOR lit list_ascii_of_string match_literal].
  rewrite H. reflexivity.
Qed.

(** The default pattern takes the decimal text ahead, when what comes
    after it is no digit and the rest of the pattern matches there. *)
Lemma rmatch_default_decimal (n : Z) (t rest : pystr) (st r : mstate)
  (k : mstate -> option mstate) :
  is_decimal n t -> 0 <= n ->
  ahead st = t ++ rest ->
  (forall c u, rest = c :: u -> in_class (range "0" "9") c = false) ->
  k (consume t rest st) = Some r ->
  rmatch DEFAULT_RE_PATTERN st k = Some r.
Proof.
  intros [F [_ [c [u [Ht [Hnz Hz]]]]]] Hn Ha Hrest Hk.
  rewrite rmatch_default_pattern. subst t.
  destruct (Z.eq_dec n 0) as [E | E].
  - destruct (Hz E) as [-> ->].
    cbn [lit list_ascii_of_string match_literal]. rewrite Ha.
    cbn [app]. rewrite ascii_eqb_refl.
    rewrite <- (@consume_cons "0"%char [] rest st Ha) in Hk.
    assert (Hadv : ahead (advance st) = rest)
      by (unfold advance; rewrite Ha; reflexivity).
    rewrite <- Hadv, consume_nil in Hk. rewrite Hk. reflexivity.
  - destruct (nonzero_digit c (Hnz ltac:(lia))) as [_ Hc0].
    cbn [lit list_ascii_of_string match_literal]. rewrite Ha.
    cbn [app]. rewrite Hc0. cbn [or_else]. rewrite (Hnz ltac:(lia)).
    inversion F as [| c' u' _ Fu]; subst.
    assert (Hadv : ahead (advance st) = u ++ rest)
      by (unfold advance; rewrite Ha; reflexivity).
    apply (@star_class_greedy (range "0" "9") k r u rest).
    + exact Hadv.
    + apply forallb_forall. intros x Hx. rewrite in_class_digit.
      rewrite Forall_forall in Fu. apply Fu. exact Hx.
    + rewrite Hadv, length_app. lia.
    + rewrite (@consume_cons c u rest st Ha). exact Hk.
    + exact Hrest.
Qed.

Lemma rmatch_default_empty (st : mstate) (k : mstate -> option mstate) :
  ahead st = [] -> rmatch DEFAULT_RE_PATTERN st k = None.
Proof.
  intros H. rewrite rmatch_default_pattern.
  cbn [lit list_ascii_of_string match_literal]. rewrite H. reflexivity.
Qed.

Lemma dotted_inv (d : SegmentDefinition.t) :
  dotted d ->
  SegmentDefinition.fields d = [DEFAULT_SEGMENT_FIELD]
  /\ SegmentDefinition.separator d = DEFAULT_SEGMENT_SEPARATOR
  /\ (SegmentDefinition.default d = PNone
      \/ exists m, 0 <= m /\ SegmentDefinition.default d = PInt m).
Proof.
  intros [o [df [nm H]]]. unfold SegmentDefinition.new in H.
  cbn [map has_duplicates existsb orb bind] in H.
  apply bind_ok in H. destruct H as [df' [Hdf H]].
  apply bind_ok in H. destruct H as [nm' [_ H]].
  injection H as <-. cbn. split; [reflexivity |]. split; [reflexivity |].
  destruct (is_none df) eqn:E.
  - injection Hdf as <-. left. destruct df; try discriminate E. reflexivity.
  - right. apply validate_value_default in Hdf. destruct Hdf as [s Hs].
    assert (Hv : SegmentDefinition.validate_value DEFAULT_SEGMENT_DEFINITION
                   (PStr s) = Ok df') by exact Hs.
    destruct (validate_default_sound _ Hv) as [m [Hm ->]].
    exists m. split; [exact Hm | reflexivity].
Qed.

Lemma str_of_int_inj (a b : Z) :
  0 <= a -> 0 <= b -> str_of_int a = str_of_int b -> a = b.
Proof.
  intros Ha Hb H.
  pose proof (int_of_str_decimal Ha) as H1.
  rewrite H, (int_of_str_decimal Hb) in H1. injection H1 as ->. reflexivity.
Qed.

Lemma segment_group_name_inj (i j : nat) :
  str_eqb (segment_group_name i) (segment_group_name j) = Nat.eqb i j.
Proof.
  destruct (Nat.eqb_spec i j) as [-> | Hne].
  - apply str_eqb_refl.
  - destruct (str_eqb _ _) eqn:E; [| reflexivity].
    apply str_eqb_eq in E. unfold segment_group_name in E.
    apply app_inv_head in E. apply str_of_int_inj in E; lia.
Qed.

Lemma lookup_captures (texts : list pystr) :
  forall (i j : nat) (c : list (pystr * pystr)),
    lookup (segment_group_name j) (captures i texts c)
    = if ((i <=? j) && (j <? i + length texts))%nat
      then nth_error texts (j - i)
      else lookup (segment_group_name j) c.
Proof.
  induction texts as [| t ts IH]; intros i j c; cbn [captures length].
  - destruct (i <=? j)%nat eqn:E1; [| reflexivity].
    destruct (j <? i + 0)%nat eqn:E2; [| reflexivity].
    apply Nat.leb_le in E1. apply Nat.ltb_lt in E2. lia.
  - rewrite IH. cbn [lookup]. rewrite segment_group_name_inj.
    destruct (Nat.eqb_spec j i) as [-> | Hne].
    + replace (S i <=? i)%nat with false by (symmetry; apply Nat.leb_gt; lia).
      rewrite Nat.leb_refl.
      replace (i <? i + S (length ts))%nat with true
        by (symmetry; apply Nat.ltb_lt; lia).
      rewrite Nat.sub_diag. reflexivity.
    + destruct (Nat.leb_spec (S i) j) as [H1 | H1];
        destruct (Nat.ltb_spec j (S i + length ts)) as [H2 | H2];
        destruct (Nat.leb_spec i j) as [H3 | H3];
        destruct (Nat.ltb_spec j (i + S (length ts))) as [H4 | H4];
        cbn [andb]; try lia; try reflexivity.
      replace (j - i)%nat with (S (j - S i)) by lia. reflexivity.
Qed.

Lemma segments_text_head (i : nat) (ns : list Z) (c : ascii) (u : pystr) :
  segments_text (S i) ns = c :: u -> in_class (range "0" "9") c = false.
Proof.
  destruct ns as [| n ns]; cbn [segments_text]; intros H.
  - discriminate H.
  - injection H as <- _. reflexivity.
Qed.

Lemma re_pattern_dotted (d : SegmentDefinition.t) :
  SegmentDefinition.fields d = [DEFAULT_SEGMENT_FIELD] ->
  SegmentDefinition.re_pattern d = Cat DEFAULT_RE_PATTERN Eps.
Proof. intros H. unfold SegmentDefinition.re_pattern. rewrite H. reflexivity. Qed.

(** A segment that may be absent takes nothing at the end of the
    text. *)
Lemma rmatch_segment_absent (before : list SegmentDefinition.t) (i : nat)
  (d : SegmentDefinition.t) (st : mstate) (k : mstate -> option mstate) :
  SegmentDefinition.fields d = [DEFAULT_SEGMENT_FIELD] ->
  SegmentDefinition.separator d = DEFAULT_SEGMENT_SEPARATOR ->
  SegmentDefinition.required d = false ->
  ahead st = [] ->
  rmatch (Version.re_segment before i d) st k = k st.
Proof.
  intros Hf Hs Hr Ha. unfold Version.re_segment.
  rewrite Hr, Hs, (re_pattern_dotted d Hf). cbn [negb].
  destruct i as [| i].
  - cbn [rmatch]. fold (rmatch DEFAULT_RE_PATTERN).
    rewrite (rmatch_default_empty _ _ Ha). reflexivity.
  - destruct (forallb _ before).
    + cbn [rmatch]. fold (rmatch DEFAULT_RE_PATTERN).
      cbn [DEFAULT_SEGMENT_SEPARATOR lit list_ascii_of_string match_literal].
      rewrite Ha. cbn [or_else].
      rewrite (rmatch_default_empty _ _ Ha). reflexivity.
    + cbn [rmatch].
      cbn [DEFAULT_SEGMENT_SEPARATOR lit list_ascii_of_string match_literal].
      rewrite Ha. reflexivity.
Qed.

Lemma rmatch_group_decimal (name : pystr) (n : Z) (rest : pystr)
  (st r : mstate) (k : mstate -> option mstate) :
  0 <= n ->
  ahead st = str_of_int n ++ rest ->
  (forall c u, rest = c :: u -> in_class (range "0" "9") c = false) ->
  k (capture name st (consume (str_of_int n) rest st)) = Some r ->
  rmatch (Group name (Cat DEFAULT_RE_PATTERN Eps)) st k = Some r.
Proof.
  intros Hn Ha Hrest Hk.
  change (rmatch (Group name (Cat DEFAULT_RE_PATTERN Eps)) st k)
    with (rmatch DEFAULT_RE_PATTERN st (fun st' => k (capture name st st'))).
  apply (@rmatch_default_decimal n (str_of_int n) rest st r).
  - rewrite (str_of_int_nonneg Hn). apply (dec_of_nonneg_spec Hn).
  - exact Hn.
  - exact Ha.
  - exact Hrest.
  - exact Hk.
Qed.

Lemma rmatch_separator (optional : bool) (rest : pystr) (st r : mstate)
  (k : mstate -> option mstate) :
  ahead st = "."%char :: rest ->
  k (advance st) = Some r ->
  rmatch (if optional then Opt (Text DEFAULT_SEGMENT_SEPARATOR)
          else Text DEFAULT_SEGMENT_SEPARATOR) st k = Some r.
Proof.
  intros Ha Hk. destruct optional; cbn [rmatch];
    rewrite (match_literal_dot st Ha), Hk; reflexivity.
Qed.

Lemma captured_capture (name t rest : pystr) (st : mstate) :
  ahead st = t ++ rest ->
  captured (capture name st (consume t rest st)) = (name, t) :: captured st.
Proof.
  intros Ha. unfold capture, consume. cbn [captured ahead].
  rewrite Ha, firstn_consumed. reflexivity.
Qed.

(** A segment that is present takes its separator, but for segment 0,
    and its number. *)
Lemma rmatch_segment_present (before : list SegmentDefinition.t) (i : nat)
  (d : SegmentDefinition.t) (n : Z) (rest : pystr) (st : mstate) :
  SegmentDefinition.fields d = [DEFAULT_SEGMENT_FIELD] ->
  SegmentDefinition.separator d = DEFAULT_SEGMENT_SEPARATOR ->
  0 <= n ->
  ahead st = match i with O => [] | S _ => DEFAULT_SEGMENT_SEPARATOR end
             ++ str_of_int n ++ rest ->
  (forall c u, rest = c :: u -> in_class (range "0" "9") c = false) ->
  exists st',
    ahead st' = rest
    /\ captured st' = (segment_group_name i, str_of_int n) :: captured st
    /\ forall k r, k st' = Some r ->
                   rmatch (Version.re_segment before i d) st k = Some r.
Proof.
  intros Hf Hs Hn Ha Hrest.
  destruct i as [| i].
  - cbn [app] in Ha.
    exists (capture (segment_group_name 0) st (consume (str_of_int n) rest st)).
    split; [reflexivity |]. split; [apply (@captured_capture _ _ _ _ Ha) |].
    intros k r Hk. unfold Version.re_segment.
    rewrite (re_pattern_dotted d Hf).
    assert (Hg : rmatch (Group (segment_group_name 0)
                           (Cat DEFAULT_RE_PATTERN Eps)) st k = Some r)
      by (apply (@rmatch_group_decimal _ n rest st r k Hn Ha Hrest Hk)).
    destruct (negb (SegmentDefinition.required d)).
    + change (rmatch (Opt ?x) st k) with (or_else (rmatch x st k) (k st)).
      unfold segment_group_name in Hg. rewrite Hg. reflexivity.
    + exact Hg.
  - assert (Ha1 : ahead (advance st) = str_of_int n ++ rest)
      by (unfold advance; rewrite Ha; reflexivity).
    exists (capture (segment_group_name (S i)) (advance st)
              (consume (str_of_int n) rest (advance st))).
    split; [reflexivity |].
    split.
    { rewrite (@captured_capture _ _ _ _ Ha1). unfold advance. rewrite Ha.
      reflexivity. }
    intros k r Hk. unfold Version.re_segment.
    rewrite Hs, (re_pattern_dotted d Hf).
    set (optional := forallb _ before).
    assert (Hg : rmatch
                   (Cat (if optional then Opt (Text DEFAULT_SEGMENT_SEPARATOR)
                         else Text DEFAULT_SEGMENT_SEPARATOR)
                        (Group (segment_group_name (S i))
                           (Cat DEFAULT_RE_PATTERN Eps))) st k = Some r).
    { change (rmatch (Cat ?a ?b) st k)
        with (rmatch a st (fun st' => rmatch b st' k)).
      apply (@rmatch_separator optional (str_of_int n ++ rest)).
      - exact Ha.
      - apply (@rmatch_group_decimal _ n rest (advance st) r k Hn Ha1 Hrest Hk). }
    destruct (negb (SegmentDefinition.required d)).
    + change (rmatch (Opt ?x) st k) with (or_else (rmatch x st k) (k st)).
      unfold segment_group_name in Hg. rewrite Hg. reflexivity.
    + exact Hg.
Qed.

Lemma rmatch_cat_all_cons (x : regex) (l : list regex) (st : mstate)
  (k : mstate -> option mstate) :
  rmatch (cat_all (x :: l)) st k
  = rmatch x st (fun st' => rmatch (cat_all l) st' k).
Proof. reflexivity. Qed.

(** The segments of the grammar take the text of the numbers [ns], one
    segment a number, and the segments that are left take nothing. *)
Lemma rmatch_segments (ds : list SegmentDefinition.t) :
  forall (ns : list Z) (before : list SegmentDefinition.t) (i : nat)
         (st : mstate),
    Forall dotted ds ->
    Forall (fun n => 0 <= n) ns ->
    (length ns <= length ds)%nat ->
    Forall (fun d => SegmentDefinition.required d = false)
           (skipn (length ns) ds) ->
    ahead st = segments_text i ns ->
    exists st',
      ahead st' = []
      /\ captured st' = captures i (map str_of_int ns) (captured st)
      /\ forall k r, k st' = Some r ->
                     rmatch (cat_all (Version.re_segments before ds i)) st k
                     = Some r.
Proof.
  induction ds as [| d ds IH]; intros ns before i st Hd Hns Hlen Hreq Ha.
  - destruct ns as [| n ns]; [| simpl in Hlen; lia].
    exists st. split; [exact Ha |]. split; [reflexivity |].
    intros k r Hk. exact Hk.
  - inversion Hd as [| d' ds' Hdot Hds]; subst.
    destruct (dotted_inv Hdot) as [Hf [Hs _]].
    cbn [Version.re_segments].
    destruct ns as [| n ns].
    + (* nothing left: the segment is absent *)
      cbn [length skipn] in Hreq.
      inversion Hreq as [| d' ds' Hr Hrs]; subst.
      destruct (IH [] (before ++ [d]) (S i) st Hds Hns ltac:(simpl; lia)
                  Hrs Ha) as [st' [H1 [H2 H3]]].
      exists st'. split; [exact H1 |]. split; [exact H2 |].
      intros k r Hk. rewrite rmatch_cat_all_cons.
      rewrite (rmatch_segment_absent before i d st _ Hf Hs Hr Ha).
      apply H3. exact Hk.
    + inversion Hns as [| n' ns' Hn Hns']; subst.
      cbn [segments_text] in Ha.
      destruct (@rmatch_segment_present before i d n
                  (segments_text (S i) ns) st Hf Hs Hn Ha
                  (segments_text_head i ns))
        as [st1 [A1 [A2 A3]]].
      destruct (IH ns (before ++ [d]) (S i) st1 Hds Hns'
                  ltac:(simpl in Hlen; lia) Hreq A1)
        as [st' [H1 [H2 H3]]].
      exists st'. split; [exact H1 |]. split.
      * rewrite H2, A2. reflexivity.
      * intros k r Hk. rewrite rmatch_cat_all_cons.
        apply A3. apply H3. exact Hk.
Qed.

Lemma segments_text_join (ns : list Z) :
  segments_text 0 ns = join DEFAULT_SEGMENT_SEPARATOR (map str_of_int ns).
Proof.
  assert (H : forall i l, segments_text (S i) l
                          = concat (map (fun n => DEFAULT_SEGMENT_SEPARATOR
                                                  ++ str_of_int n) l)).
  { intros i l. revert i. induction l as [| n l IH]; intros i.
    - reflexivity.
    - cbn [segments_text map concat]. rewrite IH, <- app_assoc. reflexivity. }
  assert (J : forall t l, join DEFAULT_SEGMENT_SEPARATOR (t :: map str_of_int l)
                          = t ++ concat (map (fun n => DEFAULT_SEGMENT_SEPARATOR
                                                       ++ str_of_int n) l)).
  { intros t l. revert t. induction l as [| n l IH]; intros t.
    - cbn. rewrite app_nil_r. reflexivity.
    - cbn [map]. rewrite join_cons, IH. cbn [concat].
      rewrite <- app_assoc. reflexivity. }
  destruct ns as [| n ns]; [reflexivity |].
  cbn [segments_text map app]. rewrite H, J. reflexivity.
Qed.

(** The names of the groups of the grammar. *)
Lemma group_names_segments (ds : list SegmentDefinition.t) :
  forall (before : list SegmentDefinition.t) (i : nat),
    Forall dotted ds ->
    group_names (cat_all (Version.re_segments before ds i))
    = map segment_group_name (seq i (length ds)).
Proof.
  induction ds as [| d ds IH]; intros before i Hd.
  - reflexivity.
  - inversion Hd as [| d' ds' Hdot Hds]; subst.
    destruct (dotted_inv Hdot) as [Hf _].
    cbn [Version.re_segments cat_all group_names length seq map].
    rewrite (IH _ _ Hds).
    assert (Hg : group_names (Version.re_segment before i d)
                 = [segment_group_name i]).
    { unfold Version.re_segment. rewrite (re_pattern_dotted d Hf).
      destruct i; destruct (negb (SegmentDefinition.required d));
        try destruct (forallb _ before); reflexivity. }
    rewrite Hg. reflexivity.
Qed.

Lemma group_names_grammar (defs : list SegmentDefinition.t) :
  Forall dotted defs ->
  group_names (Cat Bol (Cat (cat_all (Version.re_segments [] defs 0)) Eol))
  = map segment_group_name (seq 0 (length defs)).
Proof.
  intros Hd.
  change (group_names (Cat Bol (Cat ?x Eol))) with (group_names x ++ []).
  rewrite app_nil_r. apply (group_names_segments _ _ Hd).
Qed.

(** The grammar of a scheme of dotted whole numbers reads the text of
    the numbers [ns]: a group for each number, the other groups taking
    no part. *)
Lemma grammar_match (c : VersionClass) (defs : list SegmentDefinition.t)
  (ns : list Z) :
  Version._get_definitions c = Ok defs ->
  Forall dotted defs ->
  Forall (fun n => 0 <= n) ns ->
  (length ns <= length defs)%nat ->
  Forall (fun d => SegmentDefinition.required d = false)
         (skipn (length ns) defs) ->
  exists re m,
    Version._get_re c = Ok re
    /\ re_match re (join DEFAULT_SEGMENT_SEPARATOR (map str_of_int ns)) = Some m
    /\ length (groups re m) = length defs
    /\ forall j, (j < length defs)%nat ->
                 nth_error (groups re m) j
                 = Some (match nth_error ns j with
                         | Some n => PStr (str_of_int n)
                         | None => PNone
                         end).
Proof.
  intros Hdefs Hd Hns Hlen Hreq.
  set (s := join DEFAULT_SEGMENT_SEPARATOR (map str_of_int ns)).
  destruct (@rmatch_segments defs ns [] 0%nat (initial s) Hd Hns Hlen Hreq)
    as [st' [H1 [H2 H3]]].
  { cbn [initial ahead]. symmetry. apply segments_text_join. }
  exists (Cat Bol (Cat (cat_all (Version.re_segments [] defs 0)) Eol)).
  exists (captured st').
  split; [apply (get_re_ok c Hdefs) |].
  assert (Hnames : group_names
                     (Cat Bol (Cat (cat_all (Version.re_segments [] defs 0)) Eol))
                   = map segment_group_name (seq 0 (length defs))).
  { cbn [group_names]. rewrite app_nil_r. apply (group_names_segments _ _ Hd). }
  split; [| split].
  - unfold re_match. fold (initial s).
    change (rmatch (Cat Bol (Cat ?x Eol)) (initial s) ?k)
      with (rmatch x (initial s) (fun st => rmatch Eol st k)).
    rewrite (H3 _ st'); [reflexivity |].
    cbn [rmatch]. rewrite H1. reflexivity.
  - unfold groups. rewrite Hnames, !length_map, length_seq. reflexivity.
  - intros j Hj. unfold groups. rewrite Hnames, !nth_error_map.
    rewrite (nth_error_seq 0 Hj). cbn [option_map Nat.add].
    f_equal. unfold group. rewrite H2. cbn [initial captured].
    rewrite lookup_captures. cbn [Nat.leb Nat.add andb lookup].
    rewrite length_map, Nat.sub_0_r, nth_error_map.
    destruct (Nat.ltb_spec j (length ns)) as [L | L].
    + destruct (nth_error ns j); reflexivity.
    + destruct (nth_error ns j) eqn:E; [| reflexivity].
      assert (j < length ns)%nat by (apply nth_error_Some; rewrite E; discriminate).
      lia.
Qed.

(** ** Versions of a scheme of dotted whole numbers *)

Lemma validate_dotted_sound (d : SegmentDefinition.t) (x y : pyval) :
  dotted d ->
  SegmentDefinition.validate_value d x = Ok y ->
  (y = PNone /\ SegmentDefinition.required d = false)
  \/ exists n, 0 <= n /\ y = PInt n.
Proof.
  intros Hd H. destruct (dotted_inv Hd) as [Hf _].
  unfold SegmentDefinition.validate_value in H. rewrite Hf in H.
  destruct (is_none x) eqn:Ex.
  - left. unfold SegmentDefinition.required.
    destruct (negb (SegmentDefinition.optional d)
              && is_none (SegmentDefinition.default d));
      [discriminate H |].
    injection H as <-. destruct x; try discriminate Ex.
    split; reflexivity.
  - right. apply validate_value_default in H. destruct H as [s Hs].
    apply (@validate_default_sound (PStr s) y). exact Hs.
Qed.

Lemma validate_dotted_decimal (d : SegmentDefinition.t) (n : Z) :
  dotted d -> 0 <= n ->
  SegmentDefinition.validate_value d (PStr (str_of_int n)) = Ok (PInt n).
Proof.
  intros Hd Hn. destruct (dotted_inv Hd) as [Hf _].
  unfold SegmentDefinition.validate_value. cbn [is_none]. rewrite Hf.
  apply (validate_decimal Hn).
Qed.

Lemma list_set_length {A : Type} (l : list A) (i : nat) (x : A) :
  length (list_set l i x) = length l.
Proof.
  revert i. induction l as [| a l IH]; intros [| i]; simpl; try reflexivity.
  rewrite IH. reflexivity.
Qed.

Lemma process_kwargs_length (idx : list (pystr * nat))
  (kwargs : list (pystr * pyval)) :
  forall a a',
    Version.process_kwargs idx kwargs a = Ok a' ->
    length (arg_values a') = length (arg_values a).
Proof.
  induction kwargs as [| [k x] kwargs IH]; intros a a' H; simpl in H.
  - injection H as <-. reflexivity.
  - destruct (lookup k idx) as [i |]; [| discriminate H].
    apply bind_ok in H. destruct H as [a1 [H1 H]].
    rewrite (IH _ _ H). destruct a as [l | l]; simpl in H1; [discriminate H1 |].
    destruct (i <? length l)%nat; [| discriminate H1].
    injection H1 as <-. apply list_set_length.
Qed.

(** What [Version.new] returns for a scheme of dotted whole numbers: as
    many values as segments, each a whole number, or [None] where the
    segment does not require a value. *)
Lemma new_dotted_items (c : VersionClass) (defs : list SegmentDefinition.t)
  (args : list pyval) (kwargs : list (pystr * pyval)) (v : Version.t) :
  Version._get_definitions c = Ok defs ->
  defs <> [] ->
  Forall dotted defs ->
  Version.new c args kwargs = Ok v ->
  Version.cls v = c
  /\ length (Version.items v) = length defs
  /\ (forall i d x,
        nth_error defs i = Some d ->
        nth_error (Version.items v) i = Some x ->
        (x = PNone /\ SegmentDefinition.required d = false)
        \/ exists n, 0 <= n /\ x = PInt n).
Proof.
  intros Hdefs Hne Hd H. unfold Version.new in H. rewrite Hdefs in H.
  cbn [bind] in H.
  apply bind_ok in H. destruct H as [a [Ha H]].
  apply bind_ok in H. destruct H as [a' [Ha' H]].
  cbv zeta in H.
  apply bind_ok in H. destruct H as [ys [Hys H]].
  apply bind_ok in H. destruct H as [_ [_ H]]. injection H as <-.
  cbn [Version.cls Version.items].
  assert (Hla : length (arg_values a) = length defs).
  { destruct defs as [| d0 ds]; [contradiction Hne; reflexivity |].
    assert (Hpos : forall l,
               (if (length (d0 :: ds) <? length l)%nat
                then Raise (ValueError TooManySegmentValues)
                else Ok (ArgList (l ++ repeat PNone (length (d0 :: ds)
                                                     - length l)))) = Ok a ->
               length (arg_values a) = length (d0 :: ds)).
    { intros l Hl. remember (length (d0 :: ds)) as n eqn:En.
      destruct (Nat.ltb_spec n (length l)) as [L | L];
        [discriminate Hl |].
      injection Hl as <-. cbn [arg_values].
      rewrite length_app, repeat_length. lia. }
    destruct args as [| x [| y l]].
    - apply (Hpos [] Ha).
    - destruct x as [| z | s | t];
        try (apply (Hpos [_] Ha)).
      apply bind_ok in Ha. destruct Ha as [re [Hre Ha]].
      rewrite (get_re_ok c Hdefs) in Hre. injection Hre as <-.
      destruct (re_match _ s) as [m |]; [| discriminate Ha].
      injection Ha as <-. cbn [arg_values]. unfold groups.
      pose proof (group_names_grammar Hd) as Hg.
      cbn [Version.re_segments cat_all app] in Hg.
      rewrite Hg, !length_map, length_seq. reflexivity.
    - destruct x; apply (Hpos (_ :: y :: l) Ha). }
  assert (Hla' : length (arg_values a') = length defs)
    by (rewrite (process_kwargs_length _ _ _ Ha'); exact Hla).
  pose proof (mapM_length _ _ Hys) as Hl. rewrite length_seq, Hla' in Hl.
  split; [reflexivity |]. split; [exact Hl |].
  intros i d x Hdi Hxi.
  assert (Hi : (i < length defs)%nat)
    by (apply nth_error_Some; rewrite Hdi; discriminate).
  destruct (mapM_nth _ _ i Hys (x := i)) as [y [Hy Hf]].
  { rewrite Hla'. apply (nth_error_seq 0 Hi). }
  rewrite Hxi in Hy. injection Hy as <-.
  rewrite (definition_at_nth _ _ Hdi) in Hf. cbn [bind] in Hf.
  apply bind_ok in Hf. destruct Hf as [xa [_ Hf]].
  rewrite Forall_forall in Hd.
  apply (@validate_dotted_sound d xa x (Hd d (nth_error_In _ _ Hdi)) Hf).
Qed.

Lemma prefix_of_closed (f : nat -> bool) (n : nat) :
  (forall i j, (i < j)%nat -> (j < n)%nat -> f i = true -> f j = true) ->
  exists k, (k <= n)%nat
            /\ (forall i, (i < k)%nat -> f i = false)
            /\ (forall i, (k <= i)%nat -> (i < n)%nat -> f i = true).
Proof.
  induction n as [| n IH]; intros H.
  - exists 0%nat. repeat split; intros; lia.
  - destruct IH as [k [Hk [H1 H2]]].
    { intros i j Hij Hj. apply H; lia. }
    destruct (f n) eqn:E.
    + exists k. split; [lia |]. split; [exact H1 |].
      intros i Hi1 Hi2. destruct (Nat.eq_dec i n) as [-> | Hne];
        [exact E | apply H2; lia].
    + assert (Hkn : k = n).
      { destruct (Nat.eq_dec k n) as [-> | Hne]; [reflexivity |].
        assert (Hfk : f k = true) by (apply H2; lia).
        rewrite (H k n ltac:(lia) ltac:(lia) Hfk) in E. discriminate E. }
      subst k. exists (S n). split; [lia |]. split.
      * intros i Hi. destruct (Nat.eq_dec i n) as [-> | Hne];
          [exact E | apply H1; lia].
      * intros i Hi1 Hi2. lia.
Qed.

Lemma fold_append_segment_join (sep : pystr) (ts : list pystr) :
  Forall (fun t => t <> []) ts ->
  fold_left (append_segment sep) ts [] = join sep ts.
Proof.
  intros F. destruct ts as [| t ts]; [reflexivity |].
  inversion F as [| t' ts' Ht Fts]; subst.
  cbn [fold_left]. unfold append_segment at 2.
  cbn [length Nat.ltb Nat.leb app].
  apply fold_append_segment; assumption.
Qed.

Lemma nth_error_combine_some {A B : Type} (l : list A) (m : list B) (i : nat)
  (x : A) (y : B) :
  nth_error l i = Some x -> nth_error m i = Some y ->
  nth_error (combine l m) i = Some (x, y).
Proof.
  revert m i. induction l as [| a l IH]; intros [| b m] [| i] Hx Hy;
    try discriminate Hx; try discriminate Hy; simpl in *.
  - injection Hx as ->. injection Hy as ->. reflexivity.
  - apply IH; assumption.
Qed.

Lemma cooked_values_table (u : Version.t) (defs : list SegmentDefinition.t) :
  defs <> [] ->
  cooked_values u defs
  = map (fun vd => Version.get (fst vd) (snd vd))
        (combine (Version.items u) defs).
Proof.
  intros H. unfold cooked_values.
  destruct defs; [contradiction H; reflexivity | reflexivity].
Qed.

Lemma nth_cooked (u : Version.t) (defs : list SegmentDefinition.t) (i : nat)
  (d : SegmentDefinition.t) (x : pyval) :
  defs <> [] ->
  nth_error defs i = Some d ->
  nth_error (Version.items u) i = Some x ->
  nth_error (cooked_values u defs) i = Some (Version.get x d).
Proof.
  intros Hne Hd Hx. rewrite (cooked_values_table u Hne), nth_error_map.
  rewrite (nth_error_combine_some _ _ _ Hx Hd). reflexivity.
Qed.

Lemma cooked_values_length (u : Version.t) (defs : list SegmentDefinition.t) :
  defs <> [] ->
  length (cooked_values u defs)
  = Nat.min (length (Version.items u)) (length defs).
Proof.
  intros Hne. rewrite (cooked_values_table u Hne), length_map, length_combine.
  reflexivity.
Qed.

Section DottedVersion.

Variable v : Version.t.
Variable defs : list SegmentDefinition.t.
Variable k : nat.

Hypothesis Hdefs : Version._get_definitions (Version.cls v) = Ok defs.
Hypothesis Hne : defs <> [].
Hypothesis Hdot : Forall dotted defs.
Hypothesis Hlen : length (Version.items v) = length defs.
Hypothesis Hvalid :
  forall i d x,
    nth_error defs i = Some d ->
    nth_error (Version.items v) i = Some x ->
    (x = PNone /\ SegmentDefinition.required d = false)
    \/ exists n, 0 <= n /\ x = PInt n.
Hypothesis Hk : (k <= length defs)%nat.
Hypothesis Hrendered : forall i, (i < k)%nat -> omitted v defs i = false.
Hypothesis Homitted :
  forall i, (k <= i)%nat -> (i < length defs)%nat -> omitted v defs i = true.
Hypothesis Hvalidate : forall l, validate (Version.cls v) l = Ok tt.

(** The numbers of the segments that are rendered. *)
Let ns : list Z := map int_of (firstn k (cooked_values v defs)).

Lemma dotted_at (i : nat) (d : SegmentDefinition.t) :
  nth_error defs i = Some d -> dotted d.
Proof.
  intros H. rewrite Forall_forall in Hdot. apply Hdot.
  apply (nth_error_In _ _ H).
Qed.

Lemma segment_at (i : nat) :
  (i < length defs)%nat ->
  exists d x, nth_error defs i = Some d
              /\ nth_error (Version.items v) i = Some x.
Proof.
  intros Hi.
  destruct (nth_error defs i) as [d |] eqn:Ed;
    [| apply nth_error_None in Ed; lia].
  destruct (nth_error (Version.items v) i) as [x |] eqn:Ex;
    [| apply nth_error_None in Ex; lia].
  exists d, x. split; reflexivity.
Qed.

Lemma cooked_value_dotted (i : nat) (d : SegmentDefinition.t) (x : pyval) :
  nth_error defs i = Some d ->
  nth_error (Version.items v) i = Some x ->
  (Version.get x d = PNone /\ x = PNone
   /\ SegmentDefinition.optional d = true)
  \/ exists n, 0 <= n /\ Version.get x d = PInt n.
Proof.
  intros Hd Hx.
  destruct (Hvalid i Hd Hx) as [[-> Hr] | [n [Hn ->]]].
  - unfold Version.get. cbn [is_none].
    destruct (dotted_inv (dotted_at i Hd)) as [_ [_ [E | [m [Hm E]]]]].
    + left. rewrite E. split; [reflexivity |]. split; [reflexivity |].
      unfold SegmentDefinition.required in Hr. rewrite E in Hr.
      destruct (SegmentDefinition.optional d);
        [reflexivity | discriminate Hr].
    + right. exists m. split; [exact Hm | exact E].
  - right. exists n. split; [exact Hn | reflexivity].
Qed.

Lemma omitted_raw (i : nat) (d : SegmentDefinition.t) (x : pyval) :
  nth_error defs i = Some d ->
  nth_error (Version.items v) i = Some x ->
  omitted v defs i = true ->
  x = PNone /\ SegmentDefinition.optional d = true.
Proof.
  intros Hd Hx H. unfold omitted in H. rewrite Hd, Hx in H.
  apply andb_true_iff in H. destruct H as [Ho H].
  split; [| exact Ho].
  destruct x; try reflexivity; discriminate H.
Qed.

Lemma rendered_number (i : nat) :
  (i < k)%nat ->
  exists d x n,
    nth_error defs i = Some d
    /\ nth_error (Version.items v) i = Some x
    /\ 0 <= n
    /\ Version.get x d = PInt n
    /\ nth_error ns i = Some n.
Proof.
  intros Hi. destruct (@segment_at i ltac:(lia)) as [d [x [Hd Hx]]].
  destruct (cooked_value_dotted i Hd Hx) as [[Hg [-> Ho]] | [n [Hn Hg]]].
  - pose proof (Hrendered Hi) as E. unfold omitted in E.
    rewrite Hd, Hx, Ho, Hg in E. discriminate E.
  - exists d, x, n. repeat split; try assumption.
    unfold ns. rewrite nth_error_map, nth_error_firstn.
    destruct (Nat.ltb_spec i k) as [_ | L]; [| lia].
    rewrite (nth_cooked v i Hne Hd Hx), Hg. reflexivity.
Qed.

Lemma ns_length : length ns = k.
Proof.
  unfold ns. rewrite length_map, length_firstn.
  rewrite (cooked_values_length v Hne). lia.
Qed.

Lemma ns_nonneg : Forall (fun n => 0 <= n) ns.
Proof.
  apply Forall_forall. intros n Hn.
  apply In_nth_error in Hn. destruct Hn as [i Hi].
  assert (Hik : (i < k)%nat).
  { rewrite <- ns_length. apply nth_error_Some. rewrite Hi. discriminate. }
  destruct (rendered_number Hik) as [d [x [n' [_ [_ [Hn' [_ E]]]]]]].
  rewrite Hi in E. injection E as ->. exact Hn'.
Qed.

(** The body of the loop of [render], for each segment. *)
Lemma render_segment_dotted (i : nat) (d : SegmentDefinition.t) (x : pyval)
  (acc : pystr) :
  nth_error defs i = Some d ->
  nth_error (Version.items v) i = Some x ->
  Version.render_segment v defs [] default_exclude_callbacks acc i
  = Ok (if omitted v defs i then acc
        else append_segment DEFAULT_SEGMENT_SEPARATOR acc
               (py_str (Version.get x d))).
Proof.
  intros Hd Hx. destruct (dotted_inv (dotted_at i Hd)) as [Hf [Hs _]].
  unfold Version.render_segment. rewrite Hd. cbn [bind].
  rewrite (getitem_index v i Hdefs (definition_at_nth _ _ Hd) Hx).
  cbn [bind]. unfold omitted. rewrite Hd, Hx.
  unfold default_exclude_callbacks. cbn [Version.some_affirmative bind negb].
  rewrite (exclude_defaults_callback_value v i Hdefs
             (definition_at_nth _ _ Hd) Hx).
  unfold SegmentDefinition.render, append_segment. rewrite Hf, Hs.
  destruct (SegmentDefinition.optional d);
    destruct (is_none (Version.get x d));
    destruct (is_none x);
    destruct (forallb is_none (skipn (S i) (Version.items v)));
    reflexivity.
Qed.

Lemma render_loop_rendered :
  forall (m i : nat) (acc : pystr),
    (i + m <= k)%nat ->
    Version.render_loop v defs [] default_exclude_callbacks (seq i m) acc
    = Ok (fold_left (append_segment DEFAULT_SEGMENT_SEPARATOR)
            (map str_of_int (firstn m (skipn i ns))) acc).
Proof.
  induction m as [| m IH]; intros i acc H.
  - reflexivity.
  - destruct (@rendered_number i ltac:(lia))
      as [d [x [n [Hd [Hx [Hn [Hg Hns]]]]]]].
    cbn [seq Version.render_loop].
    rewrite (render_segment_dotted i acc Hd Hx).
    rewrite (Hrendered (i := i)) by lia. rewrite Hg. cbn [bind py_str py_repr].
    rewrite IH by lia.
    rewrite (skipn_nth_error _ _ Hns). reflexivity.
Qed.

Lemma str_dotted :
  Version.__str__ v
  = Ok (join DEFAULT_SEGMENT_SEPARATOR (map str_of_int ns)).
Proof.
  unfold Version.__str__. rewrite (render_default v Hdefs Hne).
  rewrite Hlen.
  replace (length defs) with (k + (length defs - k))%nat at 1 by lia.
  rewrite seq_app, render_loop_app.
  rewrite render_loop_rendered by lia. cbn [bind skipn Nat.add].
  assert (Hfn : firstn k ns = ns).
  { pose proof ns_length as E. rewrite <- E at 1. apply firstn_all. }
  rewrite Hfn. rewrite render_loop_skips.
  - rewrite fold_append_segment_join; [reflexivity |].
    apply Forall_forall. intros t Ht. apply in_map_iff in Ht.
    destruct Ht as [n [<- Hn]].
    pose proof ns_nonneg as F. rewrite Forall_forall in F.
    apply (str_of_int_digits (F n Hn)).
  - intros i Hi. apply in_seq in Hi.
    destruct (@segment_at i ltac:(lia)) as [d [x [Hd Hx]]].
    rewrite (render_segment_dotted i _ Hd Hx).
    rewrite Homitted by lia. reflexivity.
Qed.

Lemma trailing_not_required :
  Forall (fun d => SegmentDefinition.required d = false)
         (skipn (length ns) defs).
Proof.
  rewrite ns_length. apply Forall_forall. intros d Hd.
  apply In_nth_error in Hd. destruct Hd as [j Hj].
  rewrite nth_error_skipn in Hj.
  assert (Hlt : (k + j < length defs)%nat)
    by (apply nth_error_Some; rewrite Hj; discriminate).
  destruct (segment_at Hlt) as [d' [x [Hd' Hx]]].
  rewrite Hj in Hd'. injection Hd' as <-.
  destruct (omitted_raw (k + j) Hj Hx (@Homitted (k + j)%nat ltac:(lia) Hlt))
    as [_ Ho].
  unfold SegmentDefinition.required. rewrite Ho. reflexivity.
Qed.

(** The version that the text is read as. *)
Let read_back : Version.t :=
  {| Version.cls := Version.cls v;
     Version.items := map PInt ns ++ repeat PNone (length defs - k) |}.

Lemma new_dotted_text :
  Version.new (Version.cls v)
    [PStr (join DEFAULT_SEGMENT_SEPARATOR (map str_of_int ns))] []
  = Ok read_back.
Proof.
  destruct (@grammar_match (Version.cls v) defs ns Hdefs Hdot ns_nonneg
              ltac:(rewrite ns_length; exact Hk) trailing_not_required)
    as [re [m [Hre [Hm [Hgl Hg]]]]].
  unfold Version.new. rewrite Hdefs. cbn [bind].
  assert (Hargs :
            match defs with
            | [] => Ok (ArgList (map PStr
                       (split_on "."%char
                          (join DEFAULT_SEGMENT_SEPARATOR (map str_of_int ns)))))
            | _ :: _ =>
                re <- Version._get_re (Version.cls v) ;;
                match re_match re (join DEFAULT_SEGMENT_SEPARATOR
                                     (map str_of_int ns)) with
                | Some m => Ok (ArgTuple (groups re m))
                | None => Raise (ValueError VersionStringDoesNotMatch)
                end
            end = Ok (ArgTuple (groups re m))).
  { destruct defs as [| d0 ds]; [contradiction Hne; reflexivity |].
    rewrite Hre. cbn [bind]. rewrite Hm. reflexivity. }
  rewrite Hargs.
  cbn [bind Version.process_kwargs arg_values]. cbv zeta.
  rewrite Hgl.
  assert (Hil : length (Version.items read_back) = length defs).
  { cbn [read_back Version.items].
    rewrite length_app, length_map, repeat_length, ns_length. lia. }
  rewrite <- Hil.
  rewrite (@mapM_seq pyval pyval _ (fun x => x) (Version.items read_back) 0).
  - cbn [bind]. rewrite map_id, Hvalidate. reflexivity.
  - intros i y Hy. cbn [Nat.add].
    assert (Hi : (i < length defs)%nat)
      by (rewrite <- Hil; apply nth_error_Some; rewrite Hy; discriminate).
    destruct (segment_at Hi) as [d [x [Hd Hx]]].
    rewrite (definition_at_nth _ _ Hd). cbn [bind py_getitem].
    rewrite (Hg i Hi). cbn [read_back Version.items] in Hy.
    destruct (Nat.lt_ge_cases i k) as [L | L].
    + rewrite nth_error_app1 in Hy by (rewrite length_map, ns_length; exact L).
      rewrite nth_error_map in Hy.
      destruct (nth_error ns i) as [n |] eqn:En; [| discriminate Hy].
      injection Hy as <-. cbn [bind].
      apply (validate_dotted_decimal (dotted_at i Hd)).
      pose proof ns_nonneg as F. rewrite Forall_forall in F.
      apply F. apply (nth_error_In _ _ En).
    + rewrite nth_error_app2 in Hy by (rewrite length_map, ns_length; exact L).
      apply nth_error_In, repeat_spec in Hy. subst y.
      assert (En : nth_error ns i = None)
        by (apply nth_error_None; rewrite ns_length; exact L).
      rewrite En. cbn [bind].
      destruct (omitted_raw i Hd Hx (Homitted L Hi)) as [_ Ho].
      unfold SegmentDefinition.validate_value. cbn [is_none].
      rewrite Ho. reflexivity.
Qed.

Lemma read_back_cooked :
  cooked_values read_back defs = cooked_values v defs.
Proof.
  apply nth_error_ext. intros i.
  destruct (Nat.lt_ge_cases i (length defs)) as [Hi | Hi].
  - destruct (segment_at Hi) as [d [x [Hd Hx]]].
    rewrite (nth_cooked v i Hne Hd Hx).
    destruct (Nat.lt_ge_cases i k) as [L | L].
    + destruct (rendered_number L) as [d' [x' [n [Hd' [Hx' [_ [Hg Hn]]]]]]].
      rewrite Hd in Hd'. injection Hd' as <-.
      rewrite Hx in Hx'. injection Hx' as <-.
      rewrite (@nth_cooked read_back defs i d (PInt n) Hne Hd).
      * rewrite Hg. reflexivity.
      * cbn [read_back Version.items].
        rewrite nth_error_app1 by (rewrite length_map, ns_length; exact L).
        rewrite nth_error_map, Hn. reflexivity.
    + destruct (omitted_raw i Hd Hx (@Homitted i L Hi)) as [-> _].
      rewrite (@nth_cooked read_back defs i d PNone Hne Hd).
      * reflexivity.
      * cbn [read_back Version.items].
        rewrite nth_error_app2 by (rewrite length_map, ns_length; exact L).
        apply nth_error_repeat. rewrite length_map, ns_length. lia.
  - assert (E1 : nth_error (cooked_values v defs) i = None).
    { apply nth_error_None. rewrite (cooked_values_length v Hne). lia. }
    assert (E2 : nth_error (cooked_values read_back defs) i = None).
    { apply nth_error_None. rewrite (cooked_values_length read_back Hne). lia. }
    rewrite E1, E2. reflexivity.
Qed.

Lemma round_trip_dotted_version :
  exists s v',
    Version.__str__ v = Ok s
    /\ Version.new (Version.cls v) [PStr s] [] = Ok v'
    /\ __eq__ v' (AVersion v) = Ok true.
Proof.
  exists (join DEFAULT_SEGMENT_SEPARATOR (map str_of_int ns)), read_back.
  split; [exact str_dotted |]. split; [exact new_dotted_text |].
  unfold __eq__.
  rewrite (@cooked_ok read_back defs Hdefs), (cooked_ok v Hdefs).
  cbn [bind]. rewrite read_back_cooked, py_eq_refl. reflexivity.
Qed.

End DottedVersion.

(** Every version of a scheme of dotted whole numbers is read back from
    its text as an equal version, when the segments that are left out
    of the text are the last ones. *)
Lemma round_trip_dotted (c : VersionClass) (defs : list SegmentDefinition.t)
  (args : list pyval) (kwargs : list (pystr * pyval)) (v : Version.t) :
  Version._get_definitions c = Ok defs ->
  defs <> [] ->
  Forall dotted defs ->
  (forall l, validate c l = Ok tt) ->
  Version.new c args kwargs = Ok v ->
  (forall i j, (i < j)%nat -> (j < length defs)%nat ->
               omitted v defs i = true -> omitted v defs j = true) ->
  exists s v',
    Version.__str__ v = Ok s
    /\ Version.new c [PStr s] [] = Ok v'
    /\ __eq__ v' (AVersion v) = Ok true.
Proof.
  intros Hdefs Hne Hdot Hval Hnew Hclosed.
  destruct (@new_dotted_items c defs args kwargs v Hdefs Hne Hdot Hnew)
    as [Hc [Hlen Hvalid]].
  destruct (@prefix_of_closed (omitted v defs) (length defs) Hclosed)
    as [k [Hk [H1 H2]]].
  subst c.
  apply (@round_trip_dotted_version v defs k Hdefs Hne Hdot Hlen Hvalid Hk
           H1 H2 Hval).
Qed.

(** ** C2: from a version to its text and back *)

(** C2 (amended), X2.  A version that the constructor returns has a text,
    and the constructor called on that text returns a version equal to
    it, for the scheme without a table (any number of whole numbers
    separated by dots) and for every scheme whose segments are whole
    numbers after dots, each of them optional or not and with or
    without a default, and whose [validate] accepts every version,
    when no segment that is left out of the text comes before one that
    is in it. *)
Theorem round_trip :
  (forall args kwargs v,
     Version.new VersionBase args kwargs = Ok v ->
     exists s,
       Version.__str__ v = Ok s
       /\ Version.new VersionBase [PStr s] [] = Ok v
       /\ __eq__ v (AVersion v) = Ok true)
  /\ (forall c defs args kwargs v,
        Version._get_definitions c = Ok defs ->
        defs <> [] ->
        Forall dotted defs ->
        (forall l, validate c l = Ok tt) ->
        Version.new c args kwargs = Ok v ->
        (forall i j, (i < j)%nat -> (j < length defs)%nat ->
                     omitted v defs i = true -> omitted v defs j = true) ->
        exists s v',
          Version.__str__ v = Ok s
          /\ Version.new c [PStr s] [] = Ok v'
          /\ __eq__ v' (AVersion v) = Ok true).
Proof.
  split.
  - intros args kwargs v H. apply (round_trip_base _ _ H).
  - intros c defs args kwargs v. apply round_trip_dotted.
Qed.

Lemma round_trip_witness :
  (exists s,
     Version.__str__ version_3_4_1 = Ok s
     /\ Version.new VersionBase [PStr s] [] = Ok version_3_4_1
     /\ __eq__ version_3_4_1 (AVersion version_3_4_1) = Ok true)
  /\ (exists s v',
        Version.__str__ python_3_4 = Ok s
        /\ Version.new PythonMicroVersion [PStr s] [] = Ok v'
        /\ __eq__ v' (AVersion python_3_4) = Ok true).
Proof.
  split.
  - apply (proj1 round_trip [PInt 3; PInt 4; PInt 1] [] version_3_4_1).
    reflexivity.
  - apply (proj2 round_trip PythonMicroVersion
             (SEGMENT_DEFINITIONS PythonMicroVersion) [PInt 3; PInt 4] []
             python_3_4).
    + reflexivity.
    + discriminate.
    + repeat constructor.
      * exists false, PNone, None. reflexivity.
      * exists false, PNone, None. reflexivity.
      * exists true, PNone, None. reflexivity.
    + intros l. reflexivity.
    + reflexivity.
    + intros i j Hij Hj Hi.
      destruct i as [| [| [| i]]]; try (vm_compute in Hi; discriminate Hi);
        simpl in Hj; lia.
Defined.

(** C2 as stated fails for a scheme that leaves no segment out at all:
    in the scheme of two whole numbers with nothing between them,
    [JuxtaposedVersion(1, 23)] has the text "123", which is read back
    as (12, 3). *)
Lemma round_trip_counterexample :
  exists v s v',
    Version.new JuxtaposedVersion [PInt 1; PInt 23] [] = Ok v
    /\ Version.__str__ v = Ok s
    /\ Version.new JuxtaposedVersion [PStr s] [] = Ok v'
    /\ Version.cooked v = Ok (PTuple [PInt 1; PInt 23])
    /\ Version.cooked v' = Ok (PTuple [PInt 12; PInt 3])
    /\ __eq__ v' (AVersion v) = Ok false.
Proof.
  exists {| Version.cls := JuxtaposedVersion;
            Version.items := [PInt 1; PInt 23] |}.
  exists (lit "123").
  exists {| Version.cls := JuxtaposedVersion;
            Version.items := [PInt 12; PInt 3] |}.
  repeat split; vm_compute; reflexivity.
Qed.

(* ================================================================= *)
(** * More properties of the code *)

(** ** The order of versions of whole numbers *)

Lemma all_int_map (l : list pyval) :
  forallb is_int l = true -> exists xs, l = map PInt xs.
Proof.
  induction l as [| x l IH]; intros H.
  - exists []. reflexivity.
  - simpl in H. apply andb_true_iff in H. destruct H as [Hx Hl].
    destruct (IH Hl) as [xs ->]. destruct x; try discriminate Hx.
    exists (z :: xs). reflexivity.
Qed.

Lemma py_eq_int (x y : Z) : py_eq (PInt x) (PInt y) = (x =? y).
Proof. reflexivity. Qed.

Lemma py_lt_int (x y : Z) : py_lt (PInt x) (PInt y) = Ok (x <? y).
Proof. reflexivity. Qed.

Lemma py_lt_ints_trans (xs : list Z) :
  forall ys zs,
    py_lt (PTuple (map PInt xs)) (PTuple (map PInt ys)) = Ok true ->
    py_lt (PTuple (map PInt ys)) (PTuple (map PInt zs)) = Ok true ->
    py_lt (PTuple (map PInt xs)) (PTuple (map PInt zs)) = Ok true.
Proof.
  induction xs as [| x xs IH]; intros [| y ys] [| z zs] H1 H2;
    try discriminate H1; try discriminate H2; try reflexivity.
  cbn [map] in H1, H2 |- *.
  rewrite py_lt_tuple_cons, py_eq_int, py_lt_int in H1, H2 |- *.
  destruct (Z.eqb_spec x y) as [Exy | Exy];
    destruct (Z.eqb_spec y z) as [Eyz | Eyz];
    destruct (Z.eqb_spec x z) as [Exz | Exz]; try lia.
  - apply (IH _ _ H1 H2).
  - injection H2 as H2. apply Z.ltb_lt in H2.
    f_equal. apply Z.ltb_lt. lia.
  - injection H1 as H1. apply Z.ltb_lt in H1.
    f_equal. apply Z.ltb_lt. lia.
  - injection H1 as H1. injection H2 as H2.
    apply Z.ltb_lt in H1, H2. lia.
  - injection H1 as H1. injection H2 as H2.
    apply Z.ltb_lt in H1, H2. f_equal. apply Z.ltb_lt. lia.
Qed.

Lemma py_lt_tuple_irrefl (l : list pyval) :
  py_lt (PTuple l) (PTuple l) = Ok false.
Proof.
  induction l as [| x l IH]; [reflexivity |].
  rewrite py_lt_tuple_cons, py_eq_refl. exact IH.
Qed.

Lemma lt_cooked (a b : Version.t) (da db : list SegmentDefinition.t) :
  Version._get_definitions (Version.cls a) = Ok da ->
  Version._get_definitions (Version.cls b) = Ok db ->
  __lt__ a (AVersion b)
  = (r <- py_lt (PTuple (cooked_values a da)) (PTuple (cooked_values b db)) ;;
     Ok (Truth r)).
Proof.
  intros Ha Hb. unfold __lt__.
  rewrite (cooked_ok a Ha), (cooked_ok b Hb). reflexivity.
Qed.

(** X3.  On the versions of one scheme whose cooked values are all
    integers, [<] is a strict order: no version is less than itself,
    [a < b] and [b < c] give [a < c], and [a < b] excludes [b < a]; it
    never raises. *)
Theorem integer_versions_strict_order (a b c : Version.t)
  (defs : list SegmentDefinition.t) :
  Version._get_definitions (Version.cls a) = Ok defs ->
  Version.cls b = Version.cls a ->
  Version.cls c = Version.cls a ->
  forallb is_int (cooked_values a defs) = true ->
  forallb is_int (cooked_values b defs) = true ->
  forallb is_int (cooked_values c defs) = true ->
  __lt__ a (AVersion a) = Ok (Truth false)
  /\ (exists r, __lt__ a (AVersion b) = Ok (Truth r))
  /\ (__lt__ a (AVersion b) = Ok (Truth true) ->
      __lt__ b (AVersion c) = Ok (Truth true) ->
      __lt__ a (AVersion c) = Ok (Truth true))
  /\ (__lt__ a (AVersion b) = Ok (Truth true) ->
      __lt__ b (AVersion a) = Ok (Truth false)).
Proof.
  intros Ha Eb Ec Ia Ib Ic.
  assert (Hb : Version._get_definitions (Version.cls b) = Ok defs)
    by (rewrite Eb; exact Ha).
  assert (Hc : Version._get_definitions (Version.cls c) = Ok defs)
    by (rewrite Ec; exact Ha).
  rewrite (lt_cooked a a Ha Ha), (lt_cooked a b Ha Hb), (lt_cooked b c Hb Hc),
    (lt_cooked a c Ha Hc), (lt_cooked b a Hb Ha).
  destruct (all_int_map _ Ia) as [xs Ex].
  destruct (all_int_map _ Ib) as [ys Ey].
  destruct (all_int_map _ Ic) as [zs Ez].
  rewrite Ex, Ey, Ez. split; [| split; [| split]].
  - rewrite py_lt_tuple_irrefl. reflexivity.
  - destruct (@py_lt_all_int (map PInt xs) (map PInt ys)) as [r Hr].
    + rewrite <- Ex. exact Ia.
    + rewrite <- Ey. exact Ib.
    + exists r. rewrite Hr. reflexivity.
  - intros H1 H2.
    destruct (py_lt (PTuple (map PInt xs)) (PTuple (map PInt ys)))
      as [[] | e] eqn:E1; try discriminate H1.
    destruct (py_lt (PTuple (map PInt ys)) (PTuple (map PInt zs)))
      as [[] | e] eqn:E2; try discriminate H2.
    rewrite (py_lt_ints_trans _ _ _ E1 E2). reflexivity.
  - intros H1.
    destruct (py_lt (PTuple (map PInt xs)) (PTuple (map PInt ys)))
      as [[] | e] eqn:E1; try discriminate H1.
    assert (Hall : Forall (fun u => forall w, py_eq u w = false ->
                                             one_way_or_none u w)
                          (map PInt xs)).
    { apply Forall_forall. intros u _ w. apply py_lt_total. }
    destruct (py_lt_tuples Hall (map PInt ys)) as [He Hn].
    destruct (py_eq (PTuple (map PInt xs)) (PTuple (map PInt ys))) eqn:E.
    + destruct (He eq_refl) as [H _]. rewrite H in E1. discriminate E1.
    + destruct (Hn eq_refl) as [[_ H] | [[H _] | [H _]]];
        rewrite H in *; try discriminate E1. reflexivity.
Qed.

Lemma integer_versions_strict_order_witness :
  __lt__ python_3_4_1 (AVersion python_3_4_1) = Ok (Truth false)
  /\ __lt__ python_3_4_2 (AVersion python_3_4_1) = Ok (Truth false).
Proof.
  pose proof (@integer_versions_strict_order python_3_4_1 python_3_4_2
                python_3_4_2 _ eq_refl eq_refl eq_refl
                eq_refl eq_refl eq_refl) as [H1 [_ [_ H4]]].
  split; [exact H1 |]. apply H4. vm_compute. reflexivity.
Defined.

(** ** The callbacks of [render] *)

(** X4.  An include callback that affirms a segment takes precedence:
    the exclude callbacks are not consulted for that segment, so the
    segment is rendered as if there were none; and when the include
    callbacks affirm every segment, the whole text is the one rendered
    with no exclusion at all. *)
Theorem include_takes_precedence (v : Version.t)
  (defs : list SegmentDefinition.t) (inc exc : list Version.callback) :
  (forall i acc,
     Version.some_affirmative inc v i = Ok true ->
     Version.render_segment v defs inc exc acc i
     = Version.render_segment v defs inc [] acc i)
  /\ (forall indices acc,
        (forall i, In i indices ->
                   Version.some_affirmative inc v i = Ok true) ->
        Version.render_loop v defs inc exc indices acc
        = Version.render_loop v defs inc [] indices acc).
Proof.
  assert (Hseg : forall i acc,
             Version.some_affirmative inc v i = Ok true ->
             Version.render_segment v defs inc exc acc i
             = Version.render_segment v defs inc [] acc i).
  { intros i acc H. unfold Version.render_segment.
    destruct (nth_error defs i) as [d |]; [| reflexivity]. cbn [bind].
    destruct (Version.__getitem__ v (Index i)) as [x | e]; [| reflexivity].
    cbn [bind].
    destruct (SegmentDefinition.optional d && is_none x); [reflexivity |].
    rewrite H. reflexivity. }
  split; [exact Hseg |].
  induction indices as [| i l IH]; intros acc H; [reflexivity |].
  cbn [Version.render_loop].
  rewrite (Hseg i acc (H i (or_introl eq_refl))).
  destruct (Version.render_segment v defs inc [] acc i) as [acc' | e];
    [| reflexivity].
  cbn [bind]. apply IH. intros j Hj. apply H. right. exact Hj.
Qed.

Lemma include_takes_precedence_witness :
  Version.render_segment padded_3 (SEGMENT_DEFINITIONS PaddedVersion)
    [fun _ _ => Ok true] default_exclude_callbacks (lit "3") 1
  = Ok (lit "3.0").
Proof.
  rewrite (proj1 (@include_takes_precedence padded_3
                    (SEGMENT_DEFINITIONS PaddedVersion)
                    [fun _ _ => Ok true] default_exclude_callbacks)
                 1%nat (lit "3") eq_refl).
  vm_compute. reflexivity.
Defined.

(** ** Access by segment name *)

Lemma lookup_named_segments (defs : list SegmentDefinition.t) :
  forall (k i : nat) (d : SegmentDefinition.t) (n : pystr),
    has_duplicates (map fst (Version.named_segments defs k)) = false ->
    nth_error defs i = Some d ->
    SegmentDefinition.name d = Some n ->
    lookup n (Version.named_segments defs k) = Some (k + i)%nat
    /\ lookup n (rev (Version.named_segments defs k)) = Some (k + i)%nat.
Proof.
  assert (Hrev : forall (l : list (pystr * nat)) n x,
             has_duplicates (map fst l) = false ->
             lookup n l = Some x -> lookup n (rev l) = Some x).
  { induction l as [| [n0 x0] l IHl]; intros n x Hdup H; [discriminate H |].
    cbn [map fst has_duplicates] in Hdup. apply orb_false_iff in Hdup.
    destruct Hdup as [Hex Hdup].
    assert (Happ : forall (l1 l2 : list (pystr * nat)) m,
               lookup m (l1 ++ l2)
               = match lookup m l1 with
                 | Some y => Some y
                 | None => lookup m l2
                 end).
    { induction l1 as [| [m0 y0] l1 IH1]; intros l2 m; [reflexivity |].
      cbn [app lookup]. destruct (str_eqb m m0); [reflexivity | apply IH1]. }
    cbn [rev]. rewrite Happ. cbn [lookup] in H |- *.
    destruct (str_eqb n n0) eqn:E.
    - injection H as <-.
      destruct (lookup n (rev l)) as [y |] eqn:El; [| reflexivity].
      exfalso. apply str_eqb_eq in E. subst n0.
      assert (Hin : In n (map fst l)).
      { assert (Hl : forall (l' : list (pystr * nat)) m y,
                   lookup m l' = Some y -> In m (map fst l')).
        { induction l' as [| [m0 y0] l' IH']; intros m y' Hm;
            [discriminate Hm |].
          cbn [lookup] in Hm. destruct (str_eqb m m0) eqn:Em.
          - apply str_eqb_eq in Em. subst. left. reflexivity.
          - right. apply (IH' _ _ Hm). }
        apply Hl in El. rewrite map_rev in El. apply in_rev in El. exact El. }
      assert (Hex' : existsb (str_eqb n) (map fst l) = true).
      { apply existsb_exists. exists n. split; [exact Hin | apply str_eqb_refl]. }
      rewrite Hex' in Hex. discriminate Hex.
    - rewrite (IHl n x Hdup H). reflexivity. }
  induction defs as [| d0 ds IH]; intros k i d n Hdup Hd Hn.
  - destruct i; discriminate Hd.
  - assert (Hfirst : lookup n (Version.named_segments (d0 :: ds) k)
                     = Some (k + i)%nat).
    { cbn [Version.named_segments] in Hdup |- *.
      destruct i as [| i].
      - injection Hd as ->. rewrite Hn. cbn [lookup].
        rewrite str_eqb_refl. f_equal. lia.
      - cbn [nth_error] in Hd.
        destruct (SegmentDefinition.name d0) as [n0 |].
        + cbn [map fst has_duplicates] in Hdup.
          apply orb_false_iff in Hdup. destruct Hdup as [Hex Hdup].
          destruct (IH (S k) i d n Hdup Hd Hn) as [H1 _].
          cbn [lookup]. destruct (str_eqb n n0) eqn:E.
          * exfalso. apply str_eqb_eq in E. subst n0.
            assert (Hex' : existsb (str_eqb n)
                             (map fst (Version.named_segments ds (S k))) = true).
            { apply existsb_exists. exists n.
              split; [| apply str_eqb_refl].
              apply named_segments_in. apply in_map_iff.
              exists d. split; [exact Hn | apply (nth_error_In _ _ Hd)]. }
            rewrite Hex' in Hex. discriminate Hex.
          * rewrite H1. f_equal. lia.
        + destruct (IH (S k) i d n Hdup Hd Hn) as [H1 _].
          rewrite H1. f_equal. lia. }
    split; [exact Hfirst | apply (Hrev _ _ _ Hdup Hfirst)].
Qed.

(** X5.  Access by the name of a segment is access by its position:
    [v[name]] is [v[i]] for the segment [i] that bears the name, the
    cooked value or the same exception; a name that no segment bears
    raises [KeyError]. *)
Theorem access_by_name (v : Version.t) (defs : list SegmentDefinition.t)
  (n : pystr) :
  Version._get_definitions (Version.cls v) = Ok defs ->
  (forall i d,
     nth_error defs i = Some d -> SegmentDefinition.name d = Some n ->
     Version.__getitem__ v (Name n) = Version.__getitem__ v (Index i))
  /\ (~ In (Some n) (map SegmentDefinition.name defs) ->
      exists m, Version.__getitem__ v (Name n) = Raise (KeyError m)).
Proof.
  intros H.
  assert (Hdup : has_duplicates (map fst (Version.named_segments defs 0))
                 = false).
  { unfold Version._get_definitions in H.
    destruct (has_duplicates _) eqn:E; [discriminate H |].
    injection H as <-. exact E. }
  split.
  - intros i d Hd Hn.
    destruct (lookup_named_segments defs 0 i Hdup Hd Hn) as [H1 H2].
    cbn [Nat.add] in H1, H2.
    assert (E : Version.__getitem__ v (Name n)
                = Version.__getitem__ v (Index i)).
    { unfold Version.__getitem__, Version._get_segment_definition,
        Version.get_raw_item.
      rewrite H. cbn [bind].
      destruct defs as [| d0 ds]; [destruct i; discriminate Hd |].
      rewrite H1, H2, Hd. cbn [bind].
      destruct (py_getitem (PTuple (Version.items v)) i); reflexivity. }
    exact E.
  - intros Hnot.
    assert (Hnone : forall l k,
               ~ In (Some n) (map SegmentDefinition.name l) ->
               lookup n (Version.named_segments l k) = None
               /\ lookup n (rev (Version.named_segments l k)) = None).
    { assert (Hl : forall (l' : list (pystr * nat)),
                 ~ In n (map fst l') -> lookup n l' = None).
      { induction l' as [| [m0 y0] l' IH']; intros Hm; [reflexivity |].
        cbn [lookup]. destruct (str_eqb n m0) eqn:Em.
        - apply str_eqb_eq in Em. subst. exfalso. apply Hm. left. reflexivity.
        - apply IH'. intros Hin. apply Hm. right. exact Hin. }
      assert (Hin : forall l k, In n (map fst (Version.named_segments l k)) ->
                                In (Some n) (map SegmentDefinition.name l)).
      { induction l as [| d0 l IHl]; intros k Hi; [contradiction |].
        cbn [Version.named_segments] in Hi. cbn [map].
        destruct (SegmentDefinition.name d0) as [n0 |] eqn:E0.
        - destruct Hi as [<- | Hi]; [left; reflexivity |].
          right. apply (IHl _ Hi).
        - right. apply (IHl _ Hi). }
      intros l k Hl'. split; apply Hl; intros Hi.
      - apply Hl'. apply (Hin _ _ Hi).
      - rewrite map_rev in Hi. apply in_rev in Hi. apply Hl'.
        apply (Hin _ _ Hi). }
    destruct (Hnone defs 0%nat Hnot) as [H1 H2].
    unfold Version.__getitem__, Version._get_segment_definition,
      Version.get_raw_item.
    exists (NoSegmentWithName n).
    rewrite H. cbn [bind]. destruct defs as [| d0 ds].
    + cbn [bind Version.named_segments lookup]. reflexivity.
    + rewrite H2. reflexivity.
Qed.

Lemma access_by_name_witness :
  Version.__getitem__ {| Version.cls := NamedVersion;
                         Version.items := [PInt 3; PNone] |}
    (Name (lit "minor")) = Ok (PInt 0).
Proof.
  rewrite (proj1 (@access_by_name
                    {| Version.cls := NamedVersion;
                       Version.items := [PInt 3; PNone] |}
                    _ (lit "minor") eq_refl)
                 1%nat _ eq_refl eq_refl).
  reflexivity.
Defined.

(** ** What the constructor returns *)

Lemma new_items_validated (c : VersionClass) (defs : list SegmentDefinition.t)
  (args : list pyval) (kwargs : list (pystr * pyval)) (v : Version.t) :
  Version._get_definitions c = Ok defs ->
  Version.new c args kwargs = Ok v ->
  Version.cls v = c
  /\ validate c (Version.items v) = Ok tt
  /\ (defs = [] -> Version.items v <> [])
  /\ (forall i y,
        nth_error (Version.items v) i = Some y ->
        exists d x, Version.definition_at defs i = Ok d
                    /\ SegmentDefinition.validate_value d x = Ok y).
Proof.
  intros Hdefs H. unfold Version.new in H. rewrite Hdefs in H.
  cbn [bind] in H.
  apply bind_ok in H. destruct H as [a [Ha H]].
  apply bind_ok in H. destruct H as [a' [Ha' H]].
  cbv zeta in H.
  apply bind_ok in H. destruct H as [ys [Hys H]].
  apply bind_ok in H. destruct H as [u [Hu H]]. injection H as <-.
  cbn [Version.cls Version.items]. destruct u.
  pose proof (mapM_length _ _ Hys) as Hl. rewrite length_seq in Hl.
  split; [reflexivity |]. split; [exact Hu |]. split.
  - intros ->. intros ->. cbn [length] in Hl.
    rewrite (process_kwargs_length _ _ _ Ha') in Hl.
    destruct args as [| x [| y l]].
    + discriminate Ha.
    + destruct x; injection Ha as <-; cbn [arg_values length] in Hl;
        try discriminate Hl.
      rewrite length_map in Hl.
      destruct (split_on "."%char s) eqn:E; [| discriminate Hl].
      apply (split_on_nonempty _ _ E).
    + destruct x; injection Ha as <-; discriminate Hl.
  - intros i y Hy.
    assert (Hi : (i < length ys)%nat)
      by (apply nth_error_Some; rewrite Hy; discriminate).
    destruct (mapM_nth _ _ i Hys (x := i)) as [y' [Hy' Hf]].
    { rewrite <- Hl. apply (nth_error_seq 0 Hi). }
    rewrite Hy in Hy'. injection Hy' as <-.
    apply bind_ok in Hf. destruct Hf as [d [Hd Hf]].
    apply bind_ok in Hf. destruct Hf as [x [_ Hf]].
    exists d, x. split; assumption.
Qed.

Lemma validate_int_dotted (d : SegmentDefinition.t) (n : Z) :
  dotted d -> 0 <= n ->
  SegmentDefinition.validate_value d (PInt n) = Ok (PInt n).
Proof.
  intros Hd Hn. rewrite <- (validate_dotted_decimal Hd Hn).
  destruct (dotted_inv Hd) as [Hf _].
  unfold SegmentDefinition.validate_value. cbn [is_none]. rewrite Hf.
  unfold SegmentDefinition._validate_value.
  cbn [length Nat.ltb Nat.leb Nat.sub repeat app combine mapM bind is_none
       DEFAULT_SEGMENT_FIELD SegmentField.type SegmentField.render
       DEFAULT_FIELD_TYPE call_type py_int py_str concat].
  rewrite app_nil_r. reflexivity.
Qed.

(** ** [replace] *)

Lemma get_raw_item_all (v : Version.t) :
  Version.get_raw_item v None = Ok (PTuple (Version.items v)).
Proof.
  unfold Version.get_raw_item. cbn [bind]. rewrite Nat.sub_0_r.
  cbn [skipn]. rewrite firstn_all. reflexivity.
Qed.

Lemma dotted_value_positional (l : list pyval) :
  Forall (fun x => x = PNone \/ exists n, x = PInt n) l -> positional l.
Proof.
  intros H s E. subst l. inversion H as [| x l' [Hx | [n Hx]] _];
    discriminate Hx.
Qed.

(** X6.  In a scheme whose segments are whole numbers after a dot, or a
    scheme without a table, the raw values of a constructed version are
    accepted by the constructor again and give the same version: so
    [replace] without keywords returns an equal copy. *)
Theorem replace_nothing (c : VersionClass) (defs : list SegmentDefinition.t)
  (args : list pyval) (kwargs : list (pystr * pyval)) (v : Version.t) :
  Version._get_definitions c = Ok defs ->
  Forall dotted defs ->
  Version.new c args kwargs = Ok v ->
  Version.new c (Version.items v) [] = Ok v /\ replace v [] = Ok v.
Proof.
  intros Hdefs Hd H.
  destruct (@new_items_validated c defs args kwargs v Hdefs H) as [Hc [Hv [Hne Hit]]].
  assert (Hfix : forall i y,
             nth_error (Version.items v) i = Some y ->
             exists d, Version.definition_at defs i = Ok d
                       /\ SegmentDefinition.validate_value d y = Ok y
                       /\ (y = PNone \/ exists n, y = PInt n)).
  { intros i y Hy. destruct (Hit i y Hy) as [d [x [Hdi Hx]]].
    exists d. split; [exact Hdi |].
    assert (Hdd : dotted d).
    { unfold Version.definition_at in Hdi. destruct defs as [| d0 ds].
      - injection Hdi as <-. exists false, PNone, None. reflexivity.
      - destruct (nth_error (d0 :: ds) i) as [d' |] eqn:E;
          [| discriminate Hdi].
        injection Hdi as <-. rewrite Forall_forall in Hd.
        apply Hd. apply (nth_error_In _ _ E). }
    destruct (@validate_dotted_sound d x y Hdd Hx) as [[-> Hr] | [n [Hn ->]]].
    - split; [| left; reflexivity].
      unfold SegmentDefinition.validate_value. cbn [is_none].
      unfold SegmentDefinition.required in Hr. rewrite Hr. reflexivity.
    - split; [apply (@validate_int_dotted d n Hdd Hn) |].
      right. exists n. reflexivity. }
  assert (Hpos : positional (Version.items v)).
  { apply dotted_value_positional. apply Forall_forall. intros y Hy.
    apply In_nth_error in Hy. destruct Hy as [i Hy].
    destruct (Hfix i y Hy) as [_ [_ [_ Hy']]]. exact Hy'. }
  assert (Hm : mapM (fun i =>
                       d <- Version.definition_at defs i ;;
                       x <- py_getitem (PTuple (Version.items v)) i ;;
                       SegmentDefinition.validate_value d x)
                    (seq 0 (length (Version.items v)))
               = Ok (map (fun y => y) (Version.items v))).
  { apply mapM_seq. intros i y Hy. cbn [Nat.add].
    destruct (Hfix i y Hy) as [d [Hdi [Hy' _]]].
    rewrite Hdi. cbn [bind py_getitem]. rewrite Hy. exact Hy'. }
  rewrite map_id in Hm.
  assert (Hnew : Version.new c (Version.items v) [] = Ok v).
  { destruct v as [c' ys]. cbn [Version.cls Version.items] in *. subst c'.
    destruct defs as [| d0 ds].
    - unfold Version.new. rewrite Hdefs. cbn [bind].
      assert (Ha : match ys with
                   | [PStr string] =>
                       Ok (ArgList (map PStr (split_on "."%char string)))
                   | _ =>
                       match ys with
                       | [] => Raise (ValueError ValuesRequired)
                       | _ => Ok (ArgList ys)
                       end
                   end = Ok (ArgList ys)).
      { destruct ys as [| x [| y l]].
        - contradiction (Hne eq_refl). reflexivity.
        - destruct x; try reflexivity.
          contradiction (Hpos s). reflexivity.
        - destruct x; reflexivity. }
      rewrite Ha. cbn [bind Version.process_kwargs arg_values].
      rewrite Hm. cbn [bind]. rewrite Hv. reflexivity.
    - rewrite (@new_positional c d0 ds ys [] Hdefs Hpos).
      assert (Hlen : length ys = length (d0 :: ds)).
      { assert (Hne' : d0 :: ds <> []) by discriminate.
        destruct (@new_dotted_items c (d0 :: ds) args kwargs _ Hdefs Hne' Hd H) as [_ [Hl _]].
        exact Hl. }
      rewrite Hlen, Nat.ltb_irrefl, Nat.sub_diag. cbn [repeat].
      rewrite app_nil_r.
      cbn [bind Version.process_kwargs arg_values].
      rewrite Hm. cbn [bind]. rewrite Hv. reflexivity. }
  split; [exact Hnew |].
  unfold replace. rewrite get_raw_item_all. cbn [bind replace_values fst snd].
  rewrite Hc. exact Hnew.
Qed.

Lemma replace_nothing_witness :
  replace python_3_4 [] = Ok python_3_4.
Proof.
  refine (proj2 (@replace_nothing PythonMicroVersion _ [PStr (lit "3.4")] []
                   python_3_4 eq_refl _ _)).
  - repeat (apply Forall_cons || apply Forall_nil);
      first [ exists false, PNone, None; reflexivity
            | exists true, PNone, None; reflexivity ].
  - reflexivity.
Defined.

Lemma get_definitions_unique (c : VersionClass)
  (defs : list SegmentDefinition.t) :
  Version._get_definitions c = Ok defs ->
  has_duplicates (map fst (Version.named_segments defs 0)) = false.
Proof.
  intros H. unfold Version._get_definitions in H.
  destruct (has_duplicates _) eqn:E; [discriminate H |].
  injection H as <-. exact E.
Qed.

Lemma list_set_twice {A : Type} (l p : list A) (x y : A) :
  forall i, (i < length l)%nat ->
            list_set (list_set l i x ++ p) i y = list_set (l ++ p) i y.
Proof.
  induction l as [| a l IH]; intros i Hi; [cbn [length] in Hi; lia |].
  destruct i as [| i]; cbn [list_set app]; [reflexivity |].
  rewrite IH; [reflexivity | cbn [length] in Hi; lia].
Qed.

Lemma long_positional (l : list pyval) :
  (2 <= length l)%nat -> positional l.
Proof. intros H s E. subst l. cbn [length] in H. lia. Qed.

(** X7.  In [replace], a keyword that is a segment's name takes
    precedence over a keyword that is the underscore and the index of
    that segment, whatever the order of the two. *)
Theorem replace_name_precedence (v : Version.t)
  (defs : list SegmentDefinition.t) (d : SegmentDefinition.t)
  (k n : pystr) (i : nat) (x y : pyval) :
  Version._get_definitions (Version.cls v) = Ok defs ->
  nth_error defs i = Some d ->
  SegmentDefinition.name d = Some n ->
  index_keyword k = Some i ->
  index_keyword n = None ->
  (i < length (Version.items v))%nat ->
  (2 <= length (Version.items v))%nat ->
  replace v [(k, x); (n, y)] = replace v [(n, y)]
  /\ replace v [(n, y); (k, x)] = replace v [(n, y)].
Proof.
  intros Hdefs Hd Hn Hk Hnk Hi H2.
  assert (Hvals : replace_values [(k, x); (n, y)] (Version.items v)
                  = Ok (list_set (Version.items v) i x, [(n, y)])
                  /\ replace_values [(n, y); (k, x)] (Version.items v)
                     = Ok (list_set (Version.items v) i x, [(n, y)])
                  /\ replace_values [(n, y)] (Version.items v)
                     = Ok (Version.items v, [(n, y)])).
  { apply Nat.ltb_lt in Hi. cbn [replace_values].
    rewrite Hk, Hnk, Hi. cbn [bind fst snd]. repeat split; reflexivity. }
  destruct Hvals as [V1 [V2 V3]].
  assert (E : Version.new (Version.cls v) (list_set (Version.items v) i x)
                [(n, y)]
              = Version.new (Version.cls v) (Version.items v) [(n, y)]).
  { destruct defs as [| d0 ds]; [destruct i; discriminate Hd |].
    rewrite (@new_positional (Version.cls v) d0 ds
               (list_set (Version.items v) i x) [(n, y)] Hdefs);
      [| apply long_positional; rewrite list_set_length; exact H2].
    rewrite (@new_positional (Version.cls v) d0 ds (Version.items v)
               [(n, y)] Hdefs); [| apply long_positional; exact H2].
    rewrite list_set_length.
    destruct (length (d0 :: ds) <? length (Version.items v))%nat;
      [reflexivity |].
    cbn [bind Version.process_kwargs].
    destruct (@lookup_named_segments (d0 :: ds) 0 i d n
                (@get_definitions_unique (Version.cls v) _ Hdefs) Hd Hn) as [_ Hl].
    cbn [Nat.add] in Hl. rewrite Hl. unfold setitem.
    rewrite !length_app, list_set_length.
    rewrite (list_set_twice _ _ x y Hi). reflexivity. }
  unfold replace. rewrite get_raw_item_all. cbn [bind].
  rewrite V1, V2, V3. cbn [bind fst snd]. split; exact E.
Qed.

Lemma replace_name_precedence_witness :
  replace {| Version.cls := NamedVersion;
             Version.items := [PInt 3; PInt 4] |}
    [(lit "_1", PInt 7); (lit "minor", PInt 9)]
  = Ok {| Version.cls := NamedVersion; Version.items := [PInt 3; PInt 9] |}.
Proof.
  rewrite (proj1 (@replace_name_precedence
                    {| Version.cls := NamedVersion;
                       Version.items := [PInt 3; PInt 4] |}
                    _ _ (lit "_1") (lit "minor") 1%nat (PInt 7) (PInt 9)
                    eq_refl eq_refl eq_refl eq_refl eq_refl
                    ltac:(cbn; lia) ltac:(cbn; lia))).
  reflexivity.
Defined.




(** ** The Python schemes *)

Lemma rmatch_default_sound (st r : mstate) (k : mstate -> option mstate) :
  rmatch DEFAULT_RE_PATTERN st k = Some r ->
  exists c t rest,
    ahead st = (c :: t) ++ rest
    /\ Forall (fun x => is_digit x = true) (c :: t)
    /\ k (consume (c :: t) rest st) = Some r.
Proof.
  rewrite rmatch_default_pattern. intros E.
  apply or_else_some in E. destruct E as [E | E].
  - cbn [match_literal lit list_ascii_of_string] in E.
    destruct (ahead st) as [| c t] eqn:Ha; [discriminate E |].
    destruct (Ascii.eqb "0" c) eqn:Hc; [| discriminate E].
    apply Ascii.eqb_eq in Hc. subst c.
    exists "0"%char, [], t. split; [reflexivity |]. split.
    + constructor; [reflexivity | constructor].
    + unfold advance in E. rewrite Ha in E. exact E.
  - destruct (ahead st) as [| c t] eqn:Ha; [discriminate E |].
    destruct (in_class (range "1" "9") c) eqn:Hc; [| discriminate E].
    apply star_class_sound in E.
    destruct E as [ds [rest [H1 [H2 H3]]]].
    assert (Ht : t = ds ++ rest).
    { unfold advance in H1. rewrite Ha in H1. exact H1. }
    subst t. rewrite (@consume_cons c ds rest st Ha) in H3.
    exists c, ds, rest. split; [reflexivity |]. split; [| exact H3].
    constructor; [apply (nonzero_digit c Hc) |].
    apply Forall_forall. intros x Hx.
    rewrite forallb_forall in H2. rewrite <- in_class_digit.
    apply H2. exact Hx.
Qed.

Lemma in_range_point (l a : ascii) : in_range l (a, a) = true -> l = a.
Proof.
  intros Hr. unfold in_range in Hr. cbn [fst snd] in Hr.
  apply andb_prop in Hr. destruct Hr as [P1 P2].
  apply N.leb_le in P1. apply N.leb_le in P2.
  rewrite <- (ascii_N_embedding l), <- (ascii_N_embedding a).
  f_equal. lia.
Qed.

Lemma suffix_pattern_sound (s : pystr) (m : match_object) :
  re_match SUFFIX_VALUE_PATTERN s = Some m ->
  m = [(lit "serial", []); (lit "releaselevel", lit "+")]
  \/ exists l c t,
       In l (lit "abc")
       /\ Forall (fun x => is_digit x = true) (c :: t)
       /\ m = [(lit "serial", c :: t); (lit "releaselevel", [l])].
Proof.
  unfold re_match, SUFFIX_VALUE_PATTERN.
  cbn [map cat_all releaselevel serial SegmentField.name
       SegmentField.re_pattern].
  intros H.
  destruct (rmatch _ _ _) as [st |] eqn:E; [| discriminate H].
  injection H as <-.
  destruct s as [| l s']; [discriminate E |].
  change (rmatch (Cat Bol ?a) ?st0 ?k) with (rmatch a st0 k) in E.
  cbn [rmatch consumed ahead] in E.
  destruct (in_class (chars "+abc") l) eqn:Hl; [| discriminate E].
  unfold advance, capture in E. cbn [ahead consumed captured length] in E.
  destruct (in_class (chars "+") l) eqn:Hp.
  - left. assert (l = "+"%char).
    { unfold in_class, chars in Hp.
      cbn [cc_negated cc_ranges map lit list_ascii_of_string existsb xorb]
        in Hp.
      rewrite orb_false_r in Hp. apply (in_range_point _ _ Hp). }
    subst l. cbn [Bool.eqb] in E.
    apply or_else_some in E. destruct E as [E | E]; [| discriminate E].
    assert (Hst : captured st
                  = [(lit "serial", firstn (length s' - length s') s');
                     (lit "releaselevel",
                      firstn (S (length s') - length s') ("+"%char :: s'))]).
    { destruct s' as [| c [| c' s'']].
      - injection E as <-. reflexivity.
      - destruct (Ascii.eqb c "010"); [| discriminate E].
        injection E as <-. reflexivity.
      - discriminate E. }
    rewrite Hst, Nat.sub_diag.
    replace (S (length s') - length s')%nat with 1%nat by lia.
    reflexivity.
  - right. cbn [Bool.eqb] in E.
    apply or_else_some in E. destruct E as [E | E]; [discriminate E |].
    apply rmatch_default_sound in E.
    destruct E as [c [t [rest [Ha [F E]]]]].
    cbn [ahead] in Ha. subst s'.
    unfold capture, consume in E. cbn [ahead consumed captured] in E.
    exists l, c, t. split; [| split; [exact F |]].
    + unfold in_class, chars in Hl, Hp.
      cbn [cc_negated cc_ranges map lit list_ascii_of_string existsb xorb]
        in Hl, Hp.
      rewrite orb_false_r in Hp. rewrite Hp in Hl. cbn [orb] in Hl.
      rewrite orb_false_r in Hl.
      pose proof (@in_range_point l) as Hr.
      apply orb_prop in Hl. destruct Hl as [Hl | Hl];
        [left; symmetry; apply (Hr _ Hl) |].
      apply orb_prop in Hl. destruct Hl as [Hl | Hl];
        [right; left; symmetry; apply (Hr _ Hl) |].
      right; right; left; symmetry; apply (Hr _ Hl).
    + assert (Hst : captured st
                    = [(lit "serial",
                        firstn (length ((c :: t) ++ rest) - length rest)
                               ((c :: t) ++ rest));
                       (lit "releaselevel",
                        firstn (S (length ((c :: t) ++ rest))
                                - length ((c :: t) ++ rest))
                               (l :: (c :: t) ++ rest))]).
      { destruct rest as [| c1 [| c2 rest']].
        - injection E as <-. reflexivity.
        - destruct (Ascii.eqb c1 "010"); [| discriminate E].
          injection E as <-. reflexivity.
        - discriminate E. }
      rewrite Hst, firstn_consumed.
      replace (S (length ((c :: t) ++ rest))
               - length ((c :: t) ++ rest))%nat with 1%nat by lia.
      reflexivity.
Qed.

Lemma validate_suffix_sound (x y : pyval) :
  SegmentDefinition.validate_value SUFFIX_DEFINITION x = Ok y -> is_suffix y.
Proof.
  unfold SegmentDefinition.validate_value.
  cbn [SUFFIX_DEFINITION SegmentDefinition.fields SegmentDefinition.optional
       SegmentDefinition.default is_none negb andb].
  destruct (is_none x) eqn:Ex.
  - intros H. injection H as <-. left.
    destruct x; try discriminate Ex. reflexivity.
  - unfold SegmentDefinition._validate_value. intros H.
    apply bind_ok in H. destruct H as [s [_ H]].
    change (Cat Bol _) with SUFFIX_VALUE_PATTERN in H.
    destruct (re_match SUFFIX_VALUE_PATTERN s) as [m |] eqn:Hm;
      [| discriminate H].
    apply suffix_pattern_sound in Hm.
    destruct Hm as [-> | [l [c [t [Hl [F ->]]]]]].
    + right. left. vm_compute in H. injection H as <-. reflexivity.
    + right. right.
      cbn [mapM bind releaselevel serial SegmentField.name SegmentField.type
           DEFAULT_FIELD_TYPE is_str_type negb] in H.
      unfold group in H.
      set (L1 := lookup (lit "releaselevel") _) in H.
      assert (H1 : L1 = Some [l]) by reflexivity.
      set (L2 := lookup (lit "serial") _) in H.
      assert (H2 : L2 = Some (c :: t)) by reflexivity.
      rewrite H1, H2 in H. clear L1 H1 L2 H2.
      cbn [py_eq str_eqb andb call_type py_int py_str bind] in H.
      unfold DEFAULT_FIELD_TYPE in H. cbn [call_type py_int] in H.
      rewrite int_of_str_digits in H by (inversion F; assumption).
      destruct (@digits_value_digits (c :: t) 0 F ltac:(lia)) as [n [Hv Hn]].
      rewrite Hv in H. cbn [bind] in H. injection H as <-.
      exists l, n. split; [exact Hl |]. split; [exact Hn | reflexivity].
Qed.

Lemma new_length (c : VersionClass) (defs : list SegmentDefinition.t)
  (args : list pyval) (kwargs : list (pystr * pyval)) (v : Version.t) :
  Version._get_definitions c = Ok defs ->
  defs <> [] ->
  positional args
  \/ length (group_names
               (Cat Bol (Cat (cat_all (Version.re_segments [] defs 0)) Eol)))
     = length defs ->
  Version.new c args kwargs = Ok v ->
  length (Version.items v) = length defs.
Proof.
  intros Hdefs Hne Hg H. unfold Version.new in H. rewrite Hdefs in H.
  cbn [bind] in H.
  apply bind_ok in H. destruct H as [a [Ha H]].
  apply bind_ok in H. destruct H as [a' [Ha' H]].
  cbv zeta in H.
  apply bind_ok in H. destruct H as [ys [Hys H]].
  apply bind_ok in H. destruct H as [_ [_ H]]. injection H as <-.
  cbn [Version.items].
  pose proof (mapM_length _ _ Hys) as Hl. rewrite length_seq in Hl.
  rewrite Hl, (process_kwargs_length _ _ _ Ha').
  destruct defs as [| d0 ds]; [contradiction Hne; reflexivity |].
  assert (Hpos : forall l,
             (if (length (d0 :: ds) <? length l)%nat
              then Raise (ValueError TooManySegmentValues)
              else Ok (ArgList (l ++ repeat PNone (length (d0 :: ds)
                                                   - length l)))) = Ok a ->
             length (arg_values a) = length (d0 :: ds)).
  { intros l Hl'. remember (length (d0 :: ds)) as n eqn:En.
    destruct (Nat.ltb_spec n (length l)) as [L | L];
      [discriminate Hl' |].
    injection Hl' as <-. cbn [arg_values].
    rewrite length_app, repeat_length. lia. }
  destruct args as [| x [| y l]].
  - apply (Hpos [] Ha).
  - destruct x as [| z | s | t];
      try (apply (Hpos [_] Ha)).
    apply bind_ok in Ha. destruct Ha as [re [Hre Ha]].
    rewrite (get_re_ok c Hdefs) in Hre. injection Hre as <-.
    destruct (re_match _ s) as [m |]; [| discriminate Ha].
    injection Ha as <-. cbn [arg_values]. unfold groups.
    rewrite length_map. destruct Hg as [Hg | Hg]; [| exact Hg].
    contradiction (Hg s). reflexivity.
  - destruct x; apply (Hpos (_ :: y :: l) Ha).
Qed.

Lemma python_items (args : list pyval) (kwargs : list (pystr * pyval))
  (v : Version.t) :
  Version.new PythonVersion args kwargs = Ok v ->
  exists a b m s,
    v = {| Version.cls := PythonVersion;
           Version.items := [PInt a; PInt b; m; s] |}
    /\ 0 <= a /\ 0 <= b
    /\ (m = PNone \/ exists n, 0 <= n /\ m = PInt n)
    /\ is_suffix s.
Proof.
  intros H.
  assert (Hdefs : Version._get_definitions PythonVersion
                  = Ok [DEFAULT_SEGMENT_DEFINITION; DEFAULT_SEGMENT_DEFINITION;
                        MICRO_DEFINITION; SUFFIX_DEFINITION])
    by reflexivity.
  destruct (@new_items_validated _ _ args kwargs v Hdefs H)
    as [Hc [_ [_ Hit]]].
  assert (Hlen : length (Version.items v) = 4%nat).
  { apply (@new_length PythonVersion _ args kwargs v Hdefs);
      [discriminate | right; reflexivity | exact H]. }
  destruct v as [c ys]. cbn [Version.cls Version.items] in *. subst c.
  destruct ys as [| y0 [| y1 [| y2 [| y3 [| y4 ys]]]]]; try discriminate Hlen.
  destruct (Hit 0%nat y0 eq_refl) as [d0 [x0 [D0 V0]]].
  destruct (Hit 1%nat y1 eq_refl) as [d1 [x1 [D1 V1]]].
  destruct (Hit 2%nat y2 eq_refl) as [d2 [x2 [D2 V2]]].
  destruct (Hit 3%nat y3 eq_refl) as [d3 [x3 [D3 V3]]].
  injection D0 as <-. injection D1 as <-. injection D2 as <-.
  injection D3 as <-.
  destruct (validate_default_sound _ V0) as [a [Ha ->]].
  destruct (validate_default_sound _ V1) as [b [Hb ->]].
  exists a, b, y2, y3. split; [reflexivity |].
  split; [exact Ha |]. split; [exact Hb |]. split.
  - assert (Hd : dotted MICRO_DEFINITION)
      by (exists true, PNone, None; reflexivity).
    destruct (@validate_dotted_sound _ x2 y2 Hd V2) as [[-> _] | Hn];
      [left; reflexivity | right; exact Hn].
  - apply (@validate_suffix_sound x3 y3 V3).
Qed.

Lemma py_eq_longer (p r : list pyval) (y : pyval) :
  py_eq (PTuple (p ++ y :: r)) (PTuple p) = false.
Proof.
  induction p as [| z p IH]; simpl app.
  - reflexivity.
  - rewrite py_eq_tuple_cons, IH. apply andb_false_r.
Qed.

Lemma py_lt_longer (p r : list pyval) (y : pyval) :
  py_lt (PTuple (p ++ y :: r)) (PTuple p) = Ok false.
Proof.
  induction p as [| z p IH]; simpl app.
  - reflexivity.
  - rewrite py_lt_tuple_cons, py_eq_refl. exact IH.
Qed.

Lemma new_fixed (c : VersionClass) (defs : list SegmentDefinition.t)
  (ys : list pyval) :
  Version._get_definitions c = Ok defs ->
  defs <> [] ->
  length ys = length defs ->
  positional ys ->
  validate c ys = Ok tt ->
  (forall i y d,
     nth_error ys i = Some y -> nth_error defs i = Some d ->
     SegmentDefinition.validate_value d y = Ok y) ->
  Version.new c ys [] = Ok {| Version.cls := c; Version.items := ys |}.
Proof.
  intros Hdefs Hne Hlen Hpos Hv Hfix.
  destruct defs as [| d0 ds]; [contradiction Hne; reflexivity |].
  rewrite (@new_positional c d0 ds ys [] Hdefs Hpos).
  rewrite Hlen, Nat.ltb_irrefl, Nat.sub_diag. cbn [repeat].
  rewrite app_nil_r. cbn [bind Version.process_kwargs arg_values].
  assert (Hm : mapM (fun i =>
                       d <- Version.definition_at (d0 :: ds) i ;;
                       x <- py_getitem (PTuple ys) i ;;
                       SegmentDefinition.validate_value d x)
                    (seq 0 (length ys))
               = Ok (map (fun y => y) ys)).
  { apply mapM_seq. intros i y Hy. cbn [Nat.add].
    assert (Hi : (i < length (d0 :: ds))%nat)
      by (rewrite <- Hlen; apply nth_error_Some; rewrite Hy; discriminate).
    destruct (nth_error (d0 :: ds) i) as [d |] eqn:Hd;
      [| apply nth_error_None in Hd; lia].
    rewrite (definition_at_nth _ _ Hd). cbn [bind py_getitem]. rewrite Hy.
    apply (Hfix i y d Hy Hd). }
  rewrite map_id in Hm. rewrite Hm. cbn [bind]. rewrite Hv. reflexivity.
Qed.

(** X9.  The suffix of a constructed Python version is nothing, the
    plus sign without a serial, or one of the letters a, b and c with a
    serial that is a whole number.  [is_nondevelopment] says that it is
    nothing and [is_release] that it is not the plus sign: neither
    raises, and a non-development version is a release. *)
Theorem python_suffix (args : list pyval) (kwargs : list (pystr * pyval))
  (v : Version.t) :
  Version.new PythonVersion args kwargs = Ok v ->
  exists s,
    Version.__getitem__ v (Index SUFFIX) = Ok s
    /\ is_suffix s
    /\ is_nondevelopment v = Ok (is_none s)
    /\ (is_release v = Ok false <-> s = PTuple [PStr (lit "+"); PNone])
    /\ (is_release v = Ok true <-> s <> PTuple [PStr (lit "+"); PNone])
    /\ (is_nondevelopment v = Ok true -> is_release v = Ok true).
Proof.
  intros H. destruct (python_items _ _ H) as [a [b [m [s [-> [_ [_ [_ Hs]]]]]]]].
  set (v := {| Version.cls := PythonVersion;
               Version.items := [PInt a; PInt b; m; s] |}).
  assert (Hg : Version.__getitem__ v (Index SUFFIX) = Ok s).
  { rewrite (@getitem_index v _ SUFFIX SUFFIX_DEFINITION s eq_refl eq_refl
               eq_refl).
    unfold Version.get. destruct s; reflexivity. }
  exists s. unfold is_nondevelopment, is_release. rewrite Hg. cbn [bind].
  split; [reflexivity |]. split; [exact Hs |]. split; [reflexivity |].
  destruct Hs as [-> | [-> | [l [n [_ [_ ->]]]]]].
  - cbn [py_eq negb is_none].
    split; [split; intros E; discriminate E |].
    split; [split; [intros _ E; discriminate E | reflexivity] | reflexivity].
  - rewrite py_eq_refl. cbn [negb is_none].
    split; [split; reflexivity |].
    split; [| intros E; discriminate E].
    split; [intros E; discriminate E | intros E; contradiction E; reflexivity].
  - assert (E : py_eq (PTuple [PStr [l]; PInt n])
                  (PTuple [PStr (lit "+"); PNone]) = false).
    { rewrite py_eq_tuple_cons, py_eq_tuple_cons. cbn [py_eq].
      cbn [andb]. apply andb_false_r. }
    rewrite E. cbn [negb is_none].
    split; [split; intros E'; discriminate E' |].
    split; [| intros E'; discriminate E'].
    split; [intros _ E'; discriminate E' | reflexivity].
Qed.

Lemma python_suffix_witness :
  is_release python_3_4_1_c1 = Ok true.
Proof.
  assert (Hn : Version.new PythonVersion [PStr (lit "3.4.1c1")] []
               = Ok python_3_4_1_c1) by reflexivity.
  destruct (@python_suffix _ _ _ Hn) as [s [Hg [_ [_ [_ [Hr _]]]]]].
  apply Hr.
  assert (Hs : Version.__getitem__ python_3_4_1_c1 (Index SUFFIX)
               = Ok (PTuple [PStr (lit "c"); PInt 1])) by reflexivity.
  rewrite Hs in Hg. injection Hg as <-. discriminate.
Defined.

(** X10.  [major_version], [minor_version] and [micro_version] of a
    constructed Python version succeed and hold its first one, two and
    three values.  The version itself is never equal to its
    [micro_version], not even when it has no suffix: the micro version
    is less. *)
Theorem python_shorter_versions (args : list pyval)
  (kwargs : list (pystr * pyval)) (v : Version.t) :
  Version.new PythonVersion args kwargs = Ok v ->
  major_version v
  = Ok {| Version.cls := PythonMajorVersion;
          Version.items := firstn 1 (Version.items v) |}
  /\ minor_version v
     = Ok {| Version.cls := PythonMinorVersion;
             Version.items := firstn 2 (Version.items v) |}
  /\ exists u,
       micro_version v = Ok u
       /\ u = {| Version.cls := PythonMicroVersion;
                 Version.items := firstn 3 (Version.items v) |}
       /\ __eq__ v (AVersion u) = Ok false
       /\ __lt__ u (AVersion v) = Ok (Truth true)
       /\ __lt__ v (AVersion u) = Ok (Truth false).
Proof.
  intros H.
  destruct (python_items _ _ H) as [a [b [m [s [-> [Ha [Hb [Hm _]]]]]]]].
  cbn [Version.items firstn].
  set (v := {| Version.cls := PythonVersion;
               Version.items := [PInt a; PInt b; m; s] |}).
  assert (G0 : Version.__getitem__ v (Index MAJOR) = Ok (PInt a))
    by apply (@getitem_index v _ MAJOR DEFAULT_SEGMENT_DEFINITION (PInt a)
                eq_refl eq_refl eq_refl).
  assert (G1 : Version.__getitem__ v (Index MINOR) = Ok (PInt b))
    by apply (@getitem_index v _ MINOR DEFAULT_SEGMENT_DEFINITION (PInt b)
                eq_refl eq_refl eq_refl).
  assert (G2 : Version.__getitem__ v (Index MICRO) = Ok m).
  { rewrite (@getitem_index v _ MICRO MICRO_DEFINITION m eq_refl eq_refl
               eq_refl).
    unfold Version.get. destruct m; reflexivity. }
  assert (Dd : dotted DEFAULT_SEGMENT_DEFINITION)
    by (exists false, PNone, None; reflexivity).
  assert (Dm : dotted MICRO_DEFINITION)
    by (exists true, PNone, None; reflexivity).
  assert (Vm : SegmentDefinition.validate_value MICRO_DEFINITION m = Ok m).
  { destruct Hm as [-> | [n [Hn ->]]]; [reflexivity |].
    apply (@validate_int_dotted _ n Dm Hn). }
  assert (Pm : m = PNone \/ exists n, m = PInt n).
  { destruct Hm as [-> | [n [_ ->]]]; [left | right; exists n]; reflexivity. }
  unfold major_version, minor_version, micro_version.
  rewrite G0, G1, G2. cbn [bind].
  split; [| split].
  - apply (@new_fixed PythonMajorVersion _ [PInt a] eq_refl);
      [discriminate | reflexivity | | reflexivity |].
    + intros t E. discriminate E.
    + intros [| i] y d Hy Hd; [| destruct i; discriminate Hy].
      injection Hy as <-. injection Hd as <-.
      apply (@validate_int_dotted _ a Dd Ha).
  - apply (@new_fixed PythonMinorVersion _ [PInt a; PInt b] eq_refl);
      [discriminate | reflexivity | | reflexivity |].
    + intros t E. discriminate E.
    + intros [| [| i]] y d Hy Hd; [| | destruct i; discriminate Hy];
        injection Hy as <-; injection Hd as <-.
      * apply (@validate_int_dotted _ a Dd Ha).
      * apply (@validate_int_dotted _ b Dd Hb).
  - eexists. split; [| split; [reflexivity |]].
    + apply (@new_fixed PythonMicroVersion _ [PInt a; PInt b; m] eq_refl);
        [discriminate | reflexivity | | reflexivity |].
      * intros t E. discriminate E.
      * intros [| [| [| i]]] y d Hy Hd; [| | | destruct i; discriminate Hy];
          injection Hy as <-; injection Hd as <-.
        -- apply (@validate_int_dotted _ a Dd Ha).
        -- apply (@validate_int_dotted _ b Dd Hb).
        -- exact Vm.
    + set (u := {| Version.cls := PythonMicroVersion;
                   Version.items := [PInt a; PInt b; m] |}).
      assert (Cv : Version.cooked v
                   = Ok (PTuple ([PInt a; PInt b; m] ++ [s]))).
      { rewrite (@cooked_ok v _ eq_refl). unfold cooked_values.
        cbn [v Version.items combine map fst snd app].
        unfold Version.get.
        destruct Pm as [-> | [n ->]]; destruct s; reflexivity. }
      assert (Cu : Version.cooked u = Ok (PTuple [PInt a; PInt b; m])).
      { rewrite (@cooked_ok u _ eq_refl). unfold cooked_values.
        cbn [u Version.items combine map fst snd app].
        unfold Version.get.
        destruct Pm as [-> | [n ->]]; reflexivity. }
      unfold __eq__, __lt__. rewrite Cv, Cu. cbn [bind].
      rewrite py_eq_longer, py_lt_longer, py_lt_prefix. cbn [bind].
      repeat split; reflexivity.
Qed.

Lemma python_shorter_versions_witness :
  minor_version python_3_4_1_c1
  = Ok {| Version.cls := PythonMinorVersion;
          Version.items := [PInt 3; PInt 4] |}.
Proof.
  assert (Hn : Version.new PythonVersion [PStr (lit "3.4.1c1")] []
               = Ok python_3_4_1_c1) by reflexivity.
  exact (proj1 (proj2 (@python_shorter_versions _ _ _ Hn))).
Defined.

(** ** Segment names *)

(** X11.  A segment definition that was constructed keeps the fields,
    the separator and the optional flag it was given, and its field
    names are unique.  Its name, when it has one, is the name given: it
    is not empty, does not begin with an underscore and is an
    identifier, so [replace] never reads it as an underscore and an
    index; the empty name is no name. *)
Theorem segment_definition_invariants (optional : bool) (default : pyval)
  (separator : pystr) (fields : list SegmentField.t) (name : option pystr)
  (d : SegmentDefinition.t) :
  SegmentDefinition.new optional default separator fields name = Ok d ->
  SegmentDefinition.optional d = optional
  /\ SegmentDefinition.separator d = separator
  /\ SegmentDefinition.fields d = fields
  /\ has_duplicates (map SegmentField.name fields) = false
  /\ (name = Some [] -> SegmentDefinition.name d = None)
  /\ (forall n,
        SegmentDefinition.name d = Some n ->
        name = Some n /\ n <> []
        /\ startswith_underscore n = false
        /\ isidentifier n = true
        /\ index_keyword n = None).
Proof.
  unfold SegmentDefinition.new. intros H.
  destruct (has_duplicates (map SegmentField.name fields)) eqn:Hdup;
    [discriminate H |].
  cbn [bind] in H.
  apply bind_ok in H. destruct H as [df [_ H]].
  apply bind_ok in H. destruct H as [nm [Hnm H]].
  injection H as <-.
  cbn [SegmentDefinition.optional SegmentDefinition.separator
       SegmentDefinition.fields SegmentDefinition.name].
  split; [reflexivity |]. split; [reflexivity |]. split; [reflexivity |].
  split; [reflexivity |]. split.
  - intros ->. injection Hnm as <-. reflexivity.
  - intros n Hn. subst nm.
    destruct name as [[| c t] |]; try discriminate Hnm.
    destruct (startswith_underscore (c :: t)) eqn:Eu; [discriminate Hnm |].
    destruct (isidentifier (c :: t)) eqn:Ei; [| discriminate Hnm].
    cbn [negb] in Hnm. injection Hnm as <-.
    split; [reflexivity |]. split; [discriminate |].
    split; [exact Eu |]. split; [exact Ei |].
    cbn [startswith_underscore] in Eu. unfold index_keyword.
    destruct t; [reflexivity |]. rewrite Eu. reflexivity.
Qed.

Lemma segment_definition_invariants_witness :
  index_keyword (lit "minor") = None.
Proof.
  destruct (@segment_definition_invariants true (PInt 0)
              DEFAULT_SEGMENT_SEPARATOR [DEFAULT_SEGMENT_FIELD]
              (Some (lit "minor")) _ eq_refl) as [_ [_ [_ [_ [_ H]]]]].
  apply (H (lit "minor") eq_refl).
Defined.

(** ** Equality of versions *)

Lemma cooked_values_default (defs : list SegmentDefinition.t)
  (d : SegmentDefinition.t) :
  forall (l : list pyval) (i : nat),
    nth_error l i = Some PNone ->
    nth_error defs i = Some d ->
    map (fun vd => Version.get (fst vd) (snd vd))
        (combine (list_set l i (SegmentDefinition.default d)) defs)
    = map (fun vd => Version.get (fst vd) (snd vd)) (combine l defs).
Proof.
  induction defs as [| d0 ds IH]; intros l i Hl Hd;
    [destruct i; discriminate Hd |].
  destruct l as [| x l]; [destruct i; discriminate Hl |].
  destruct i as [| i].
  - injection Hl as ->. injection Hd as ->.
    cbn [list_set combine map fst snd]. f_equal.
    unfold Version.get. cbn [is_none].
    destruct (is_none (SegmentDefinition.default d)) eqn:E; [| reflexivity].
    destruct (SegmentDefinition.default d); try discriminate E. reflexivity.
  - cbn [list_set combine map]. f_equal. apply (IH l i Hl Hd).
Qed.

(** X12.  Equality of versions, of one scheme or of two, never raises
    and is an equivalence: it holds exactly when the cooked values are
    the same.  So a version that leaves a segment out is equal to the
    version that gives the segment its default. *)
Theorem version_equality (a b c : Version.t)
  (da db dc : list SegmentDefinition.t) :
  Version._get_definitions (Version.cls a) = Ok da ->
  Version._get_definitions (Version.cls b) = Ok db ->
  Version._get_definitions (Version.cls c) = Ok dc ->
  (__eq__ a (AVersion b) = Ok true
   \/ __eq__ a (AVersion b) = Ok false)
  /\ (__eq__ a (AVersion b) = Ok true
      <-> cooked_values a da = cooked_values b db)
  /\ __eq__ a (AVersion a) = Ok true
  /\ __eq__ a (AVersion b) = __eq__ b (AVersion a)
  /\ (__eq__ a (AVersion b) = Ok true ->
      __eq__ b (AVersion c) = Ok true ->
      __eq__ a (AVersion c) = Ok true)
  /\ (forall i d,
        nth_error (Version.items a) i = Some PNone ->
        nth_error da i = Some d ->
        __eq__ a (AVersion
                    {| Version.cls := Version.cls a;
                       Version.items :=
                         list_set (Version.items a) i
                                  (SegmentDefinition.default d) |})
        = Ok true).
Proof.
  intros Ha Hb Hc.
  assert (E : forall u v du dv,
             Version._get_definitions (Version.cls u) = Ok du ->
             Version._get_definitions (Version.cls v) = Ok dv ->
             __eq__ u (AVersion v)
             = Ok (py_eq (PTuple (cooked_values u du))
                         (PTuple (cooked_values v dv)))).
  { intros u v du dv Hu Hv. unfold __eq__.
    rewrite (@cooked_ok u du Hu), (@cooked_ok v dv Hv). reflexivity. }
  rewrite (E a b da db Ha Hb), (E a a da da Ha Ha), (E b a db da Hb Ha),
    (E b c db dc Hb Hc), (E a c da dc Ha Hc).
  split; [destruct (py_eq _ _); [left | right]; reflexivity |].
  split.
  { split; intros H.
    - assert (H' : py_eq (PTuple (cooked_values a da))
                     (PTuple (cooked_values b db)) = true)
        by (injection H as H; exact H).
      apply py_eq_eq in H'. injection H' as H'. exact H'.
    - rewrite H, py_eq_refl. reflexivity. }
  split; [rewrite py_eq_refl; reflexivity |].
  split; [rewrite py_eq_sym; reflexivity |].
  split.
  { intros H1 H2.
    assert (H1' : py_eq (PTuple (cooked_values a da))
                    (PTuple (cooked_values b db)) = true)
      by (injection H1 as H1; exact H1).
    assert (H2' : py_eq (PTuple (cooked_values b db))
                    (PTuple (cooked_values c dc)) = true)
      by (injection H2 as H2; exact H2).
    apply py_eq_eq in H1'. apply py_eq_eq in H2'.
    rewrite H1', H2', py_eq_refl. reflexivity. }
  intros i d Hi Hd.
  rewrite (@E a {| Version.cls := Version.cls a;
                   Version.items :=
                     list_set (Version.items a) i
                              (SegmentDefinition.default d) |} da da Ha Ha).
  f_equal. apply py_eq_eq. f_equal.
  assert (Hne : da <> []) by (intros ->; destruct i; discriminate Hd).
  rewrite !(cooked_values_table _ Hne). cbn [Version.items].
  symmetry. apply (@cooked_values_default da d (Version.items a) i Hi Hd).
Qed.

Lemma version_equality_witness :
  __eq__ {| Version.cls := NamedVersion; Version.items := [PInt 3; PNone] |}
    (AVersion {| Version.cls := NamedVersion;
                 Version.items := [PInt 3; PInt 0] |})
  = Ok true.
Proof.
  destruct (@version_equality
              {| Version.cls := NamedVersion;
                 Version.items := [PInt 3; PNone] |}
              python_3_4 python_3_4_1 _ _ _ eq_refl eq_refl eq_refl)
    as [_ [_ [_ [_ [_ H]]]]].
  apply (H 1%nat _ eq_refl eq_refl).
Defined.

(** X13.  What every constructed version satisfies: it is of the class
    that was called, its values passed the [validate] of the class, it
    has a value, and each of its values is what the definition of its
    segment returned from [validate_value], so that reading it by its
    index succeeds.  When the call was not the call on one text, a
    scheme with a table has one value for each segment. *)
Theorem constructor_postcondition (c : VersionClass)
  (defs : list SegmentDefinition.t) (args : list pyval)
  (kwargs : list (pystr * pyval)) (v : Version.t) :
  Version._get_definitions c = Ok defs ->
  Version.new c args kwargs = Ok v ->
  Version.cls v = c
  /\ validate c (Version.items v) = Ok tt
  /\ Version.items v <> []
  /\ (defs <> [] -> positional args ->
      length (Version.items v) = length defs)
  /\ (forall i y,
        nth_error (Version.items v) i = Some y ->
        exists d x,
          Version.definition_at defs i = Ok d
          /\ SegmentDefinition.validate_value d x = Ok y
          /\ Version.__getitem__ v (Index i) = Ok (Version.get y d)).
Proof.
  intros Hdefs H.
  destruct (@new_items_validated c defs args kwargs v Hdefs H)
    as [Hc [Hv [Hne Hit]]].
  split; [exact Hc |]. split; [exact Hv |]. split; [| split].
  - destruct defs as [| d0 ds]; [apply Hne; reflexivity |].
    intros E.
    unfold Version.new in H. rewrite Hdefs in H. cbn [bind] in H.
    apply bind_ok in H. destruct H as [a [Ha H]].
    apply bind_ok in H. destruct H as [a' [Ha' H]].
    cbv zeta in H.
    apply bind_ok in H. destruct H as [ys [Hys H]].
    apply bind_ok in H. destruct H as [_ [_ H]]. injection H as <-.
    cbn [Version.items] in E. subst ys.
    pose proof (mapM_length _ _ Hys) as Hl. rewrite length_seq in Hl.
    rewrite (process_kwargs_length _ _ _ Ha') in Hl. cbn [length] in Hl.
    assert (Hpos : forall l,
               (if (length (d0 :: ds) <? length l)%nat
                then Raise (ValueError TooManySegmentValues)
                else Ok (ArgList (l ++ repeat PNone (length (d0 :: ds)
                                                     - length l)))) = Ok a ->
               False).
    { intros l Hl'. remember (length (d0 :: ds)) as n eqn:En.
      destruct (Nat.ltb_spec n (length l)) as [L | L];
        [discriminate Hl' |].
      injection Hl' as <-. cbn [arg_values] in Hl.
      rewrite length_app, repeat_length in Hl. cbn [length] in En. lia. }
    destruct args as [| x [| y l]].
    + apply (Hpos [] Ha).
    + destruct x as [| z | s | t]; try (apply (Hpos [_] Ha)).
      apply bind_ok in Ha. destruct Ha as [re [Hre Ha]].
      rewrite (get_re_ok c Hdefs) in Hre. injection Hre as <-.
      destruct (re_match _ s) as [m |]; [| discriminate Ha].
      injection Ha as <-. cbn [arg_values] in Hl. unfold groups in Hl.
      rewrite length_map in Hl.
      cbn [Version.re_segments cat_all] in Hl.
      unfold Version.re_segment in Hl. cbv zeta in Hl.
      destruct (negb (SegmentDefinition.required d0));
        cbn [group_names app length] in Hl; discriminate Hl.
    + destruct x; apply (Hpos (_ :: y :: l) Ha).
  - intros Hd Hpos.
    apply (@new_length c defs args kwargs v Hdefs Hd (or_introl Hpos) H).
  - intros i y Hy. destruct (Hit i y Hy) as [d [x [Hd Hx]]].
    exists d, x. split; [exact Hd |]. split; [exact Hx |].
    apply (@getitem_index v defs i d y); [rewrite Hc; exact Hdefs | exact Hd |].
    exact Hy.
Qed.

Lemma constructor_postcondition_witness :
  length (Version.items {| Version.cls := NamedVersion;
                           Version.items := [PInt 3; PNone] |}) = 2%nat.
Proof.
  assert (Hn : Version.new NamedVersion [PInt 3] []
               = Ok {| Version.cls := NamedVersion;
                       Version.items := [PInt 3; PNone] |})
    by reflexivity.
  destruct (@constructor_postcondition NamedVersion _ [PInt 3] [] _ eq_refl Hn)
    as [_ [_ [_ [Hl _]]]].
  apply Hl; [discriminate |]. intros s E. discriminate E.
Defined.
